(** * API test generator: the generation and execution pipelines of
    [backend/server.js]

    The development follows the server source: JavaScript strings and
    the regular expressions the code uses, JSON values, a store of
    mutable objects (the test cases are objects that the code shares and
    updates in place), the JSON extractor, the retry loop around the
    model call, the patching step of [/generate-tests], its cache, and
    the execution of a batch of tests. *)

From Stdlib Require Import ZArith Ascii String List Lia Bool DecimalString.
From stdpp Require Import base option list strings gmap.

Local Open Scope Z_scope.
Local Set Warnings "-register-all".

(** ** Strings

    A JavaScript string is a sequence of code units; here every code unit
    is below 256, so a string is a [string] of the standard library. *)

Module JsString.

Definition code (c : ascii) : nat := nat_of_ascii c.

(** The double quote and the backslash. *)
Definition dquote : ascii := ascii_of_nat 34.
Definition backslash : ascii := ascii_of_nat 92.

Definition is_upper (c : ascii) : bool :=
  (Nat.leb 65 (code c)) && (Nat.leb (code c) 90).

Definition is_lower (c : ascii) : bool :=
  (Nat.leb 97 (code c)) && (Nat.leb (code c) 122).

Definition is_digit (c : ascii) : bool :=
  (Nat.leb 48 (code c)) && (Nat.leb (code c) 57).

Definition lower_ascii (c : ascii) : ascii :=
  if is_upper c then ascii_of_nat (code c + 32) else c.

Definition upper_ascii (c : ascii) : ascii :=
  if is_lower c then ascii_of_nat (code c - 32) else c.

Fixpoint toLowerCase (s : string) : string :=
  match s with
  | EmptyString => EmptyString
  | String c s' => String (lower_ascii c) (toLowerCase s')
  end.

Fixpoint toUpperCase (s : string) : string :=
  match s with
  | EmptyString => EmptyString
  | String c s' => String (upper_ascii c) (toUpperCase s')
  end.

(** White space of [String.prototype.trim] and of the class [\s], among
    the code units below 256: TAB, LF, VT, FF, CR, space and NBSP. *)
Definition is_space (c : ascii) : bool :=
  let n := code c in
  (Nat.leb 9 n && Nat.leb n 13) || Nat.eqb n 32 || Nat.eqb n 160.

Fixpoint trimStart (s : string) : string :=
  match s with
  | EmptyString => EmptyString
  | String c s' => if is_space c then trimStart s' else s
  end.

Fixpoint trimEnd (s : string) : string :=
  match s with
  | EmptyString => EmptyString
  | String c s' =>
      match trimEnd s' with
      | EmptyString => if is_space c then EmptyString else String c EmptyString
      | t => String c t
      end
  end.

Definition trim (s : string) : string := trimEnd (trimStart s).

(** [after_prefix p s] is the rest of [s] behind the prefix [p]. *)
Fixpoint after_prefix (p s : string) : option string :=
  match p, s with
  | EmptyString, _ => Some s
  | String a p', String b s' =>
      if Ascii.eqb a b then after_prefix p' s' else None
  | String _ _, EmptyString => None
  end.

Definition startsWith (s p : string) : bool :=
  match after_prefix p s with Some _ => true | None => false end.

(** The same, ignoring the case of ASCII letters (the flag [i] of a
    regular expression without the flag [u]); [p] is given in lower
    case. *)
Fixpoint after_prefix_ci (p s : string) : option string :=
  match p, s with
  | EmptyString, _ => Some s
  | String a p', String b s' =>
      if Ascii.eqb a (lower_ascii b) then after_prefix_ci p' s' else None
  | String _ _, EmptyString => None
  end.

(** [split_first p s]: the text before the first occurrence of [p] in
    [s] and the text behind that occurrence. *)
Fixpoint split_first (p s : string) : option (string * string) :=
  match after_prefix p s with
  | Some rest => Some (EmptyString, rest)
  | None =>
      match s with
      | EmptyString => None
      | String c s' =>
          match split_first p s' with
          | Some (pre, rest) => Some (String c pre, rest)
          | None => None
          end
      end
  end.

Definition includes (s p : string) : bool :=
  match split_first p s with Some _ => true | None => false end.

(** [includes] for a pattern given in lower case, ignoring case: the
    test of an expression such as [/quota/i]. *)
Definition includes_ci (s p : string) : bool := includes (toLowerCase s) p.

(** [s.indexOf(c)] and [s.lastIndexOf(c)] for a single character. *)
Fixpoint indexOf (c : ascii) (s : string) : option nat :=
  match s with
  | EmptyString => None
  | String a s' =>
      if Ascii.eqb a c then Some O
      else match indexOf c s' with Some i => Some (S i) | None => None end
  end.

Fixpoint lastIndexOf (c : ascii) (s : string) : option nat :=
  match s with
  | EmptyString => None
  | String a s' =>
      match lastIndexOf c s' with
      | Some i => Some (S i)
      | None => if Ascii.eqb a c then Some O else None
      end
  end.

(** [s.substring(i, j)] for [i <= j]. *)
Definition substring (i j : nat) (s : string) : string :=
  String.substring i (j - i) s.

Fixpoint repeat (c : ascii) (n : nat) : string :=
  match n with
  | O => EmptyString
  | S n' => String c (repeat c n')
  end.

(** [String(n)] for an integer. *)
Definition of_Z (n : Z) : string := NilZero.string_of_int (Z.to_int n).

Definition of_nat (n : nat) : string := of_Z (Z.of_nat n).

(** [s.padStart(w, '0')]. *)
Definition padStart0 (w : nat) (s : string) : string :=
  repeat "0" (w - String.length s) +:+ s.

Fixpoint join (sep : string) (l : list string) : string :=
  match l with
  | [] => EmptyString
  | [x] => x
  | x :: l' => x +:+ sep +:+ join sep l'
  end.

(** The longest prefix of [s] whose characters satisfy [p], and the
    rest. *)
Fixpoint span (p : ascii -> bool) (s : string) : string * string :=
  match s with
  | EmptyString => (EmptyString, EmptyString)
  | String c s' =>
      if p c then let '(a, b) := span p s' in (String c a, b)
      else (EmptyString, s)
  end.

(** [s] between double quotes, as the template ["${s}"] writes it. *)
Definition quoted (s : string) : string :=
  String dquote (s +:+ String dquote EmptyString).

End JsString.

(** ** JSON values

    Numbers are integers: every number the pipelines compute with (an
    HTTP status, a count, a length) is one. *)

Inductive json : Type :=
| JNull
| JBool (b : bool)
| JNum (n : Z)
| JStr (s : string)
| JArr (items : list json)
| JObj (props : list (string * json)).

Module Json.

Import JsString.

Definition hex_digit (n : nat) : ascii :=
  ascii_of_nat (if Nat.ltb n 10 then 48 + n else 87 + n).

(** The escapes [JSON.stringify] writes inside a string. *)
Definition escape_char (c : ascii) : string :=
  let n := code c in
  if Nat.eqb n 34 then String backslash (String dquote EmptyString)
  else if Nat.eqb n 92 then "\\"
  else if Nat.eqb n 8 then "\b"
  else if Nat.eqb n 12 then "\f"
  else if Nat.eqb n 10 then "\n"
  else if Nat.eqb n 13 then "\r"
  else if Nat.eqb n 9 then "\t"
  else if Nat.ltb n 32 then
    "\u00" +:+ String (hex_digit (Nat.div n 16)) (String (hex_digit (Nat.modulo n 16)) EmptyString)
  else String c EmptyString.

Fixpoint escape (s : string) : string :=
  match s with
  | EmptyString => EmptyString
  | String c s' => escape_char c +:+ escape s'
  end.

Definition quote (s : string) : string :=
  String dquote (escape s +:+ String dquote EmptyString).

(** [JSON.stringify] of a JSON value. *)
Fixpoint stringify (j : json) : string :=
  match j with
  | JNull => "null"
  | JBool true => "true"
  | JBool false => "false"
  | JNum n => of_Z n
  | JStr s => quote s
  | JArr l => "[" +:+ join "," (List.map stringify l) +:+ "]"
  | JObj l =>
      "{" +:+ join "," (List.map (fun kv => quote (fst kv) +:+ ":" +:+ stringify (snd kv)) l)
      +:+ "}"
  end.

(** Property access on a JSON object: the first binding of the key. *)
Fixpoint assoc {A : Type} (k : string) (l : list (string * A)) : option A :=
  match l with
  | [] => None
  | (k', v) :: l' => if String.eqb k k' then Some v else assoc k l'
  end.

(** Assignment to a property: an existing key keeps its place, a new key
    goes last. *)
Fixpoint assoc_set {A : Type} (k : string) (v : A) (l : list (string * A))
  : list (string * A) :=
  match l with
  | [] => [(k, v)]
  | (k', v') :: l' =>
      if String.eqb k k' then (k', v) :: l' else (k', v') :: assoc_set k v l'
  end.

Fixpoint assoc_del {A : Type} (k : string) (l : list (string * A))
  : list (string * A) :=
  match l with
  | [] => []
  | (k', v') :: l' =>
      if String.eqb k k' then assoc_del k l' else (k', v') :: assoc_del k l'
  end.

End Json.

(** ** A JSON reader

    [JSON.parse] belongs to the JavaScript runtime. The pipelines below
    take it as a parameter; [parse_json] is a reader for the texts of
    the examples: JSON with integer literals and code units below 256
    (a literal with a fraction or an exponent, or an escape above
    [ÿ], is answered with [None]). *)

Module JsonReader.

Import JsString Json.

Definition is_json_ws (c : ascii) : bool :=
  let n := code c in
  Nat.eqb n 32 || Nat.eqb n 9 || Nat.eqb n 10 || Nat.eqb n 13.

Fixpoint skip_ws (s : string) : string :=
  match s with
  | EmptyString => EmptyString
  | String c s' => if is_json_ws c then skip_ws s' else s
  end.

Fixpoint digits_value (acc : Z) (s : string) : Z :=
  match s with
  | EmptyString => acc
  | String c s' => digits_value (10 * acc + Z.of_nat (code c - 48)) s'
  end.

(** The digits of a number after its sign: [0], or a digit from 1 to 9
    and more digits. *)
Definition read_nat (s : string) : option (Z * string) :=
  match s with
  | String c s' =>
      if Nat.eqb (code c) 48 then Some (0, s')
      else if is_digit c then
        let '(ds, rest) := span is_digit s' in
        Some (digits_value 0 (String c ds), rest)
      else None
  | EmptyString => None
  end.

Definition starts_fraction (s : string) : bool :=
  match s with
  | String c _ => Nat.eqb (code c) 46 || Nat.eqb (code c) 101 || Nat.eqb (code c) 69
  | EmptyString => false
  end.

Definition read_number (s : string) : option (Z * string) :=
  let '(neg, s1) :=
    match s with
    | String c s' => if Nat.eqb (code c) 45 then (true, s') else (false, s)
    | EmptyString => (false, s)
    end in
  match read_nat s1 with
  | Some (n, rest) =>
      if starts_fraction rest then None
      else Some (if neg then - n else n, rest)
  | None => None
  end.

Definition hex_value (c : ascii) : option nat :=
  let n := code c in
  if is_digit c then Some (n - 48)%nat
  else if Nat.leb 97 n && Nat.leb n 102 then Some (n - 87)%nat
  else if Nat.leb 65 n && Nat.leb n 70 then Some (n - 55)%nat
  else None.

Definition read_unicode (s : string) : option (ascii * string) :=
  match s with
  | String a (String b (String c (String d rest))) =>
      match hex_value a, hex_value b, hex_value c, hex_value d with
      | Some x, Some y, Some z, Some w =>
          if Nat.eqb x 0 && Nat.eqb y 0
          then Some (ascii_of_nat (16 * z + w), rest) else None
      | _, _, _, _ => None
      end
  | _ => None
  end.

(** The characters of a string literal behind its opening quote. *)
Fixpoint read_string (fuel : nat) (s : string) : option (string * string) :=
  match fuel with
  | O => None
  | S fuel' =>
      match s with
      | EmptyString => None
      | String c s' =>
          if Ascii.eqb c dquote then Some (EmptyString, s')
          else if Ascii.eqb c backslash then
            match s' with
            | String e s'' =>
                let lit (x : ascii) :=
                  match read_string fuel' s'' with
                  | Some (t, rest) => Some (String x t, rest)
                  | None => None
                  end in
                let n := code e in
                if Nat.eqb n 34 then lit dquote
                else if Nat.eqb n 92 then lit backslash
                else if Nat.eqb n 47 then lit "/"%char
                else if Nat.eqb n 98 then lit (ascii_of_nat 8)
                else if Nat.eqb n 102 then lit (ascii_of_nat 12)
                else if Nat.eqb n 110 then lit (ascii_of_nat 10)
                else if Nat.eqb n 114 then lit (ascii_of_nat 13)
                else if Nat.eqb n 116 then lit (ascii_of_nat 9)
                else if Nat.eqb n 117 then
                  match read_unicode s'' with
                  | Some (x, s3) =>
                      match read_string fuel' s3 with
                      | Some (t, rest) => Some (String x t, rest)
                      | None => None
                      end
                  | None => None
                  end
                else None
            | EmptyString => None
            end
          else if Nat.ltb (code c) 32 then None
          else
            match read_string fuel' s' with
            | Some (t, rest) => Some (String c t, rest)
            | None => None
            end
      end
  end.

(** A repeated key keeps its first place and takes the last value, as a
    JavaScript object does. *)
Fixpoint read_value (fuel : nat) (s : string) : option (json * string) :=
  match fuel with
  | O => None
  | S fuel' =>
      match skip_ws s with
      | EmptyString => None
      | String c s' =>
          let n := code c in
          if Nat.eqb n 110 then
            option_map (fun r => (JNull, r)) (after_prefix "null" (String c s'))
          else if Nat.eqb n 116 then
            option_map (fun r => (JBool true, r)) (after_prefix "true" (String c s'))
          else if Nat.eqb n 102 then
            option_map (fun r => (JBool false, r)) (after_prefix "false" (String c s'))
          else if Nat.eqb n 34 then
            option_map (fun tr => (JStr (fst tr), snd tr)) (read_string (String.length s') s')
          else if Nat.eqb n 91 then
            match skip_ws s' with
            | String d s'' =>
                if Nat.eqb (code d) 93 then Some (JArr [], s'')
                else option_map (fun lr => (JArr (fst lr), snd lr))
                       (read_items fuel' (String d s''))
            | EmptyString => None
            end
          else if Nat.eqb n 123 then
            match skip_ws s' with
            | String d s'' =>
                if Nat.eqb (code d) 125 then Some (JObj [], s'')
                else option_map (fun lr => (JObj (fst lr), snd lr))
                       (read_members fuel' [] (String d s''))
            | EmptyString => None
            end
          else option_map (fun nr => (JNum (fst nr), snd nr)) (read_number (String c s'))
      end
  end

with read_items (fuel : nat) (s : string) : option (list json * string) :=
  match fuel with
  | O => None
  | S fuel' =>
      match read_value fuel' s with
      | Some (v, rest) =>
          match skip_ws rest with
          | String c rest' =>
              if Nat.eqb (code c) 93 then Some ([v], rest')
              else if Nat.eqb (code c) 44 then
                option_map (fun lr => (v :: fst lr, snd lr)) (read_items fuel' rest')
              else None
          | EmptyString => None
          end
      | None => None
      end
  end

with read_members (fuel : nat) (acc : list (string * json)) (s : string)
  : option (list (string * json) * string) :=
  match fuel with
  | O => None
  | S fuel' =>
      match skip_ws s with
      | String q s1 =>
          if Ascii.eqb q dquote then
            match read_string (String.length s1) s1 with
            | Some (k, s2) =>
                match skip_ws s2 with
                | String colon s3 =>
                    if Nat.eqb (code colon) 58 then
                      match read_value fuel' s3 with
                      | Some (v, rest) =>
                          let acc' := assoc_set k v acc in
                          match skip_ws rest with
                          | String c rest' =>
                              if Nat.eqb (code c) 125 then Some (acc', rest')
                              else if Nat.eqb (code c) 44 then read_members fuel' acc' rest'
                              else None
                          | EmptyString => None
                          end
                      | None => None
                      end
                    else None
                | EmptyString => None
                end
            | None => None
            end
          else None
      | EmptyString => None
      end
  end.

Definition parse_json (s : string) : option json :=
  match read_value (2 * String.length s + 2) s with
  | Some (j, rest) =>
      match skip_ws rest with
      | EmptyString => Some j
      | String _ _ => None
      end
  | None => None
  end.

End JsonReader.

(** ** The store of objects

    The test cases are JavaScript objects: several of them can hold a
    reference to one and the same object, and an assignment through one
    reference is seen through the others. A value is a primitive or a
    reference into a store of cells. *)

Definition loc := nat.

Inductive value : Type :=
| VUndef
| VNull
| VBool (b : bool)
| VNum (n : Z)
| VStr (s : string)
| VRef (l : loc).

(** An object holds its properties in insertion order; an array holds
    its elements and, as any object, may be given named properties. *)
Inductive cell : Type :=
| Obj (props : list (string * value))
| Arr (items : list value) (props : list (string * value)).

Abbreviation heap := (list cell).

Module Store.

Import JsString Json.

Definition props_of (c : cell) : list (string * value) :=
  match c with
  | Obj p => p
  | Arr _ p => p
  end.

Definition with_props (c : cell) (p : list (string * value)) : cell :=
  match c with
  | Obj _ => Obj p
  | Arr items _ => Arr items p
  end.

(** What [if (v)], [v || w] and [v && w] test. *)
Definition truthy (v : value) : bool :=
  match v with
  | VUndef | VNull => false
  | VBool b => b
  | VNum n => negb (Z.eqb n 0)
  | VStr s => negb (String.eqb s EmptyString)
  | VRef _ => true
  end.

(** Computations on the store; [None] is a [TypeError] thrown by the
    runtime (the module is in strict mode). *)
Definition M (A : Type) : Type := heap -> option (A * heap).

Definition ret {A : Type} (a : A) : M A := fun h => Some (a, h).

Definition bind {A B : Type} (m : M A) (k : A -> M B) : M B :=
  fun h =>
    match m h with
    | Some (a, h') => k a h'
    | None => None
    end.

Definition throwTypeError {A : Type} : M A := fun _ => None.

(** [v.k]: reading a property of [undefined] or [null] throws; a
    primitive has none of the properties the program reads; a missing
    property reads as [undefined]. The names the program uses are never
    an index or [length]. *)
Definition get (v : value) (k : string) : M value :=
  fun h =>
    match v with
    | VUndef | VNull => None
    | VBool _ | VNum _ | VStr _ => Some (VUndef, h)
    | VRef l =>
        match h !! l with
        | Some c => Some (default VUndef (assoc k (props_of c)), h)
        | None => None
        end
    end.

(** [v.k = x]: on [undefined], [null] or a primitive it throws. *)
Definition set (v : value) (k : string) (x : value) : M unit :=
  fun h =>
    match v with
    | VRef l =>
        match h !! l with
        | Some c => Some (tt, <[l := with_props c (assoc_set k x (props_of c))]> h)
        | None => None
        end
    | _ => None
    end.

(** [delete v.k]. *)
Definition delete (v : value) (k : string) : M unit :=
  fun h =>
    match v with
    | VUndef | VNull => None
    | VBool _ | VNum _ | VStr _ => Some (tt, h)
    | VRef l =>
        match h !! l with
        | Some c => Some (tt, <[l := with_props c (assoc_del k (props_of c))]> h)
        | None => None
        end
    end.

(** An object literal: a new cell. *)
Definition new_obj (props : list (string * value)) : M value :=
  fun h => Some (VRef (length h), h ++ [Obj props]).

Definition new_arr (items : list value) : M value :=
  fun h => Some (VRef (length h), h ++ [Arr items []]).

Definition isArray (v : value) (h : heap) : bool :=
  match v with
  | VRef l => match h !! l with Some (Arr _ _) => true | _ => false end
  | _ => false
  end.

(** The object graph that [JSON.parse] builds for a JSON value: one new
    cell for each array and each object. *)
Fixpoint alloc (j : json) (h : heap) {struct j} : value * heap :=
  match j with
  | JNull => (VNull, h)
  | JBool b => (VBool b, h)
  | JNum n => (VNum n, h)
  | JStr s => (VStr s, h)
  | JArr l =>
      let '(vs, h1) :=
        (fix go (l : list json) (h : heap) {struct l} : list value * heap :=
           match l with
           | [] => ([], h)
           | x :: l' =>
               let '(v, h1) := alloc x h in
               let '(vs, h2) := go l' h1 in
               (v :: vs, h2)
           end) l h in
      (VRef (length h1), h1 ++ [Arr vs []])
  | JObj l =>
      let '(ps, h1) :=
        (fix go (l : list (string * json)) (h : heap) {struct l}
           : list (string * value) * heap :=
           match l with
           | [] => ([], h)
           | kx :: l' =>
               let '(v, h1) := alloc (snd kx) h in
               let '(ps, h2) := go l' h1 in
               ((fst kx, v) :: ps, h2)
           end) l h in
      (VRef (length h1), h1 ++ [Obj ps])
  end.

Fixpoint alloc_list (l : list json) (h : heap) : list value * heap :=
  match l with
  | [] => ([], h)
  | x :: l' =>
      let '(v, h1) := alloc x h in
      let '(vs, h2) := alloc_list l' h1 in
      (v :: vs, h2)
  end.

(** The JSON value that [JSON.stringify] (and so [res.json]) writes for
    a value of the store: a property holding [undefined] is left out, an
    element holding [undefined] is written [null], and the named
    properties of an array are not written. [None]: the graph is deeper
    than the fuel, which is what happens for a cyclic one, where
    [JSON.stringify] throws. *)
Fixpoint reify (fuel : nat) (h : heap) (v : value) : option json :=
  match v with
  | VUndef | VNull => Some JNull
  | VBool b => Some (JBool b)
  | VNum n => Some (JNum n)
  | VStr s => Some (JStr s)
  | VRef l =>
      match fuel with
      | O => None
      | S fuel' =>
          match h !! l with
          | Some (Arr items _) =>
              option_map JArr
                ((fix go (l : list value) : option (list json) :=
                    match l with
                    | [] => Some []
                    | x :: l' =>
                        match reify fuel' h x, go l' with
                        | Some j, Some js => Some (j :: js)
                        | _, _ => None
                        end
                    end) items)
          | Some (Obj props) =>
              option_map JObj
                ((fix go (l : list (string * value)) : option (list (string * json)) :=
                    match l with
                    | [] => Some []
                    | (k, VUndef) :: l' => go l'
                    | (k, x) :: l' =>
                        match reify fuel' h x, go l' with
                        | Some j, Some js => Some ((k, j) :: js)
                        | _, _ => None
                        end
                    end) props)
          | None => None
          end
      end
  end.

Definition toJSON (h : heap) (v : value) : option json :=
  reify (S (length h)) h v.

End Store.

Notation "'let*' x ':=' m 'in' k" := (Store.bind m (fun x => k))
  (at level 10, x name, m at level 100, k at level 200).
Notation "'do*' m 'in' k" := (Store.bind m (fun _ => k))
  (at level 10, m at level 100, k at level 200).

(** ** Conversions of JSON values *)

Module Coerce.

Import JsString Json.

(** [String(v)]. *)
Fixpoint to_js_string (j : json) : string :=
  match j with
  | JNull => "null"
  | JBool true => "true"
  | JBool false => "false"
  | JNum n => of_Z n
  | JStr s => s
  | JArr l =>
      join ","
        (List.map (fun x => match x with JNull => EmptyString | _ => to_js_string x end) l)
  | JObj _ => "[object Object]"
  end.

Definition truthy_json (j : json) : bool :=
  match j with
  | JNull => false
  | JBool b => b
  | JNum n => negb (Z.eqb n 0)
  | JStr s => negb (String.eqb s EmptyString)
  | JArr _ | JObj _ => true
  end.

(** A value that may be [undefined], kept when it is truthy. *)
Definition if_truthy (o : option json) : option json :=
  match o with
  | Some j => if truthy_json j then Some j else None
  | None => None
  end.

(** [a || b]. *)
Definition or_else (a b : option json) : option json :=
  match if_truthy a with
  | Some j => Some j
  | None => b
  end.

(** [j.k] for a JSON value that is not [null]. *)
Definition prop (j : json) (k : string) : option json :=
  match j with
  | JObj props => assoc k props
  | _ => None
  end.

End Coerce.

(** ** The regular expressions of the source *)

Module Regex.

Import JsString.

Definition fence : string := "```".

(** [/```(?:json)?([\s\S]*?)```/i] matched at the start of [s]: the
    captured interior. The tag is taken when it is there; the lazy
    interior ends at the next fence. When no fence follows, the
    expression is tried again without the tag. *)
Definition code_block_at (s : string) : option string :=
  match after_prefix fence s with
  | None => None
  | Some r =>
      let tagged :=
        match after_prefix_ci "json" r with
        | Some r' => split_first fence r'
        | None => None
        end in
      match tagged with
      | Some (interior, _) => Some interior
      | None =>
          match split_first fence r with
          | Some (interior, _) => Some interior
          | None => None
          end
      end
  end.

(** [text.match(...)]: the leftmost position where the expression
    matches. *)
Fixpoint match_code_block (s : string) : option string :=
  match code_block_at s with
  | Some interior => Some interior
  | None =>
      match s with
      | EmptyString => None
      | String _ s' => match_code_block s'
      end
  end.

Definition skip_quote (s : string) : string :=
  match s with
  | String c s' => if Ascii.eqb c dquote then s' else s
  | EmptyString => s
  end.

(** [/"?testCases"?\s*:\s*(\[[\s\S]*?\])/i] matched at the start of [s]:
    the captured group, from the bracket to the first closing bracket
    behind it. Each optional quote and each run of white space is
    followed by a character of another kind, so taking them greedily
    loses no match. *)
Definition test_cases_at (s : string) : option string :=
  match after_prefix_ci "testcases" (skip_quote s) with
  | None => None
  | Some s2 =>
      match trimStart (skip_quote s2) with
      | String c s3 =>
          if Ascii.eqb c ":"%char then
            match trimStart s3 with
            | String b s4 =>
                if Ascii.eqb b "["%char then
                  match split_first "]" s4 with
                  | Some (inner, _) => Some ("[" +:+ inner +:+ "]")
                  | None => None
                  end
                else None
            | EmptyString => None
            end
          else None
      | EmptyString => None
      end
  end.

Fixpoint match_test_cases (s : string) : option string :=
  match test_cases_at s with
  | Some captured => Some captured
  | None =>
      match s with
      | EmptyString => None
      | String _ s' => match_test_cases s'
      end
  end.

(** [([0-9]+(?:\.[0-9]+)?)s] matched at the start of [s]: the captured
    number. A shorter run of digits is followed by a digit, never by the
    dot or the [s], so only the longest runs can match. [unit] tells the
    characters that the final [s] of the expression matches. *)
Definition seconds_with (unit : ascii -> bool) (s : string) : option string :=
  match span is_digit s with
  | (EmptyString, _) => None
  | (d, rest) =>
      let whole :=
        match rest with
        | String c _ => if unit c then Some d else None
        | EmptyString => None
        end in
      match rest with
      | String dot rest' =>
          if Ascii.eqb dot "."%char then
            match span is_digit rest' with
            | (EmptyString, _) => whole
            | (f, String c _) =>
                if unit c then Some (d +:+ "." +:+ f) else whole
            | (_, EmptyString) => whole
            end
          else whole
      | EmptyString => whole
      end
  end.

(** The expression as it is written, and with the flag [i], under which
    its [s] also matches [S]. *)
Definition seconds_at (s : string) : option string :=
  seconds_with (fun c => Ascii.eqb c "s"%char) s.

Definition seconds_at_ci (s : string) : option string :=
  seconds_with (fun c => Ascii.eqb (lower_ascii c) "s"%char) s.

(** [/([0-9]+(?:\.[0-9]+)?)s/]. *)
Fixpoint match_seconds (s : string) : option string :=
  match seconds_at s with
  | Some lexeme => Some lexeme
  | None =>
      match s with
      | EmptyString => None
      | String _ s' => match_seconds s'
      end
  end.

(** [/\"retryDelay\"\s*[:]\s*\"?([0-9]+(?:\.[0-9]+)?)s\"?/i] at the
    start of [s]. *)
Definition retry_delay_at (s : string) : option string :=
  match s with
  | String q s1 =>
      if Ascii.eqb q dquote then
        match after_prefix_ci "retrydelay" s1 with
        | Some (String q' s2) =>
            if Ascii.eqb q' dquote then
              match trimStart s2 with
              | String c s3 =>
                  if Ascii.eqb c ":"%char
                  then seconds_at_ci (skip_quote (trimStart s3))
                  else None
              | EmptyString => None
              end
            else None
        | _ => None
        end
      else None
  | EmptyString => None
  end.

Fixpoint match_retry_delay (s : string) : option string :=
  match retry_delay_at s with
  | Some lexeme => Some lexeme
  | None =>
      match s with
      | EmptyString => None
      | String _ s' => match_retry_delay s'
      end
  end.

End Regex.

(** ** Errors of the model call, and the world around one generation *)

(** What the [catch] of the retry loop reads from a caught error. *)
Record js_error : Type := mk_error {
  message : string;
  response_data : option json;          (* error.response.data *)
  error_data : option json;             (* error.data *)
  response_retry_after : option json;   (* error.response.headers['retry-after'] *)
  headers_retry_after : option json     (* error.headers['retry-after'] *)
}.

Definition plain_error (msg : string) : js_error :=
  mk_error msg None None None None.

(** The model answers with a text, or the call fails. *)
Inductive model_reply : Type :=
| Reply (text : string)
| Failure (e : js_error).

(** A result of [Math.random()]: the number [numer / (numer + slack + 1)],
    which lies in the interval from 0 (included) to 1 (excluded). *)
Record unit_interval : Type := { numer : nat; slack : nat }.

(** [Math.floor(Math.random() * n)], computed exactly. *)
Definition floor_times (r : unit_interval) (n : Z) : Z :=
  (Z.of_nat (numer r) * n) / Z.of_nat (numer r + slack r + 1).

(** The world of one call of [generateWithRetry]: what the model answers
    at each attempt, and the random number drawn in that attempt. *)
Record world : Type := {
  model : nat -> model_reply;
  random : nat -> unit_interval
}.

(** What the call does to the outside, in order. *)
Inductive event : Type :=
| Invoke (attempt : nat)
| Sleep (ms : Z).

Inductive outcome : Type :=
| Returned (testCases : list value) (h : heap)
| Thrown (e : js_error).

Definition USE_IMMEDIATE_FALLBACK_ON_QUOTA : bool := false.
Definition MAX_RETRY_DELAY_MS : Z := 60 * 1000.

Section Generation.

Import JsString Json Coerce Regex Store.

(** [JSON.parse] of the runtime; [None] when it throws. *)
Variable JSON_parse : string -> option json.

(** [Math.ceil(parseFloat(s) * 1000)], which the runtime computes on
    doubles; [None] when the result is NaN. *)
Variable ceil_millis : string -> option Z.

(** *** The JSON extractor *)

(** [Array.isArray(parsed) ? parsed : parsed.testCases] when that is an
    array. *)
Definition array_or_testCases (parsed : json) : option (list json) :=
  match parsed with
  | JArr l => Some l
  | JObj props =>
      match assoc "testCases" props with
      | Some (JArr l) => Some l
      | _ => None
      end
  | _ => None
  end.

Definition only_array (parsed : json) : option (list json) :=
  match parsed with
  | JArr l => Some l
  | _ => None
  end.

Definition extractArrayFromText (text : string) : option (list json) :=
  if String.eqb text EmptyString then None
  else
    let fenced :=
      match match_code_block text with
      | Some interior =>
          match JSON_parse (trim interior) with
          | Some parsed => array_or_testCases parsed
          | None => None
          end
      | None => None
      end in
    match fenced with
    | Some l => Some l
    | None =>
        let bracketed :=
          match indexOf "["%char text, lastIndexOf "]"%char text with
          | Some first, Some last =>
              if Nat.ltb first last then
                match JSON_parse (substring first (last + 1) text) with
                | Some parsed => only_array parsed
                | None => None
                end
              else None
          | _, _ => None
          end in
        match bracketed with
        | Some l => Some l
        | None =>
            match match_test_cases text with
            | Some captured =>
                match JSON_parse captured with
                | Some parsed => only_array parsed
                | None => None
                end
            | None => None
            end
        end
    end.

(** The three strategies as the specification names them, each on its
    own, and their combination in order. *)
Definition strategy_fenced (text : string) : option (list json) :=
  match match_code_block text with
  | Some interior => JSON_parse (trim interior) ≫= array_or_testCases
  | None => None
  end.

Definition strategy_brackets (text : string) : option (list json) :=
  match indexOf "["%char text, lastIndexOf "]"%char text with
  | Some first, Some last =>
      if Nat.ltb first last
      then JSON_parse (substring first (last + 1) text) ≫= only_array
      else None
  | _, _ => None
  end.

Definition strategy_testCases (text : string) : option (list json) :=
  match match_test_cases text with
  | Some captured => JSON_parse captured ≫= only_array
  | None => None
  end.


(** *** The deterministic fallback batch *)

Definition band (idx : nat) : string :=
  if Nat.leb idx 3 then "valid"
  else if Nat.leb idx 7 then "invalid"
  else if Nat.leb idx 10 then "boundary"
  else "security".

Definition test_id (idx : nat) : string :=
  "TC_" +:+ padStart0 3 (of_nat idx).

Definition fresh (c : cell) (h : heap) : value * heap :=
  (VRef (length h), h ++ [c]).

Definition fallback_case (i : nat) (h : heap) : value * heap :=
  let category := band i in
  let status := if Nat.leb i 3 then 200 else 400 in
  let '(headers, h1) := fresh (Obj [("Content-Type", VStr "application/json")]) h in
  let '(request, h2) :=
    fresh (Obj [("method", VStr "GET"); ("endpoint", VStr "/api/test");
                ("headers", headers)]) h1 in
  let '(expected, h3) := fresh (Obj [("status", VNum status)]) h2 in
  fresh (Obj [("id", VStr (test_id i)); ("category", VStr category);
              ("description", VStr (category +:+ " test " +:+ of_nat i));
              ("request", request); ("expected_response", expected)]) h3.

Fixpoint fallback_from (indices : list nat) (h : heap) : list value * heap :=
  match indices with
  | [] => ([], h)
  | i :: rest =>
      let '(tc, h1) := fallback_case i h in
      let '(tcs, h2) := fallback_from rest h1 in
      (tc :: tcs, h2)
  end.

Definition generateFallbackTestCases (h : heap) : list value * heap :=
  fallback_from (seq 1 12) h.

(** *** One attempt: decoding the reply and filling up to twelve *)

Definition recovered (text : string) : option (list json) :=
  match JSON_parse text with
  | Some parsed => array_or_testCases parsed
  | None => extractArrayFromText text
  end.

(** [v.k] where nothing can throw ([v?.k], or [v] known to be an
    object). *)
Definition read (h : heap) (v : value) (k : string) : value :=
  match v with
  | VRef l =>
      match h !! l with
      | Some c => default VUndef (assoc k (props_of c))
      | None => VUndef
      end
  | _ => VUndef
  end.

(** The case pushed when [testCases.length + 1 = idx]. Its [request] is
    the very object of the first case, not a copy. *)
Definition filler (idx : nat) (first : value) (h : heap) : value * heap :=
  let '(request, h1) :=
    let r := read h first "request" in
    if truthy r then (r, h) else fresh (Obj []) h in
  let '(expected, h2) :=
    fresh (Obj [("status", VNum (if Nat.leb idx 3 then 200 else 400))]) h1 in
  fresh (Obj [("id", VStr (test_id idx)); ("category", VStr (band idx));
              ("description", VStr ("Auto-filled " +:+ of_nat idx));
              ("request", request); ("expected_response", expected)]) h2.

(** [while (testCases.length < 12) testCases.push(...)]. *)
Fixpoint fill (fuel : nat) (testCases : list value) (h : heap) : list value * heap :=
  match fuel with
  | O => (testCases, h)
  | S fuel' =>
      if Nat.ltb (length testCases) 12 then
        let idx := (length testCases + 1)%nat in
        let '(tc, h1) := filler idx (default VUndef (head testCases)) h in
        fill fuel' (testCases ++ [tc]) h1
      else (testCases, h)
  end.

Definition insufficient (n : nat) : js_error :=
  plain_error ("Insufficient tests: got " +:+ of_nat n).

(** The body of the [try]: the batch, or the error thrown. *)
Definition on_reply (text : string) (h : heap) : js_error + (list value * heap) :=
  match recovered text with
  | Some l =>
      if Nat.ltb (length l) 4 then inl (insufficient (length l))
      else
        let '(vs, h1) := alloc_list l h in
        let '(tcs, h2) := fill 12 vs h1 in
        inr (take 12 tcs, h2)
  | None => inl (insufficient 0)
  end.

(** *** The [catch]: classifying the error *)

Definition apiData (e : js_error) : option json :=
  or_else (response_data e) (if_truthy (error_data e)).

Definition isQuota (e : js_error) : bool :=
  includes_ci (message e) "429"
  || includes_ci (message e) "too many requests"
  || includes_ci (message e) "quota"
  || match apiData e with
     | Some a => includes_ci (stringify a) "quota"
     | None => false
     end.

(** A delay that [!retryDelayMs] takes for absent: [null], NaN or 0. *)
Definition no_delay (d : option Z) : bool :=
  match d with
  | Some n => Z.eqb n 0
  | None => true
  end.

Definition retryDelayMs (e : js_error) : option Z :=
  match apiData e with
  | None => None
  | Some a =>
      let d1 :=
        match if_truthy (prop a "retryDelay") with
        | Some rd =>
            match match_seconds (to_js_string rd) with
            | Some lexeme => ceil_millis lexeme
            | None => None
            end
        | None => None
        end in
      let d2 :=
        match match_retry_delay (stringify a) with
        | Some lexeme => if no_delay d1 then ceil_millis lexeme else d1
        | None => d1
        end in
      match or_else (response_retry_after e) (if_truthy (headers_retry_after e)) with
      | Some header =>
          if no_delay d2 then
            match ceil_millis (to_js_string header) with
            | Some ms => Some ms
            | None => d2
            end
          else d2
      | None => d2
      end
  end.

Definition limit_zero_compact : string :=
  String dquote ("limit" +:+ String dquote ":0").

Definition freeTierDisabled (e : js_error) : bool :=
  match apiData e with
  | Some a =>
      let ad := toLowerCase (stringify a) in
      includes ad limit_zero_compact
      || includes ad "limit: 0"
      || (includes ad "generate_content_free_tier_requests" && includes ad "limit: 0")
  | None => false
  end.

Definition isAuth (e : js_error) : bool :=
  includes_ci (message e) "api key"
  || includes_ci (message e) "authentication"
  || includes_ci (message e) "invalid key".

Definition backoff_base (attempt : nat) : Z :=
  Z.min (1000 * 2 ^ Z.of_nat attempt) 5000.

(** What the [catch] block decides. *)
Inductive reaction : Type :=
| FallbackNow
| Rethrow
| WaitThenNext (ms : Z)
| Next.

Definition react (attempt maxRetries : nat) (e : js_error) (r : unit_interval)
  : reaction :=
  if isQuota e then
    if freeTierDisabled e then FallbackNow
    else if USE_IMMEDIATE_FALLBACK_ON_QUOTA then FallbackNow
    else
      match retryDelayMs e with
      | Some d =>
          if negb (Z.eqb d 0) && Z.ltb 0 d
          then WaitThenNext (Z.min (d + 500) MAX_RETRY_DELAY_MS)
          else WaitThenNext
                 (Z.min (backoff_base attempt + floor_times r 1000) MAX_RETRY_DELAY_MS)
      | None =>
          WaitThenNext
            (Z.min (backoff_base attempt + floor_times r 1000) MAX_RETRY_DELAY_MS)
      end
  else if isAuth e then Rethrow
  else if Nat.ltb attempt maxRetries
       then WaitThenNext (backoff_base attempt + floor_times r 300)
       else Next.

(** *** The retry loop *)

Definition fallback (h : heap) : outcome :=
  let '(tcs, h') := generateFallbackTestCases h in Returned tcs h'.

(** What the body of the [try] gives at an attempt. *)
Definition tried (w : world) (attempt : nat) (h : heap)
  : js_error + (list value * heap) :=
  match model w attempt with
  | Reply text => on_reply text h
  | Failure e => inl e
  end.

(** [remaining] counts the iterations the [for] loop has left,
    [attempt] included. *)
Fixpoint attempts (remaining attempt maxRetries : nat) (w : world) (h : heap)
  : outcome * list event :=
  match remaining with
  | O => (fallback h, [])
  | S remaining' =>
      match tried w attempt h with
      | inr (tcs, h') => (Returned tcs h', [Invoke attempt])
      | inl e =>
          match react attempt maxRetries e (random w attempt) with
          | FallbackNow => (fallback h, [Invoke attempt])
          | Rethrow => (Thrown e, [Invoke attempt])
          | WaitThenNext ms =>
              let '(o, t) := attempts remaining' (S attempt) maxRetries w h in
              (o, Invoke attempt :: Sleep ms :: t)
          | Next =>
              let '(o, t) := attempts remaining' (S attempt) maxRetries w h in
              (o, Invoke attempt :: t)
          end
      end
  end.

Definition generateWithRetry (maxRetries : nat) (w : world) (h : heap)
  : outcome * list event :=
  attempts maxRetries 1 maxRetries w h.

End Generation.

(** ** The [/generate-tests] route *)

(** The specification of an endpoint after validation. *)
Record validated : Type := {
  endpoint : string;
  method : string;
  headers : json;
  body : json;
  expected_response : json
}.

Inductive response : Type :=
| Respond (status : Z) (payload : json).

(** Modelled from the spec: the time-bounded mapping behind
    [generatedCache] (the [node-cache] package is not among the
    sources). An entry holds a copy of the stored value and the time at
    which it expires, the time of insertion plus the TTL of one hour; an
    expired entry is removed at the next lookup of its key. *)
Record cache_entry : Type := {
  entry_value : json;
  entry_expires : Z
}.

Abbreviation cache := (gmap string cache_entry).

Definition stdTTL_ms : Z := 60 * 60 * 1000.

Definition cache_get (key : string) (now : Z) (c : cache) : option json * cache :=
  match c !! key with
  | Some e =>
      if Z.leb now (entry_expires e) then (Some (entry_value e), c)
      else (None, delete key c)
  | None => (None, c)
  end.

Definition cache_set (key : string) (v : json) (now : Z) (c : cache) : cache :=
  <[key := {| entry_value := v; entry_expires := now + stdTTL_ms |}]> c.

Section GenerateTests.

Import JsString Json Coerce Store.

Variable JSON_parse : string -> option json.
Variable ceil_millis : string -> option Z.

(** *** Validation *)

Definition containsPathTraversal (input : string) : bool :=
  let lower := toLowerCase input in
  let bs := String backslash EmptyString in
  includes input "../" || includes input (".." +:+ bs)
  || includes input "/../" || includes input ("/.." +:+ bs)
  || includes input (bs +:+ "../") || includes input (bs +:+ ".." +:+ bs)
  || includes lower "%2e%2e/" || includes lower ("%2e%2e" +:+ bs)
  || includes lower "..%2f"
  || includes lower "etc/passwd" || includes lower ("etc" +:+ bs +:+ "passwd")
  || includes lower "windows/system" || includes lower ("windows" +:+ bs +:+ "system").

(** A validator answers with the normalized string or with the message
    of the error it throws. *)
Definition validateMethod (m : option json) : string + string :=
  match m with
  | Some (JStr s) =>
      let upper := toUpperCase s in
      if bool_decide (upper ∈ ["GET"; "POST"; "PUT"; "PATCH"; "DELETE"; "OPTIONS"; "HEAD"])
      then inr upper
      else inl "Invalid HTTP method"
  | None | Some JNull => inl "Invalid HTTP method"
  | Some _ => inl "method?.toUpperCase is not a function"
  end.

Definition validateEndpoint (e : option json) : string + string :=
  match e with
  | Some (JStr s) =>
      if String.eqb s EmptyString then inl "Endpoint is required"
      else
        let trimmed := trim s in
        if negb (startsWith trimmed "/") then inl "Endpoint must start with /"
        else if Nat.ltb 500 (String.length trimmed) then inl "Endpoint too long"
        else if containsPathTraversal trimmed then inl "Invalid endpoint pattern"
        else inr trimmed
  | _ => inl "Endpoint is required"
  end.

Definition validate (spec : json) : string + validated :=
  match validateEndpoint (prop spec "endpoint") with
  | inl msg => inl msg
  | inr e =>
      match validateMethod (prop spec "method") with
      | inl msg => inl msg
      | inr m =>
          inr {| endpoint := e;
                 method := m;
                 headers := default (JObj []) (if_truthy (prop spec "headers"));
                 body := default (JObj []) (if_truthy (prop spec "body"));
                 expected_response :=
                   default (JObj []) (if_truthy (prop spec "expected_response")) |}
      end
  end.

(** The field of the error that the validation of [spec] throws: a
    [ValidationError] names the field it refused, and the [TypeError]
    of a method that is no string has none. *)
Definition validation_field (spec : json) : option string :=
  match validateEndpoint (prop spec "endpoint") with
  | inl _ => Some "endpoint"
  | inr _ =>
      match prop spec "method" with
      | None | Some JNull | Some (JStr _) => Some "method"
      | Some _ => None
      end
  end.

(** [JSON.stringify(validatedSpec)], the key of the cache. *)
Definition cacheKey (v : validated) : string :=
  stringify (JObj [("endpoint", JStr (endpoint v)); ("method", JStr (method v));
                   ("headers", headers v); ("body", body v);
                   ("expected_response", expected_response v)]).

(** *** Patching the cases to the specification *)

Definition methodsWithBody : list string := ["POST"; "PUT"; "PATCH"].

Definition bears_body (m : string) : bool := bool_decide (m ∈ methodsWithBody).

(** [v === s] for a string literal [s]. *)
Definition is_str (v : value) (s : string) : bool :=
  match v with
  | VStr t => String.eqb t s
  | _ => false
  end.

Fixpoint indexed (i : nat) (vs : list value) : list (string * value) :=
  match vs with
  | [] => []
  | v :: vs' => (of_nat i, v) :: indexed (S i) vs'
  end.

Fixpoint chars (s : string) : list value :=
  match s with
  | EmptyString => []
  | String c s' => VStr (String c EmptyString) :: chars s'
  end.

(** The properties that [{ ...v }] copies. *)
Definition spread (h : heap) (v : value) : list (string * value) :=
  match v with
  | VRef l =>
      match h !! l with
      | Some (Obj p) => p
      | Some (Arr items p) => indexed 0 items ++ p
      | None => []
      end
  | VStr s => indexed 0 (chars s)
  | _ => []
  end.

Definition new_spread (v : value) : M value :=
  fun h => new_obj (spread h v) h.

(** [tc.expected_response = tc.expected_response || {}] and the
    assignment of the status. *)
Definition set_expected_status (tc : value) (status : value -> Z) : M unit :=
  let* e0 := get tc "expected_response" in
  let* e := (if truthy e0 then ret e0 else new_obj []) in
  do* set tc "expected_response" e in
  let* e1 := get tc "expected_response" in
  let* category := get tc "category" in
  set e1 "status" (VNum (status category)).

Definition set_request_body (tc : value) (b : value) : M unit :=
  let* r := get tc "request" in set r "body" b.

Definition patch_body (spec_body : value) (tc : value) : M unit :=
  let* category := get tc "category" in
  if is_str category "valid" then set_request_body tc spec_body
  else if is_str category "invalid" then
    let* copy := new_spread spec_body in
    do* set_request_body tc copy in
    let* id := get tc "id" in
    if is_str id "TC_004" then
      let* r := get tc "request" in let* b := get r "body" in delete b "name"
    else if is_str id "TC_005" then
      let* r := get tc "request" in let* b := get r "body" in delete b "email"
    else if is_str id "TC_006" then
      let* r := get tc "request" in let* b := get r "body" in
      set b "email" (VStr "notanemail")
    else
      let* o := new_obj [("invalid_field", VStr "wrong data")] in
      set_request_body tc o
  else if is_str category "boundary" then
    let* id := get tc "id" in
    let name := if is_str id "TC_008" then EmptyString else repeat "a" 1000 in
    let* email :=
      (if is_str id "TC_009" then ret (VStr EmptyString)
       else
         let* e := get spec_body "email" in
         ret (if truthy e then e else VStr "test@test.com")) in
    let* o := new_obj [("name", VStr name); ("email", email)] in
    set_request_body tc o
  else if is_str category "security" then
    let* o := new_obj [("name", VStr "<script>alert('XSS')</script>");
                       ("email", VStr "test@test.com' OR '1'='1")] in
    set_request_body tc o
  else ret tt.

(** The body of the loop [for (const tc of testCases)]. *)
Definition patch_case (m e : string) (hdrs spec_body : value) (tc : value) : M unit :=
  let* r0 := get tc "request" in
  let* r := (if truthy r0 then ret r0 else new_obj []) in
  do* set tc "request" r in
  let* r1 := get tc "request" in
  do* set r1 "method" (VStr m) in
  let* r2 := get tc "request" in
  do* set r2 "endpoint" (VStr e) in
  let* r3 := get tc "request" in
  do* set r3 "headers" hdrs in
  if bears_body m then
    do* patch_body spec_body tc in
    set_expected_status tc
      (fun category =>
         if is_str category "valid"
         then (if String.eqb m "POST" then 201 else 200)
         else 400)
  else
    let* r4 := get tc "request" in
    do* delete r4 "body" in
    set_expected_status tc
      (fun category => if is_str category "valid" then 200 else 400).

Fixpoint patch_all (m e : string) (hdrs spec_body : value) (tcs : list value)
  : M unit :=
  match tcs with
  | [] => ret tt
  | tc :: rest =>
      do* patch_case m e hdrs spec_body tc in
      patch_all m e hdrs spec_body rest
  end.

(** *** The [TypeError] of the loop

    The module is in strict mode, where reading a property of [null] or
    [undefined] and assigning to a property of a primitive throw a
    [TypeError]. Its message is the one of V8, the engine of Node: it
    names the property and quotes the primitive, so that it depends on
    the case the model gave. *)

Definition cannot_read (v : value) (k : string) : string :=
  "Cannot read properties of "
  +:+ match v with VNull => "null" | _ => "undefined" end
  +:+ " (reading '" +:+ k +:+ "')".

Definition cannot_create (k : string) (v : value) : string :=
  "Cannot create property '" +:+ k +:+ "' on "
  +:+ match v with
      | VBool b => "boolean '" +:+ (if b then "true" else "false")
      | VNum n => "number '" +:+ of_Z n
      | VStr t => "string '" +:+ t
      | _ => "object '"
      end
  +:+ "'".

(** The statements of the body of the loop before
    [tc.expected_response = ...]. *)
Definition patch_request (m e : string) (hdrs spec_body : value) (tc : value)
  : M unit :=
  let* r0 := get tc "request" in
  let* r := (if truthy r0 then ret r0 else new_obj []) in
  do* set tc "request" r in
  let* r1 := get tc "request" in
  do* set r1 "method" (VStr m) in
  let* r2 := get tc "request" in
  do* set r2 "endpoint" (VStr e) in
  let* r3 := get tc "request" in
  do* set r3 "headers" hdrs in
  if bears_body m then patch_body spec_body tc
  else
    let* r4 := get tc "request" in
    delete r4 "body".

(** The message of the error that the body of the loop throws for the
    case [tc], when it throws: [tc] is [null] or a primitive, or its
    [request] or its [expected_response] is a primitive that is
    truthy. *)
Definition patch_case_fault (m e : string) (hdrs spec_body : value) (tc : value)
  (h : heap) : string :=
  match patch_request m e hdrs spec_body tc h with
  | Some (_, h') => cannot_create "status" (read h' tc "expected_response")
  | None =>
      match tc with
      | VUndef | VNull => cannot_read tc "request"
      | VRef _ => cannot_create "method" (read h tc "request")
      | _ => cannot_create "request" tc
      end
  end.

Fixpoint patch_all_fault (m e : string) (hdrs spec_body : value) (tcs : list value)
  (h : heap) : string :=
  match tcs with
  | [] => EmptyString
  | tc :: rest =>
      match patch_case m e hdrs spec_body tc h with
      | Some (_, h') => patch_all_fault m e hdrs spec_body rest h'
      | None => patch_case_fault m e hdrs spec_body tc h
      end
  end.

(** *** The route *)

Definition count_category (h : heap) (tcs : list value) (c : string) : Z :=
  Z.of_nat (length (filter (fun tc => is_str (read h tc "category") c = true) tcs)).

Fixpoint reify_all (h : heap) (tcs : list value) : option (list json) :=
  match tcs with
  | [] => Some []
  | tc :: rest =>
      match toJSON h tc, reify_all h rest with
      | Some j, Some js => Some (j :: js)
      | _, _ => None
      end
  end.

Definition responseData (h : heap) (tcs : list value) : option json :=
  match reify_all h tcs with
  | Some js =>
      Some (JObj [("success", JBool true);
                  ("testCases", JArr js);
                  ("summary",
                    JObj [("total", JNum (Z.of_nat (length tcs)));
                          ("valid", JNum (count_category h tcs "valid"));
                          ("invalid", JNum (count_category h tcs "invalid"));
                          ("boundary", JNum (count_category h tcs "boundary"));
                          ("security", JNum (count_category h tcs "security"))]);
                  ("message",
                    JStr ("Generated " +:+ of_nat (length tcs) +:+ " test cases"))])
  | None => None
  end.

Definition failure (status : Z) (fields : list (string * json)) : response :=
  Respond status (JObj (("success", JBool false) :: fields)).

(** The [catch] of the route. *)
Definition generation_error (msg : string) : response :=
  let '(statusCode, errorCode) :=
    if includes msg "API key" then (500, "API_KEY_ERROR")
    else if includes_ci msg "quota" || includes_ci msg "429"
            || includes_ci msg "too many requests"
    then (429, "QUOTA_EXCEEDED")
    else (500, "GENERATION_ERROR") in
  failure statusCode
    [("error", JStr msg); ("code", JStr errorCode);
     ("suggestion", JStr "Try again or check your API configuration.")].

(** What the route does when the lookup misses: the generation, the
    patching and, on success, the entry it stores at time [t_set]. The
    graph of the cases is made of JSON values and of what the loop
    writes, which close no cycle; for a graph [JSON.stringify] cannot
    write, the message is the first line of the one it throws. *)
Definition generate_and_store (v : validated) (t_set : Z) (w : world) (c : cache)
  : response * cache * list event :=
  let '(hdrs, h1) := alloc (headers v) [] in
  let '(spec_body, h2) := alloc (body v) h1 in
  match generateWithRetry JSON_parse ceil_millis 3 w h2 with
  | (Thrown e, t) => (generation_error (message e), c, t)
  | (Returned tcs h3, t) =>
      match patch_all (method v) (endpoint v) hdrs spec_body tcs h3 with
      | None =>
          (generation_error
             (patch_all_fault (method v) (endpoint v) hdrs spec_body tcs h3), c, t)
      | Some (_, h4) =>
          match responseData h4 tcs with
          | Some data => (Respond 200 data, cache_set (cacheKey v) data t_set c, t)
          | None => (generation_error "Converting circular structure to JSON", c, t)
          end
      end
  end.

(** A request for the specification [spec] ([None]: the request has
    none), with the cache read at time [t_get] and, after a generation,
    written at time [t_set]. The entries of the cache are the objects
    this route stores. *)
Definition generate_tests (spec : option json) (t_get t_set : Z) (w : world) (c : cache)
  : response * cache * list event :=
  match spec with
  | Some (JObj _ as s) | Some (JArr _ as s) =>
      match validate s with
      | inl msg =>
          (failure 400
             (("error", JStr msg)
              :: match validation_field s with
                 | Some field => [("field", JStr field)]
                 | None => []
                 end
              ++ [("code", JStr "VALIDATION_ERROR")]), c, [])
      | inr v =>
          match cache_get (cacheKey v) t_get c with
          | (Some (JObj props), c1) =>
              (Respond 200 (JObj (assoc_set "cached" (JBool true) props)), c1, [])
          | (Some _, c1) | (None, c1) => generate_and_store v t_set w c1
          end
      end
  | _ =>
      (failure 400 [("error", JStr "Spec object is required"); ("code", JStr "INVALID_SPEC")],
       c, [])
  end.

End GenerateTests.

(** ** The execution of a batch of tests *)

Inductive exec_status : Type :=
| PASSED
| FAILED
| ERROR.

Record check_detail : Type := {
  check : string;
  check_passed : bool;
  check_expected : string;
  check_actual : string
}.

Record validations : Type := {
  passed : bool;
  details : list check_detail
}.

(** What [axios] resolves with. *)
Record http_response : Type := {
  resp_status : Z;
  resp_statusText : string;
  resp_data : json
}.

(** What a probe throws: an error of [axios], with the fields that
    [formatError] reads, or a [TypeError] of the runtime. *)
Record probe_error : Type := {
  err_code : option string;
  err_response : option (Z * string);
  err_message : string
}.

Inductive axios_reply : Type :=
| Resolved (r : http_response)
| Rejected (e : probe_error).

(** The configuration handed to [axios]; the timeout is 15000 ms and
    every status is accepted as a response. *)
Record axios_config : Type := {
  cfg_method : string;
  cfg_url : string;
  cfg_headers : json;
  cfg_data : option json
}.

(** The durations, read from the clock, are left out of the results. *)
Record exec_result : Type := {
  res_id : option json;
  res_category : option json;
  res_description : option json;
  res_status : exec_status;
  res_validations : option validations;
  res_actual : option http_response;
  res_error : option string;
  res_expected : option json;
  res_url : option string
}.

Record run_summary : Type := {
  total : nat;
  n_passed : nat;
  n_failed : nat;
  n_errors : nat
}.

Inductive run_response : Type :=
| BadRequest (code : string)
| ExecutionError
| Completed (results : list exec_result) (summary : run_summary).

Module Execution.

Import JsString Json Coerce.

Definition type_error : probe_error :=
  {| err_code := None; err_response := None; err_message := "TypeError" |}.

(** [o.k] where [o] may be [undefined]: reading a property of
    [undefined] or [null] throws. *)
Definition member (o : option json) (k : string) : probe_error + option json :=
  match o with
  | None | Some JNull => inl type_error
  | Some j => inr (prop j k)
  end.

(** [o.k] for an [o] that is known not to throw. *)
Definition opt_prop (o : option json) (k : string) : option json :=
  match o with
  | Some j => prop j k
  | None => None
  end.

(** A value on which a string method is called. *)
Definition as_string (o : option json) : probe_error + string :=
  match o with
  | Some (JStr s) => inr s
  | _ => inl type_error
  end.

Definition body_text (data : json) : string :=
  match data with
  | JStr s => s
  | _ => stringify data
  end.

Definition contains_checks (data : json) (texts : list json) : list check_detail :=
  List.map
    (fun text =>
       let t := to_js_string text in
       let contains := includes (body_text data) t in
       {| check := "body_contains";
          check_passed := contains;
          check_expected := "contains " +:+ quoted t;
          check_actual := if contains then "found" else "not found" |})
    texts.

Definition not_contains_checks (data : json) (texts : list json) : list check_detail :=
  List.map
    (fun text =>
       let t := to_js_string text in
       let contains := includes (body_text data) t in
       {| check := "body_not_contains";
          check_passed := negb contains;
          check_expected := "does not contain " +:+ quoted t;
          check_actual :=
            if contains then "found (should not be)" else "not found (correct)" |})
    texts.

Definition listed (o : option json) : list json :=
  match o with
  | Some (JArr l) => l
  | _ => []
  end.

Definition rendered (o : option json) : string :=
  match o with
  | Some j => to_js_string j
  | None => "undefined"
  end.

Definition validateResponse (r : http_response) (expected : option json)
  : probe_error + validations :=
  match member expected "status" with
  | inl e => inl e
  | inr st =>
      let statusMatch :=
        match st with
        | Some (JNum n) => Z.eqb (resp_status r) n
        | _ => false
        end in
      let ds :=
        {| check := "status_code";
           check_passed := statusMatch;
           check_expected := rendered st;
           check_actual := of_Z (resp_status r) |}
        :: contains_checks (resp_data r)
             (listed (opt_prop expected "body_contains"))
        ++ not_contains_checks (resp_data r)
             (listed (opt_prop expected "body_not_contains")) in
      inr {| passed := forallb check_passed ds; details := ds |}
  end.

Definition formatError (e : probe_error) : string :=
  match err_code e, err_response e with
  | Some "ECONNREFUSED", _ => "Connection refused - Server not reachable"
  | Some "ETIMEDOUT", _ => "Request timeout - Server took too long to respond"
  | _, Some (st, txt) => "HTTP " +:+ of_Z st +:+ ": " +:+ txt
  | Some "ENOTFOUND", None => "DNS lookup failed - Invalid host"
  | _, None => err_message e
  end.

(** The body of the [try] of [executeTest]. *)
Definition probe (test : json) (baseUrl : string) (net : axios_config -> axios_reply)
  : probe_error + exec_result :=
  match member (Some test) "request" with
  | inl e => inl e
  | inr request =>
  match member request "endpoint" with
  | inl e => inl e
  | inr ep =>
  match as_string ep with
  | inl e => inl e
  | inr ep =>
      let fullUrl :=
        if startsWith ep "http://" || startsWith ep "https://" then ep
        else baseUrl +:+ (if startsWith ep "/" then EmptyString else "/") +:+ ep in
      match member request "method" with
      | inl e => inl e
      | inr m =>
      match as_string m with
      | inl e => inl e
      | inr upper_source =>
          let cfg :=
            {| cfg_method := upper_source;
               cfg_url := fullUrl;
               cfg_headers :=
                 default (JObj []) (if_truthy (opt_prop request "headers"));
               cfg_data :=
                 if bool_decide (toUpperCase upper_source ∈ ["POST"; "PUT"; "PATCH"])
                 then if_truthy (opt_prop request "body")
                 else None |} in
          match net cfg with
          | Rejected e => inl e
          | Resolved r =>
              match validateResponse r (prop test "expected_response") with
              | inl e => inl e
              | inr v =>
                  inr {| res_id := prop test "id";
                         res_category := prop test "category";
                         res_description := prop test "description";
                         res_status := if passed v then PASSED else FAILED;
                         res_validations := Some v;
                         res_actual := Some r;
                         res_error := None;
                         res_expected := prop test "expected_response";
                         res_url := Some fullUrl |}
              end
          end
      end end
  end end end.

(** [executeTest]: what its promise resolves with; [None] when the
    [catch] itself throws and the promise is rejected, which happens
    for a test that is [null]. *)
Definition executeTest (test : json) (baseUrl : string)
  (net : axios_config -> axios_reply) : option exec_result :=
  match probe test baseUrl net with
  | inr r => Some r
  | inl e =>
      match test with
      | JNull => None
      | _ =>
          Some {| res_id := prop test "id";
                  res_category := prop test "category";
                  res_description := prop test "description";
                  res_status := ERROR;
                  res_validations := None;
                  res_actual := None;
                  res_error := Some (formatError e);
                  res_expected := prop test "expected_response";
                  res_url := None |}
      end
  end.

(** [parseInt(s, 10)]; [None] is NaN. *)
Definition parseInt (s : string) : option Z :=
  let t := trimStart s in
  let '(neg, u) :=
    match t with
    | String c t' =>
        if Ascii.eqb c "-"%char then (true, t')
        else if Ascii.eqb c "+"%char then (false, t')
        else (false, t)
    | EmptyString => (false, t)
    end in
  match span is_digit u with
  | (EmptyString, _) => None
  | (d, _) =>
      let n := JsonReader.digits_value 0 d in
      Some (if neg then - n else n)
  end.

(** [parseInt(process.env.REQUEST_CONCURRENCY || '8', 10)]. *)
Definition defaultConcurrency (env : option string) : option Z :=
  match env with
  | Some s => if String.eqb s EmptyString then parseInt "8" else parseInt s
  | None => parseInt "8"
  end.

(** [concurrency && Number.isInteger(concurrency) ? concurrency :
    defaultConcurrency]. *)
Definition chosen_concurrency (concurrency : option json) (env : option string)
  : option Z :=
  match concurrency with
  | Some (JNum n) => if Z.eqb n 0 then defaultConcurrency env else Some n
  | _ => defaultConcurrency env
  end.

(** The results of [Promise.all], in the order of the tests; the reply
    to the probe of the test at index [i] is [net i]. *)
Fixpoint run_from (i : nat) (tests : list json) (baseUrl : string)
  (net : nat -> axios_config -> axios_reply) : option (list exec_result) :=
  match tests with
  | [] => Some []
  | t :: rest =>
      match executeTest t baseUrl (net i), run_from (S i) rest baseUrl net with
      | Some r, Some rs => Some (r :: rs)
      | _, _ => None
      end
  end.

Global Instance exec_status_eq_dec : EqDecision exec_status.
Proof. solve_decision. Defined.

Definition count_status (s : exec_status) (results : list exec_result) : nat :=
  length (filter (fun r => res_status r = s) results).

End Execution.

Section RunTests.

Import JsString Json Coerce Execution.

(** [new URL(s)] of the runtime: whether it accepts the text. *)
Variable URL_ok : string -> bool.

(** The value of [REQUEST_CONCURRENCY] in the environment. *)
Variable REQUEST_CONCURRENCY : option string.

(** The [/run-tests] route. The limiter refuses a concurrency that is
    not a positive integer by throwing, which the [catch] of the route
    turns into its error response. *)
Definition run_tests (testCases targetUrl baseUrl concurrency : option json)
  (net : nat -> axios_config -> axios_reply) : run_response :=
  match testCases with
  | Some (JArr (t :: ts)) =>
      let testTarget :=
        default (JStr "http://localhost:3000")
          (or_else targetUrl (if_truthy baseUrl)) in
      if negb (URL_ok (to_js_string testTarget)) then BadRequest "INVALID_URL"
      else
        match chosen_concurrency concurrency REQUEST_CONCURRENCY with
        | Some c =>
            if Z.ltb 0 c then
              match run_from 0 (t :: ts) (to_js_string testTarget) net with
              | Some results =>
                  Completed results
                    {| total := length results;
                       n_passed := count_status PASSED results;
                       n_failed := count_status FAILED results;
                       n_errors := count_status ERROR results |}
              | None => ExecutionError
              end
            else ExecutionError
        | None => ExecutionError
        end
  | _ => BadRequest "INVALID_TEST_CASES"
  end.

End RunTests.

(** ** The limiter of concurrent probes *)

(** Modelled from the spec: the limiter that [pLimit(c)] returns (the
    [p-limit] package is not among the sources). Both routes hand every
    test to it at once, [testCases.map(tc => limit(...))]; it keeps the
    tests in a queue, starts the test at the head of the queue only
    while fewer than [c] probes are in flight, and a probe that
    completes frees its slot. A test is named by its index. *)
Module Limiter.

Record state : Type := {
  queued : list nat;
  in_flight : list nat;
  finished : list nat
}.

Inductive action : Type :=
| Start
| Finish (i : nat).

Definition initial (n : nat) : state :=
  {| queued := seq 0 n; in_flight := []; finished := [] |}.

Definition step (c : Z) (a : action) (s : state) : option state :=
  match a with
  | Start =>
      match queued s with
      | i :: q =>
          if Z.ltb (Z.of_nat (length (in_flight s))) c
          then Some {| queued := q; in_flight := in_flight s ++ [i];
                       finished := finished s |}
          else None
      | [] => None
      end
  | Finish i =>
      if bool_decide (i ∈ in_flight s)
      then Some {| queued := queued s;
                   in_flight := filter (fun j => j ≠ i) (in_flight s);
                   finished := finished s ++ [i] |}
      else None
  end.

(** A schedule is a sequence of actions; [run] is [None] when the
    limiter does not allow it. *)
Fixpoint run (c : Z) (schedule : list action) (s : state) : option state :=
  match schedule with
  | [] => Some s
  | a :: rest =>
      match step c a s with
      | Some s' => run c rest s'
      | None => None
      end
  end.

End Limiter.

(** ** The runtime of the examples *)

Module Runtime.

Import JsString JsonReader.

(** [Math.ceil(parseFloat(s) * 1000)] computed exactly on the decimal
    numeral at the start of [s] (sign, digits, fraction); the runtime
    computes on doubles, with the same result for a whole number of
    seconds. *)
Definition ceil_millis_exact (s : string) : option Z :=
  let t := trimStart s in
  let '(neg, u) :=
    match t with
    | String c t' =>
        if Ascii.eqb c "-"%char then (true, t')
        else if Ascii.eqb c "+"%char then (false, t')
        else (false, t)
    | EmptyString => (false, t)
    end in
  match span is_digit u with
  | (EmptyString, _) => None
  | (d, rest) =>
      let frac :=
        match rest with
        | String c r => if Ascii.eqb c "."%char then fst (span is_digit r) else EmptyString
        | EmptyString => EmptyString
        end in
      let den := 10 ^ Z.of_nat (String.length frac) in
      let num := digits_value 0 frac * 1000 in
      let whole := digits_value 0 d * 1000 in
      Some (if neg then - (whole + num / den) else whole + (num + den - 1) / den)
  end.

End Runtime.

(** ** Scenarios

    Concrete worlds, replies and requests, on which the properties below
    are tried. *)

Module Scenario.

Import JsString Json Coerce JsonReader Runtime Store.

Definition no_random : unit_interval := {| numer := 0; slack := 0 |}.

(** The model cannot be reached. *)
Definition model_down : world :=
  {| model := fun _ => Failure (plain_error "fetch failed");
     random := fun _ => no_random |}.

(** The key of the API is refused. *)
Definition key_refused : js_error := plain_error "API key not valid".

Definition model_refuses : world :=
  {| model := fun _ => Failure key_refused; random := fun _ => no_random |}.

(** The quota of the account is zero. *)
Definition quota_zero : js_error :=
  mk_error "[429 Too Many Requests] You exceeded your current quota"
    (Some (JObj [("error",
                  JObj [("message",
                         JStr "Quota exceeded for metric: generate_content_free_tier_requests, limit: 0")])]))
    None None None.

Definition model_without_quota : world :=
  {| model := fun _ => Failure quota_zero; random := fun _ => no_random |}.

(** The server asks to come back in 120 seconds, and in 2 seconds. *)
Definition retry_in (seconds : string) : js_error :=
  mk_error "[429 Too Many Requests] Resource exhausted"
    (Some (JObj [("retryDelay", JStr (seconds +:+ "s"))])) None None None.

Definition model_throttled (seconds : string) : world :=
  {| model := fun _ => Failure (retry_in seconds); random := fun _ => no_random |}.

(** A reply with four cases that carry labels of the model's own. *)
Definition own_case (id category : string) : json :=
  JObj [("id", JStr id); ("category", JStr category);
        ("description", JStr "from the model");
        ("request", JObj [("method", JStr "GET"); ("endpoint", JStr "/x")]);
        ("expected_response", JObj [("status", JNum 200)])].

Definition four_cases : string :=
  stringify (JArr [own_case "login-1" "security"; own_case "TC_002" "valid";
                   own_case "TC_003" "valid"; own_case "TC_004" "invalid"]).

Definition model_four : world :=
  {| model := fun _ => Reply four_cases; random := fun _ => no_random |}.

(** A reply of four cases labelled as the prompt asks. *)
Definition four_labelled : string :=
  stringify (JArr [own_case "TC_001" "valid"; own_case "TC_002" "valid";
                   own_case "TC_003" "valid"; own_case "TC_004" "invalid"]).

Definition model_four_labelled : world :=
  {| model := fun _ => Reply four_labelled; random := fun _ => no_random |}.




(** A request for POST /users that expects the status 200. *)
Definition users_body : json :=
  JObj [("name", JStr "John"); ("email", JStr "john@example.com")].

Definition users_spec (endpoint method : string) : json :=
  JObj [("endpoint", JStr endpoint); ("method", JStr method);
        ("headers", JObj [("Content-Type", JStr "application/json")]);
        ("body", users_body);
        ("expected_response", JObj [("status", JNum 200)])].

Definition users_validated : validated :=
  {| endpoint := "/users"; method := "POST";
     headers := JObj [("Content-Type", JStr "application/json")];
     body := users_body;
     expected_response := JObj [("status", JNum 200)] |}.

Definition payload (r : response) : json :=
  match r with Respond _ p => p end.

(** The case at index [i] of the payload of a response, and the fields
    of a case. *)
Definition case_at (p : json) (i : nat) : option json :=
  match prop p "testCases" with
  | Some (JArr l) => l !! i
  | _ => None
  end.

Definition field2 (c : option json) (k1 k2 : string) : option json :=
  match c with
  | Some j => match prop j k1 with Some x => prop x k2 | None => None end
  | None => None
  end.

Definition field1 (c : option json) (k : string) : option json :=
  match c with
  | Some j => prop j k
  | None => None
  end.

(** The first request, at time 0, stored at time 5, with the model
    down. *)
Definition users_run (w : world) : response * cache * list event :=
  generate_tests parse_json ceil_millis_exact (Some (users_spec "/users" "POST"))
    0 5 w ∅.

(** What a returned batch holds. *)
Definition cases_of (o : outcome) : list value :=
  match o with Returned tcs _ => tcs | Thrown _ => [] end.

Definition heap_of (o : outcome) : heap :=
  match o with Returned _ h => h | Thrown _ => [] end.

Definition heap_after {A : Type} (r : option (A * heap)) : heap :=
  match r with Some (_, h) => h | None => [] end.

(** Probes: a server that answers 200, and a network that is down. *)
Definition answers_ok : axios_config -> axios_reply :=
  fun _ => Resolved {| resp_status := 200; resp_statusText := "OK";
                       resp_data := JObj [("success", JBool true)] |}.

Definition refused : axios_config -> axios_reply :=
  fun _ => Rejected {| err_code := Some "ECONNREFUSED"; err_response := None;
                       err_message := "connect ECONNREFUSED" |}.

Definition probe_case (status : Z) : json :=
  JObj [("id", JStr "TC_001"); ("category", JStr "valid");
        ("request", JObj [("method", JStr "GET"); ("endpoint", JStr "/users")]);
        ("expected_response", JObj [("status", JNum status)])].

Definition three_probes : list json := [probe_case 200; probe_case 404; probe_case 200].

(** The second probe meets a network that is down. *)
Definition second_refused (i : nat) : axios_config -> axios_reply :=
  if Nat.eqb i 1 then refused else answers_ok.

Definition any_url : string -> bool := fun _ => true.

Definition results_of (r : run_response) : list exec_result :=
  match r with Completed rs _ => rs | _ => [] end.

Definition summary_of (r : run_response) : run_summary :=
  match r with
  | Completed _ s => s
  | _ => {| total := 0; n_passed := 0; n_failed := 0; n_errors := 0 |}
  end.

(** The three probes with at most two at a time, the second refused. *)
Definition probes_run (net : nat -> axios_config -> axios_reply) : run_response :=
  run_tests any_url None (Some (JArr three_probes)) None None (Some (JNum 2)) net.

(** The generation for each world, from an empty store. *)
Definition generation (w : world) : outcome * list event :=
  generateWithRetry parse_json ceil_millis_exact 3 w [].

(** The batch of a world patched for POST /users, with the body
    [spec_body]. *)
Definition patched_heap (w : world) (spec_body : value) : heap :=
  heap_after
    (patch_all "POST" "/users" VNull spec_body (cases_of (fst (generation w)))
       (heap_of (fst (generation w)))).

End Scenario.


(** ** The patterns of the input checks

    The checks of [containsXSS], [containsSQLInjection] and of the route
    [/users/:id] only ask whether a regular expression matches somewhere
    in a text ([pattern.test(input)]), so that the expressions are kept
    as syntax and given to one matcher. *)

Module Rx.

Import JsString.

Inductive re : Type :=
| Eps
| Class (p : ascii -> bool)   (* one character of a class; a literal is a class of one *)
| Cat (a b : re)
| Alt (a b : re)
| Many (a : re)               (* [a*] and [a*?]: a test does not tell them apart *)
| WordB                       (* [\b] *)
| Bol                         (* [^] *)
| Eol.                        (* [$] *)

(** [\w], [\d], the dot (any character but a line terminator) and
    [[\s\S]]; [\s] is [is_space]. *)
Definition is_word (c : ascii) : bool :=
  is_upper c || is_lower c || is_digit c || Ascii.eqb c "_"%char.

Definition is_dot (c : ascii) : bool :=
  negb (Nat.eqb (code c) 10 || Nat.eqb (code c) 13).

Definition is_any (c : ascii) : bool := true.

(** [[0-9a-f]] under the flag [i]. *)
Definition is_hex_i (c : ascii) : bool :=
  is_digit c || (Nat.leb 97 (code (lower_ascii c)) && Nat.leb (code (lower_ascii c)) 102).

(** [[a-zA-Z0-9_-]]. *)
Definition is_id_char (c : ascii) : bool := is_word c || Ascii.eqb c "-"%char.

Definition chr (c : ascii) : re := Class (Ascii.eqb c).

(** A letter under the flag [i]: the letters of the patterns are ASCII,
    which only their own two cases match. [c] is given in lower case. *)
Definition chr_i (c : ascii) : re := Class (fun x => Ascii.eqb c (lower_ascii x)).

Fixpoint seq_of (l : list re) : re :=
  match l with
  | [] => Eps
  | [a] => a
  | a :: l' => Cat a (seq_of l')
  end.

Fixpoint text (s : string) : re :=
  match s with
  | EmptyString => Eps
  | String c EmptyString => chr c
  | String c s' => Cat (chr c) (text s')
  end.

(** A text under the flag [i], given in lower case. *)
Fixpoint text_i (s : string) : re :=
  match s with
  | EmptyString => Eps
  | String c EmptyString => chr_i c
  | String c s' => Cat (chr_i c) (text_i s')
  end.

Fixpoint any_of (l : list re) : re :=
  match l with
  | [] => Class (fun _ => false)
  | [a] => a
  | a :: l' => Alt a (any_of l')
  end.

Definition some (a : re) : re := Cat a (Many a).      (* [a+] *)
Definition maybe (a : re) : re := Alt a Eps.           (* [a?] *)

Definition word_at (s : string) : bool :=
  match s with
  | String c _ => is_word c
  | EmptyString => false
  end.

Definition word_before (prev : option ascii) : bool :=
  match prev with
  | Some c => is_word c
  | None => false
  end.

(** [matches a prev s k]: [a] matches a prefix of [s], behind the
    character [prev], such that [k] accepts the last character matched
    and the rest. An iteration of [Many] that matches the empty text is
    not repeated, as in the runtime. *)
Fixpoint matches (a : re) (prev : option ascii) (s : string)
  (k : option ascii -> string -> bool) {struct a} : bool :=
  match a with
  | Eps => k prev s
  | Class p =>
      match s with
      | String c s' => p c && k (Some c) s'
      | EmptyString => false
      end
  | Cat a1 a2 => matches a1 prev s (fun prev' s' => matches a2 prev' s' k)
  | Alt a1 a2 => matches a1 prev s k || matches a2 prev s k
  | Many a1 =>
      (fix loop (fuel : nat) (prev : option ascii) (s : string) {struct fuel} : bool :=
         k prev s
         || match fuel with
            | O => false
            | S fuel' =>
                matches a1 prev s
                  (fun prev' s' =>
                     Nat.ltb (String.length s') (String.length s) && loop fuel' prev' s')
            end) (String.length s) prev s
  | WordB => xorb (word_before prev) (word_at s) && k prev s
  | Bol => match prev with None => k prev s | Some _ => false end
  | Eol => match s with EmptyString => k prev s | String _ _ => false end
  end.

(** [search a prev s]: [a] matches at some position of [s]. *)
Fixpoint search (a : re) (prev : option ascii) (s : string) : bool :=
  matches a prev s (fun _ _ => true)
  || match s with
     | String c s' => search a (Some c) s'
     | EmptyString => false
     end.

(** [pattern.test(input)]. *)
Definition test (a : re) (input : string) : bool := search a None input.

End Rx.

(** ** The checks of the input of the mock routes *)

Module Checks.

Import JsString Json Coerce Rx.

Definition space : re := Class is_space.
Definition word : re := Class is_word.
Definition digit : re := Class is_digit.
Definition dots : re := Many (Class is_dot).        (* [.*?] *)
Definition anything : re := Many (Class is_any).    (* [[\s\S]*?] *)

Definition xssPatterns : list re :=
  [ seq_of [text_i "<script"; anything; chr ">"];
    seq_of [text_i "<iframe"; anything; chr ">"];
    seq_of [text_i "<object"; anything; chr ">"];
    seq_of [text_i "<embed"; anything; chr ">"];
    text_i "javascript:";
    seq_of [text_i "on"; some word; Many space; chr "="];
    seq_of [text_i "<img"; anything; text_i "onerror"];
    seq_of [text_i "<svg"; anything; text_i "onload"];
    seq_of [text_i "<body"; anything; text_i "onload"];
    text_i "eval(";
    text_i "expression(";
    text_i "vbscript:";
    text_i "data:text/html" ].

Definition sqlPatterns : list re :=
  [ seq_of [any_of [seq_of [WordB; text_i "or"; WordB];
                    seq_of [WordB; text_i "and"; WordB]];
            dots; chr "="; dots];
    seq_of [chr "'"; Many space; any_of [text_i "or"; text_i "and"]; Many space;
            maybe (chr "'"); Many digit; maybe (chr "'"); Many space; chr "=";
            Many space; maybe (chr "'"); digit];
    text "--";
    seq_of [chr ";"; dots;
            any_of [text_i "drop"; text_i "delete"; text_i "insert"; text_i "update";
                    text_i "create"; text_i "alter"]];
    seq_of [text_i "union"; dots; text_i "select"];
    seq_of [text "/*"; dots; text "*/"];
    text_i "xp_cmdshell";
    seq_of [text_i "exec"; Many space; chr "("];
    seq_of [text_i "execute"; Many space; chr "("];
    seq_of [chr "'"; Many space; chr ";"; Many space];
    seq_of [text_i "0x"; some (Class is_hex_i)];
    seq_of [text_i "char"; Many space; chr "("];
    seq_of [text_i "concat"; Many space; chr "("];
    text_i "load_file";
    seq_of [text_i "into"; some space; text_i "outfile"];
    seq_of [text_i "waitfor"; some space; text_i "delay"];
    seq_of [text_i "benchmark"; Many space; chr "("] ].

(** The three checks are called on strings: [sanitizeString] has
    refused every other input before. *)
Definition containsXSS (input : string) : bool :=
  negb (String.eqb input EmptyString) && existsb (fun p => test p input) xssPatterns.

Definition containsSQLInjection (input : string) : bool :=
  negb (String.eqb input EmptyString) && existsb (fun p => test p input) sqlPatterns.

(** What a check throws: a [ValidationError] with its message and its
    field, or a [TypeError] of the runtime. *)
Inductive thrown : Type :=
| ValidationError (message field : string)
| TypeError.

Definition maxLength_default : nat := 100.

Definition sanitizeString (input : option json) (maxLength : nat) : thrown + string :=
  match input with
  | Some (JStr s) =>
      if String.eqb s EmptyString then inl (ValidationError "Invalid input type" "input")
      else
        let trimmed := trim s in
        if Nat.eqb (String.length trimmed) 0
        then inl (ValidationError "Input cannot be empty" "input")
        else if Nat.ltb maxLength (String.length trimmed)
        then inl (ValidationError
                    ("Input too long (max " +:+ of_nat maxLength +:+ " characters)")
                    "input")
        else if containsXSS trimmed
        then inl (ValidationError "Invalid characters detected (XSS)" "input")
        else if containsSQLInjection trimmed
        then inl (ValidationError "Invalid characters detected (SQL)" "input")
        else if containsPathTraversal trimmed
        then inl (ValidationError "Invalid characters detected (Path)" "input")
        else inr trimmed
  | _ => inl (ValidationError "Invalid input type" "input")
  end.

End Checks.

(** ** The mock routes [/users] *)

Section MockApi.

Import JsString Json Coerce Rx Checks.

(** [validator.isEmail] of the [validator] package. *)
Variable isEmail : string -> bool.

(** [trimmed.split('@')]: [parts[0]] and, when the text holds an [@],
    [parts[1]]. *)
Definition parts_at (trimmed : string) : string * option string :=
  match split_first "@" trimmed with
  | Some (first, rest) =>
      (first,
       Some match split_first "@" rest with
            | Some (second, _) => second
            | None => rest
            end)
  | None => (trimmed, None)
  end.

Definition validateEmail (email : option json) : thrown + string :=
  match email with
  | Some (JStr s) =>
      if String.eqb s EmptyString then inl (ValidationError "Email is required" "email")
      else
        let trimmed := trim s in
        if negb (isEmail trimmed)
        then inl (ValidationError "Invalid email format" "email")
        else
          let '(first, second) := parts_at trimmed in
          if Nat.eqb (String.length first) 0
          then inl (ValidationError "Invalid email format" "email")
          else
            match second with
            | None => inl TypeError
            | Some d =>
                if Nat.ltb (String.length d) 3
                then inl (ValidationError "Invalid email format" "email")
                else if Nat.ltb 254 (String.length trimmed)
                then inl (ValidationError "Email too long" "email")
                else inr trimmed
            end
  | _ => inl (ValidationError "Email is required" "email")
  end.

(** The answer to an input that a check refused; the message of a
    [TypeError] of the runtime is written [TypeError], and it has no
    field. *)
Definition refusal (err : thrown) (code : string) : response :=
  Respond 400
    (JObj (("success", JBool false)
           :: match err with
              | ValidationError message field =>
                  [("error", JStr message); ("field", JStr field)]
              | TypeError => [("error", JStr "TypeError")]
              end
           ++ [("code", JStr code)])).

(** [POST /users]; [id] is the identifier drawn for the new user and
    [created_at] the time of the clock, as the route writes them. *)
Definition post_users (body : option json) (id created_at : string) : response :=
  match body with
  | Some (JObj _ as b) | Some (JArr _ as b) =>
      match sanitizeString (prop b "name") 100 with
      | inl err => refusal err "INVALID_NAME"
      | inr sanitizedName =>
          match validateEmail (prop b "email") with
          | inl err => refusal err "INVALID_EMAIL"
          | inr sanitizedEmail =>
              Respond 201
                (JObj [("success", JBool true);
                       ("data",
                         JObj [("id", JStr id); ("name", JStr sanitizedName);
                               ("email", JStr sanitizedEmail);
                               ("created_at", JStr created_at)])])
          end
      end
  | _ =>
      Respond 400
        (JObj [("success", JBool false); ("error", JStr "Request body is required");
               ("code", JStr "INVALID_BODY")])
  end.

(** [/^[a-zA-Z0-9_-]+$/]. *)
Definition user_id_pattern : re := seq_of [Bol; some (Class is_id_char); Eol].

(** [GET /users/:id]. *)
Definition get_user (id : string) : response :=
  if negb (test user_id_pattern id) then
    Respond 400
      (JObj [("success", JBool false); ("error", JStr "Invalid user ID format");
             ("code", JStr "INVALID_ID")])
  else if String.eqb id "1" then
    Respond 200
      (JObj [("success", JBool true);
             ("data", JObj [("id", JStr "1"); ("name", JStr "John Doe");
                            ("email", JStr "john@example.com")])])
  else
    Respond 404
      (JObj [("success", JBool false); ("error", JStr "User not found");
             ("code", JStr "NOT_FOUND")]).

End MockApi.

(** ** The route [/run-tests-stream] *)

(** What the route writes on the stream: the result of a test, the
    closing summary, or the error that its [catch] reports. *)
Inductive sse_event : Type :=
| TestResult (r : exec_result)
| Done (total passed failed : nat)
| StreamError.

Inductive stream_response : Type :=
| StreamRefused (error : string)
| Streamed (events : list sse_event)
| StreamBroken.

Section RunTestsStream.

Import JsString Json Coerce Execution.

Variable URL_ok : string -> bool.
Variable REQUEST_CONCURRENCY : option string.

(** The route. [order] is the order in which the probes complete, by
    index of their test: a result is written when its probe completes.
    When the limiter refuses the concurrency, the [catch] writes an
    error event and nothing else. When the promise of a test is
    rejected, the stream is broken off with an error event; which
    results were written before depends on the timing and is left
    out. *)
Definition run_tests_stream (testCases targetUrl concurrency : option json)
  (net : nat -> axios_config -> axios_reply) (order : list nat) : stream_response :=
  match testCases with
  | Some (JArr (t :: ts)) =>
      let testTarget := default (JStr "http://localhost:3000") (if_truthy targetUrl) in
      if negb (URL_ok (to_js_string testTarget)) then StreamRefused "Invalid target URL"
      else
        match chosen_concurrency concurrency REQUEST_CONCURRENCY with
        | Some c =>
            if Z.ltb 0 c then
              match run_from 0 (t :: ts) (to_js_string testTarget) net with
              | Some results =>
                  Streamed
                    (List.map TestResult (omap (fun i => results !! i) order)
                     ++ [Done (length results) (count_status PASSED results)
                           (count_status FAILED results)])
              | None => StreamBroken
              end
            else Streamed [StreamError]
        | None => Streamed [StreamError]
        end
  | _ => StreamRefused "Test cases required"
  end.

End RunTestsStream.

(** ** More examples *)

Module Samples.

Import JsString Json Coerce JsonReader Runtime Store Execution Scenario.

(** A stand-in for [validator.isEmail] in the examples: the text holds
    an [@]. *)
Definition has_at (s : string) : bool := includes s "@".

Definition no_result : exec_result :=
  {| res_id := None; res_category := None; res_description := None;
     res_status := ERROR; res_validations := None; res_actual := None;
     res_error := None; res_expected := None; res_url := None |}.

Definition result_of (o : option exec_result) : exec_result := default no_result o.

(** The probe of a case against the local server. *)
Definition probed (test : json) (net : axios_config -> axios_reply) : option exec_result :=
  executeTest test "http://localhost:3000" net.

(** A case whose request has no endpoint. *)
Definition aimless_case : json :=
  JObj [("id", JStr "TC_001"); ("request", JObj [("method", JStr "GET")]);
        ("expected_response", JObj [("status", JNum 200)])].

(** The store in which the route generates for POST /users, and the
    generation and storing of its answer at time 5. *)
Definition users_store : heap :=
  snd (alloc (body users_validated) (snd (alloc (headers users_validated) []))).

Definition store_run (w : world) : response * cache * list event :=
  generate_and_store parse_json ceil_millis_exact users_validated 5 w ∅.

(** The batch made from the reply of four labelled cases. *)
Definition reply_batch : js_error + (list value * heap) :=
  on_reply parse_json four_labelled [].

Definition batch_cases (r : js_error + (list value * heap)) : list value :=
  match r with inr (tcs, _) => tcs | inl _ => [] end.

Definition batch_heap (r : js_error + (list value * heap)) : heap :=
  match r with inr (_, h) => h | inl _ => [] end.

(** The stream of the three probes, the second refused. *)
Definition stream_run (order : list nat) : stream_response :=
  run_tests_stream any_url None (Some (JArr three_probes)) None (Some (JNum 2))
    second_refused order.

Definition events_of (r : stream_response) : list sse_event :=
  match r with Streamed events => events | _ => [] end.

Definition new_user : json :=
  JObj [("name", JStr " Ann "); ("email", JStr " ann@example.com ")].

End Samples.

(** * Properties *)

(** ** Facts about strings *)

Module JsStringFacts.

Import JsString.

(** [s] occurs in [t]. *)
Definition occurs_in (s t : string) : Prop :=
  exists a b, t = a +:+ s +:+ b.

Lemma app_cons (c : ascii) (a b : string) : String c a +:+ b = String c (a +:+ b).
Proof. reflexivity. Qed.

Lemma app_nil_l (a : string) : EmptyString +:+ a = a.
Proof. reflexivity. Qed.

Lemma app_assoc (a b c : string) : (a +:+ b) +:+ c = a +:+ (b +:+ c).
Proof.
  induction a as [|x a IH]; [reflexivity|].
  rewrite !app_cons. now rewrite IH.
Qed.

Lemma app_nil_r (a : string) : a +:+ EmptyString = a.
Proof.
  induction a as [|x a IH]; [reflexivity|].
  rewrite app_cons. now rewrite IH.
Qed.

Lemma length_app (a b : string) :
  String.length (a +:+ b) = (String.length a + String.length b)%nat.
Proof.
  induction a as [|x a IH]; [reflexivity|].
  rewrite app_cons. simpl. now rewrite IH.
Qed.






Lemma occurs_middle (a s b : string) : occurs_in s (a +:+ s +:+ b).
Proof. now exists a, b. Qed.

Lemma after_prefix_app (p s r : string) : after_prefix p s = Some r -> s = p +:+ r.
Proof.
  revert s; induction p as [|a p IH]; intros s H; simpl in *.
  - now inversion H.
  - destruct s as [|b s]; [discriminate|].
    destruct (Ascii.eqb_spec a b) as [->|]; [|discriminate].
    now rewrite (IH _ H).
Qed.




Lemma after_prefix_this (p r : string) : after_prefix p (p +:+ r) = Some r.
Proof.
  induction p as [|a p IH]; simpl; [reflexivity|].
  now rewrite Ascii.eqb_refl.
Qed.


Lemma split_first_app (p s a b : string) :
  split_first p s = Some (a, b) -> s = a +:+ p +:+ b.
Proof.
  revert a b; induction s as [|c s IH]; intros a b H.
  - simpl in H. destruct (after_prefix p EmptyString) eqn:E; [|discriminate].
    inversion H; subst. now apply after_prefix_app in E.
  - simpl in H. destruct (after_prefix p (String c s)) eqn:E.
    + inversion H; subst. now apply after_prefix_app in E.
    + destruct (split_first p s) as [[pre rest]|] eqn:F; [|discriminate].
      inversion H; subst. rewrite app_cons. now rewrite <- (IH _ _ eq_refl).
Qed.













End JsStringFacts.

(** ** The JSON extractor *)

Section ExtractorFacts.

Import JsString Json Coerce Regex JsStringFacts.

Variable JSON_parse : string -> option json.

Local Abbreviation extract := (extractArrayFromText JSON_parse).


Lemma extract_empty : extract EmptyString = None.
Proof. reflexivity. Qed.

Lemma strategies_empty :
  strategy_fenced JSON_parse EmptyString = None
  /\ strategy_brackets JSON_parse EmptyString = None
  /\ strategy_testCases JSON_parse EmptyString = None.
Proof. repeat split. Qed.








































End ExtractorFacts.

(** ** The store *)

Module StoreFacts.

Import JsString Json Store.

(** Allocation only appends: what an older reference reads is kept. *)
Lemma read_app (h ext : heap) (l : loc) (k : string) :
  (l < length h)%nat -> read (h ++ ext) (VRef l) k = read h (VRef l) k.
Proof. intros H. unfold read. now rewrite lookup_app_l. Qed.

Lemma read_prefix (h h' : heap) (l : loc) (k : string) :
  h `prefix_of` h' -> (l < length h)%nat -> read h' (VRef l) k = read h (VRef l) k.
Proof. intros [ext ->]. apply read_app. Qed.

Lemma read_new (h : heap) (c : cell) (k : string) :
  read (h ++ [c]) (VRef (length h)) k = default VUndef (assoc k (props_of c)).
Proof.
  unfold read. rewrite lookup_app_r by lia.
  now replace (length h - length h)%nat with O by lia.
Qed.

Lemma fresh_spec (c : cell) (h : heap) :
  fresh c h = (VRef (length h), h ++ [c]).
Proof. reflexivity. Qed.

Lemma prefix_snoc (h : heap) (c : cell) : h `prefix_of` h ++ [c].
Proof. now exists [c]. Qed.

Lemma prefix_length_lt (h h' : heap) (c : cell) :
  h ++ [c] `prefix_of` h' -> (length h < length h')%nat.
Proof. intros H. apply prefix_length in H. rewrite length_app in H. simpl in H. lia. Qed.

End StoreFacts.

(** ** The retry loop *)

Section RetryFacts.

Import JsString Json Coerce Store StoreFacts.

Variable JSON_parse : string -> option json.
Variable ceil_millis : string -> option Z.


(** The case at position [i] (from 0) carries the identifier and the
    category of the position [i + 1]. *)
Definition labelled (h : heap) (i : nat) (tc : value) : Prop :=
  read h tc "id" = VStr (test_id (S i))
  /\ read h tc "category" = VStr (band (S i)).

(** Every case from position [k] on is labelled by its position. *)
Definition labelled_from (k : nat) (h : heap) (tcs : list value) : Prop :=
  forall i tc, (k <= i)%nat -> tcs !! i = Some tc -> labelled h i tc.

Lemma labelled_prefix (h h' : heap) (i : nat) (l : loc) :
  h `prefix_of` h' -> (l < length h)%nat ->
  labelled h i (VRef l) -> labelled h' i (VRef l).
Proof.
  intros Hp Hl [H1 H2]. split; rewrite (read_prefix h h') by assumption; assumption.
Qed.

Lemma fallback_case_spec (i : nat) (h : heap) :
  exists l h', fallback_case i h = (VRef l, h')
    /\ h `prefix_of` h' /\ (l < length h')%nat
    /\ read h' (VRef l) "id" = VStr (test_id i)
    /\ read h' (VRef l) "category" = VStr (band i).
Proof.
  unfold fallback_case. rewrite !fresh_spec.
  eexists _, _. split; [reflexivity|].
  split; [|split; [|split]].
  - repeat (etrans; [|apply prefix_snoc]). reflexivity.
  - rewrite !length_app. simpl. lia.
  - now rewrite read_new.
  - now rewrite read_new.
Qed.

Lemma fallback_from_spec (indices : list nat) (h : heap) :
  exists tcs h', fallback_from indices h = (tcs, h')
    /\ h `prefix_of` h' /\ length tcs = length indices
    /\ forall j i tc, indices !! j = Some i -> tcs !! j = Some tc ->
         read h' tc "id" = VStr (test_id i)
         /\ read h' tc "category" = VStr (band i).
Proof.
  revert h; induction indices as [|i rest IH]; intros h.
  - exists [], h. split; [reflexivity|]. split; [reflexivity|]. split; [reflexivity|].
    intros j i tc Hj. now rewrite lookup_nil in Hj.
  - cbn [fallback_from].
    destruct (fallback_case_spec i h) as (l & h1 & E & P1 & L & Hid & Hcat).
    rewrite E. destruct (IH h1) as (tcs & h2 & E2 & P2 & Len & Hall). rewrite E2.
    exists (VRef l :: tcs), h2. split; [reflexivity|].
    split; [etrans; eassumption|]. split; [simpl; now rewrite Len|].
    intros [|j] i' tc Hi Htc; simpl in *.
    + inversion Hi; inversion Htc; subst.
      rewrite !(read_prefix h1 h2) by assumption. now split.
    + eapply Hall; eassumption.
Qed.

Lemma generateFallbackTestCases_spec (h : heap) :
  exists tcs h', generateFallbackTestCases h = (tcs, h')
    /\ length tcs = 12%nat /\ labelled_from 0 h' tcs.
Proof.
  unfold generateFallbackTestCases.
  destruct (fallback_from_spec (seq 1 12) h) as (tcs & h' & E & _ & Len & Hall).
  exists tcs, h'. split; [exact E|]. split; [exact Len|].
  intros i tc _ Htc.
  assert (i < 12)%nat as Hi.
  { apply lookup_lt_Some in Htc. now rewrite Len in Htc. }
  destruct (Hall i (S i) tc) as [H1 H2]; [|exact Htc|now split].
  apply lookup_seq. split; [reflexivity | exact Hi].
Qed.

Lemma fallback_spec (h : heap) :
  exists tcs h', fallback h = Returned tcs h'
    /\ length tcs = 12%nat /\ labelled_from 0 h' tcs.
Proof.
  unfold fallback.
  destruct (generateFallbackTestCases_spec h) as (tcs & h' & E & H).
  rewrite E. exists tcs, h'. split; [reflexivity | exact H].
Qed.

Lemma filler_spec (idx : nat) (first : value) (h : heap) :
  exists l h', filler idx first h = (VRef l, h')
    /\ h `prefix_of` h' /\ (l < length h')%nat
    /\ read h' (VRef l) "id" = VStr (test_id idx)
    /\ read h' (VRef l) "category" = VStr (band idx).
Proof.
  unfold filler.
  destruct (truthy (read h first "request")); rewrite !fresh_spec;
    (eexists _, _; split; [reflexivity|]; split; [|split; [|split]];
     [repeat (etrans; [|apply prefix_snoc]); reflexivity
     |rewrite !length_app; simpl; lia
     |now rewrite read_new
     |now rewrite read_new]).
Qed.

Lemma fill_spec (fuel : nat) (vs : list value) (h : heap) :
  exists extra h', fill fuel vs h = (vs ++ extra, h')
    /\ h `prefix_of` h'
    /\ ((12 <= length vs + fuel)%nat -> (12 <= length (vs ++ extra))%nat)
    /\ forall i tc, (length vs <= i)%nat -> (vs ++ extra) !! i = Some tc ->
         labelled h' i tc.
Proof.
  revert vs h; induction fuel as [|fuel IH]; intros vs h.
  - exists [], h. rewrite app_nil_r. split; [reflexivity|]. split; [reflexivity|].
    split; [lia|]. intros i tc Hi Htc. apply lookup_lt_Some in Htc. lia.
  - cbn [fill]. destruct (Nat.ltb_spec (length vs) 12) as [Hlt|Hge].
    + destruct (filler_spec (length vs + 1) (default VUndef (head vs)) h)
        as (l & h1 & E & P1 & L & Hid & Hcat).
      rewrite E.
      destruct (IH (vs ++ [VRef l]) h1) as (extra & h2 & E2 & P2 & Len & Hall).
      exists (VRef l :: extra), h2.
      replace (vs ++ VRef l :: extra) with ((vs ++ [VRef l]) ++ extra)
        by (now rewrite <- app_assoc).
      split; [exact E2|]. split; [etrans; eassumption|].
      split; [intros; apply Len; rewrite length_app; simpl; lia|].
      intros i tc Hi Htc.
      destruct (decide (i = length vs)) as [->|Hne].
      * rewrite lookup_app_l in Htc by (rewrite length_app; simpl; lia).
        rewrite lookup_app_r in Htc by lia.
        replace (length vs - length vs)%nat with O in Htc by lia.
        inversion Htc; subst tc.
        apply (labelled_prefix h1 h2); [assumption | assumption |].
        replace (length vs + 1)%nat with (S (length vs)) in * by lia. now split.
      * apply Hall; [rewrite length_app; simpl; lia | exact Htc].
    + exists [], h. rewrite app_nil_r. split; [reflexivity|]. split; [reflexivity|].
      split; [lia|]. intros i tc Hi Htc. apply lookup_lt_Some in Htc. lia.
Qed.

Lemma alloc_list_length (l : list json) (h : heap) :
  length (fst (alloc_list l h)) = length l.
Proof.
  revert h; induction l as [|x l IH]; intros h; [reflexivity|].
  cbn [alloc_list]. destruct (alloc x h) as [v h1].
  specialize (IH h1). destruct (alloc_list l h1) as [vs h2]. simpl in *. now rewrite IH.
Qed.

(** A batch made from a reply has twelve cases; behind the cases
    recovered from the reply, every case is labelled by its position. *)
Lemma on_reply_spec (text : string) (h : heap) (tcs : list value) (h' : heap) :
  on_reply JSON_parse text h = inr (tcs, h') ->
  length tcs = 12%nat
  /\ exists l, recovered JSON_parse text = Some l /\ (4 <= length l)%nat
       /\ labelled_from (Nat.min (length l) 12) h' tcs.
Proof.
  unfold on_reply. intros H.
  destruct (recovered JSON_parse text) as [l|]; [|discriminate].
  destruct (Nat.ltb_spec (length l) 4) as [|Hlen]; [discriminate|].
  pose proof (alloc_list_length l h) as Hvs.
  destruct (alloc_list l h) as [vs h1]. simpl in Hvs.
  destruct (fill_spec 12 vs h1) as (extra & h2 & E & _ & Len & Hall).
  rewrite E in H. inversion H; subst tcs h'. clear H.
  specialize (Len ltac:(lia)).
  split; [rewrite length_take; lia|].
  exists l. split; [reflexivity|]. split; [exact Hlen|].
  intros i tc Hi Htc.
  assert (i < 12)%nat as Hi12.
  { apply lookup_lt_Some in Htc. rewrite length_take in Htc. lia. }
  rewrite lookup_take_lt in Htc by exact Hi12.
  apply Hall; [lia | exact Htc].
Qed.

End RetryFacts.

Section RetryLoop.

Import JsString Json Coerce Store StoreFacts.

Variable JSON_parse : string -> option json.
Variable ceil_millis : string -> option Z.

Local Opaque fallback.

Lemma attempts_unfold (remaining attempt maxRetries : nat) (w : world) (h : heap) :
  attempts JSON_parse ceil_millis (S remaining) attempt maxRetries w h
  = match tried JSON_parse w attempt h with
    | inr (tcs, h') => (Returned tcs h', [Invoke attempt])
    | inl e =>
        match react ceil_millis attempt maxRetries e (random w attempt) with
        | FallbackNow => (fallback h, [Invoke attempt])
        | Rethrow => (Thrown e, [Invoke attempt])
        | WaitThenNext ms =>
            let '(o, t) :=
              attempts JSON_parse ceil_millis remaining (S attempt) maxRetries w h in
            (o, Invoke attempt :: Sleep ms :: t)
        | Next =>
            let '(o, t) :=
              attempts JSON_parse ceil_millis remaining (S attempt) maxRetries w h in
            (o, Invoke attempt :: t)
        end
    end.
Proof. reflexivity. Qed.

(** What a returned batch is made of: the first [k] cases come from a
    reply of the model, or [k = 0] and the batch is the fallback. *)
Definition batch_shape (w : world) (h' : heap) (tcs : list value) : Prop :=
  length tcs = 12%nat
  /\ exists k, labelled_from k h' tcs
       /\ (k = O
           \/ exists attempt text l,
                model w attempt = Reply text
                /\ recovered JSON_parse text = Some l
                /\ (4 <= length l)%nat /\ k = Nat.min (length l) 12).

Lemma attempts_batch (remaining attempt maxRetries : nat) (w : world) (h : heap)
  (tcs : list value) (h' : heap) (t : list event) :
  attempts JSON_parse ceil_millis remaining attempt maxRetries w h
  = (Returned tcs h', t) ->
  batch_shape w h' tcs.
Proof.
  revert attempt t; induction remaining as [|remaining IH]; intros attempt t H.
  - cbn [attempts] in H. destruct (fallback_spec h) as (tcs0 & h0 & E & Len & Hl).
    rewrite E in H. inversion H; subst. split; [exact Len|]. exists O. auto.
  - rewrite attempts_unfold in H. unfold tried in H.
    assert (forall t0, (fallback h, t0) = (Returned tcs h', t) -> batch_shape w h' tcs)
      as Hfb.
    { intros t0 F. destruct (fallback_spec h) as (tcs0 & h0 & E & Len & Hl).
      rewrite E in F. inversion F; subst. split; [exact Len|]. exists O. auto. }
    assert (forall f,
              (let '(o, t1) :=
                 attempts JSON_parse ceil_millis remaining (S attempt) maxRetries w h in
               (o, f t1)) = (Returned tcs h', t) -> batch_shape w h' tcs) as Hnext.
    { intros f F.
      destruct (attempts JSON_parse ceil_millis remaining (S attempt) maxRetries w h)
        as [o t1] eqn:E.
      inversion F; subst. eapply IH; exact E. }
    destruct (model w attempt) as [text|e] eqn:Em.
    + destruct (on_reply JSON_parse text h) as [e|[tcs1 h1]] eqn:Er.
      * destruct (react ceil_millis attempt maxRetries e (random w attempt));
          [eapply Hfb; exact H | discriminate
          | apply (Hnext (fun t1 => Invoke attempt :: Sleep ms :: t1)); exact H
          | apply (Hnext (fun t1 => Invoke attempt :: t1)); exact H].
      * inversion H; subst.
        destruct (on_reply_spec _ _ _ _ _ Er) as (Len & l & Hrec & Hl4 & Hlab).
        split; [exact Len|]. exists (Nat.min (length l) 12). split; [exact Hlab|].
        right. exists attempt, text, l. auto.
    + destruct (react ceil_millis attempt maxRetries e (random w attempt));
        [eapply Hfb; exact H | discriminate
        | apply (Hnext (fun t1 => Invoke attempt :: Sleep ms :: t1)); exact H
        | apply (Hnext (fun t1 => Invoke attempt :: t1)); exact H].
Qed.

(** *** Errors: what is thrown, and the fallback *)

Lemma insufficient_plain (n : nat) :
  (n < 4)%nat ->
  isQuota (insufficient n) = false /\ isAuth (insufficient n) = false.
Proof.
  intros H. destruct n as [|[|[|[|n]]]]; [split; vm_compute; reflexivity ..|lia].
Qed.

Lemma on_reply_error (text : string) (h : heap) (e : js_error) :
  on_reply JSON_parse text h = inl e -> isQuota e = false /\ isAuth e = false.
Proof.
  unfold on_reply. intros H.
  destruct (recovered JSON_parse text) as [l|].
  - destruct (Nat.ltb_spec (length l) 4) as [Hlt|].
    + inversion H; subst. apply insufficient_plain. exact Hlt.
    + destruct (alloc_list l h) as [vs h1]. destruct (fill 12 vs h1). discriminate.
  - inversion H; subst. apply insufficient_plain. lia.
Qed.

Lemma react_rethrow (attempt maxRetries : nat) (e : js_error) (r : unit_interval) :
  react ceil_millis attempt maxRetries e r = Rethrow <->
  isQuota e = false /\ isAuth e = true.
Proof.
  unfold react, USE_IMMEDIATE_FALLBACK_ON_QUOTA.
  destruct (isQuota e).
  - split; [|intros [? _]; discriminate].
    destruct (freeTierDisabled e); [discriminate|].
    destruct (retryDelayMs ceil_millis e) as [d|]; [|discriminate].
    destruct (negb (Z.eqb d 0) && Z.ltb 0 d); discriminate.
  - destruct (isAuth e); [tauto|].
    split; [|intros [_ ?]; discriminate].
    destruct (Nat.ltb attempt maxRetries); discriminate.
Qed.

Lemma tried_error (w : world) (attempt : nat) (h : heap) (e : js_error) :
  tried JSON_parse w attempt h = inl e ->
  model w attempt = Failure e \/ (isQuota e = false /\ isAuth e = false).
Proof.
  unfold tried. destruct (model w attempt) as [text|e'].
  - intros H. right. eapply on_reply_error; exact H.
  - intros H. inversion H. now left.
Qed.

Lemma attempts_thrown (remaining attempt maxRetries : nat) (w : world) (h : heap)
  (e : js_error) (t : list event) :
  attempts JSON_parse ceil_millis remaining attempt maxRetries w h = (Thrown e, t) ->
  exists k t0, model w k = Failure e /\ isQuota e = false /\ isAuth e = true
               /\ t = t0 ++ [Invoke k].
Proof.
  revert attempt t; induction remaining as [|remaining IH]; intros attempt t H.
  - cbn [attempts] in H. destruct (fallback_spec h) as (tcs0 & h0 & E & _).
    rewrite E in H. discriminate H.
  - rewrite attempts_unfold in H.
    destruct (tried JSON_parse w attempt h) as [e1|[tcs1 h1]] eqn:Et; [|discriminate].
    destruct (react ceil_millis attempt maxRetries e1 (random w attempt)) as [| |ms|] eqn:Er.
    + destruct (fallback_spec h) as (tcs0 & h0 & E & _). rewrite E in H. discriminate H.
    + inversion H; subst. apply react_rethrow in Er as [Hq Ha].
      destruct (tried_error _ _ _ _ Et) as [Hm|[_ Hna]]; [|congruence].
      exists attempt, []. auto.
    + destruct (attempts JSON_parse ceil_millis remaining (S attempt) maxRetries w h)
        as [o t1] eqn:E.
      inversion H; subst.
      destruct (IH _ _ E) as (k & t0 & Hm & Hq & Ha & ->).
      exists k, (Invoke attempt :: Sleep ms :: t0). auto.
    + destruct (attempts JSON_parse ceil_millis remaining (S attempt) maxRetries w h)
        as [o t1] eqn:E.
      inversion H; subst.
      destruct (IH _ _ E) as (k & t0 & Hm & Hq & Ha & ->).
      exists k, (Invoke attempt :: t0). auto.
Qed.

Lemma attempts_all_fail (remaining attempt maxRetries : nat) (w : world) (h : heap) :
  (forall k, exists e, model w k = Failure e /\ (isQuota e = true \/ isAuth e = false)) ->
  fst (attempts JSON_parse ceil_millis remaining attempt maxRetries w h) = fallback h.
Proof.
  intros Hall. revert attempt; induction remaining as [|remaining IH]; intros attempt.
  - reflexivity.
  - rewrite attempts_unfold. unfold tried.
    destruct (Hall attempt) as (e & Hm & Hc). rewrite Hm.
    specialize (IH (S attempt)).
    destruct (attempts JSON_parse ceil_millis remaining (S attempt) maxRetries w h)
      as [o t1].
    destruct (react ceil_millis attempt maxRetries e (random w attempt)) eqn:Er;
      try reflexivity; try exact IH.
    apply react_rethrow in Er as [Hq Ha]. destruct Hc; congruence.
Qed.

Lemma attempts_auth (remaining attempt maxRetries : nat) (w : world) (h : heap)
  (e : js_error) :
  model w attempt = Failure e -> isQuota e = false -> isAuth e = true ->
  attempts JSON_parse ceil_millis (S remaining) attempt maxRetries w h
  = (Thrown e, [Invoke attempt]).
Proof.
  intros Hm Hq Ha. rewrite attempts_unfold. unfold tried. rewrite Hm.
  assert (react ceil_millis attempt maxRetries e (random w attempt) = Rethrow) as ->
    by (apply react_rethrow; auto).
  reflexivity.
Qed.

(** C2. [generateWithRetry] throws only an error of the model call that
    is classified as an authentication error and not as a quota error,
    and then the failed call is the last thing it does; when every call
    fails and no failure is of that kind, it returns the fallback batch;
    and a failure of that kind is thrown at once from the attempt where
    it occurs. *)
Theorem generateWithRetry_errors (maxRetries : nat) (w : world) (h : heap) :
  (forall e t,
     generateWithRetry JSON_parse ceil_millis maxRetries w h = (Thrown e, t) ->
     exists k t0, model w k = Failure e /\ isQuota e = false /\ isAuth e = true
                  /\ t = t0 ++ [Invoke k])
  /\ ((forall k, exists e,
         model w k = Failure e /\ (isQuota e = true \/ isAuth e = false)) ->
      fst (generateWithRetry JSON_parse ceil_millis maxRetries w h) = fallback h)
  /\ (forall remaining attempt e,
        model w attempt = Failure e -> isQuota e = false -> isAuth e = true ->
        attempts JSON_parse ceil_millis (S remaining) attempt maxRetries w h
        = (Thrown e, [Invoke attempt])).
Proof.
  split; [intros e t; apply attempts_thrown|].
  split; [apply attempts_all_fail|].
  intros remaining attempt e. apply attempts_auth.
Qed.

(** *** Quota errors: immediate fallback, and the waits *)

Lemma react_free_tier (attempt maxRetries : nat) (e : js_error) (r : unit_interval) :
  isQuota e = true -> freeTierDisabled e = true ->
  react ceil_millis attempt maxRetries e r = FallbackNow.
Proof. intros Hq Hf. unfold react. rewrite Hq, Hf. reflexivity. Qed.

Lemma attempts_free_tier_now (remaining attempt maxRetries : nat) (w : world)
  (h : heap) (e : js_error) :
  model w attempt = Failure e -> isQuota e = true -> freeTierDisabled e = true ->
  attempts JSON_parse ceil_millis (S remaining) attempt maxRetries w h
  = (fallback h, [Invoke attempt]).
Proof.
  intros Hm Hq Hf. rewrite attempts_unfold. unfold tried. rewrite Hm.
  rewrite react_free_tier by assumption. reflexivity.
Qed.

Lemma attempts_free_tier (remaining attempt maxRetries : nat) (w : world) (h : heap)
  (o : outcome) (t : list event) (k : nat) (e : js_error) :
  attempts JSON_parse ceil_millis remaining attempt maxRetries w h = (o, t) ->
  In (Invoke k) t ->
  model w k = Failure e -> isQuota e = true -> freeTierDisabled e = true ->
  o = fallback h /\ exists t0, t = t0 ++ [Invoke k].
Proof.
  intros H Hin Hm Hq Hf.
  revert attempt o t H Hin; induction remaining as [|remaining IH];
    intros attempt o t H Hin.
  - cbn [attempts] in H. apply pair_equal_spec in H as [<- <-]. destruct Hin.
  - destruct (decide (k = attempt)) as [->|Hne].
    + rewrite (attempts_free_tier_now _ _ _ _ _ _ Hm Hq Hf) in H.
      apply pair_equal_spec in H as [<- <-]. split; [reflexivity | now exists []].
    + rewrite attempts_unfold in H.
      assert (forall x, In (Invoke k) [x] -> x = Invoke attempt -> False) as Hsingle.
      { intros x [E|[]] Hx. rewrite Hx in E. injection E as E. congruence. }
      destruct (tried JSON_parse w attempt h) as [e1|[tcs1 h1]].
      * destruct (react ceil_millis attempt maxRetries e1 (random w attempt)) as [| |ms|].
        -- apply pair_equal_spec in H as [<- <-].
           exfalso. eapply Hsingle; [exact Hin | reflexivity].
        -- apply pair_equal_spec in H as [<- <-].
           exfalso. eapply Hsingle; [exact Hin | reflexivity].
        -- destruct (attempts JSON_parse ceil_millis remaining (S attempt) maxRetries w h)
             as [o1 t1] eqn:E.
           inversion H; subst.
           destruct Hin as [Hx|[Hx|Hin]]; [inversion Hx; congruence | discriminate Hx |].
           destruct (IH _ _ _ E Hin) as [-> [t0 ->]].
           split; [reflexivity|]. now exists (Invoke attempt :: Sleep ms :: t0).
        -- destruct (attempts JSON_parse ceil_millis remaining (S attempt) maxRetries w h)
             as [o1 t1] eqn:E.
           inversion H; subst.
           destruct Hin as [Hx|Hin]; [inversion Hx; congruence|].
           destruct (IH _ _ _ E Hin) as [-> [t0 ->]].
           split; [reflexivity|]. now exists (Invoke attempt :: t0).
      * inversion H; subst. exfalso. eapply Hsingle; [exact Hin | reflexivity].
Qed.

(** C6. A quota error whose payload shows a limit of zero makes
    [generateWithRetry] return the fallback batch from within the
    attempt: the failed call is the last event, with no wait and no
    further call of the model. *)
Theorem free_tier_disabled_fallback (maxRetries : nat) (w : world) (h : heap) :
  (forall remaining attempt e,
     model w attempt = Failure e -> isQuota e = true -> freeTierDisabled e = true ->
     attempts JSON_parse ceil_millis (S remaining) attempt maxRetries w h
     = (fallback h, [Invoke attempt]))
  /\ (forall o t k e,
        generateWithRetry JSON_parse ceil_millis maxRetries w h = (o, t) ->
        In (Invoke k) t ->
        model w k = Failure e -> isQuota e = true -> freeTierDisabled e = true ->
        o = fallback h /\ exists t0, t = t0 ++ [Invoke k]).
Proof.
  split.
  - intros remaining attempt e. apply attempts_free_tier_now.
  - intros o t k e. unfold generateWithRetry. apply attempts_free_tier.
Qed.

Lemma floor_times_bounds (r : unit_interval) (n : Z) :
  0 < n -> 0 <= floor_times r n < n.
Proof.
  intros Hn. unfold floor_times. split.
  - apply Z.div_pos; lia.
  - apply Z.div_lt_upper_bound; [lia|]. rewrite Nat2Z.inj_add, Nat2Z.inj_add. nia.
Qed.

Lemma backoff_base_bounds (attempt : nat) : 0 < backoff_base attempt <= 5000.
Proof.
  unfold backoff_base.
  assert (0 < 2 ^ Z.of_nat attempt) by (apply Z.pow_pos_nonneg; lia). lia.
Qed.

(** The wait that the [catch] chooses for a quota error whose payload
    does not show a limit of zero. *)
Lemma react_quota (attempt maxRetries : nat) (e : js_error) (r : unit_interval) :
  isQuota e = true -> freeTierDisabled e = false ->
  exists ms,
    react ceil_millis attempt maxRetries e r = WaitThenNext ms
    /\ ms <= MAX_RETRY_DELAY_MS
    /\ (forall d, retryDelayMs ceil_millis e = Some d -> 0 < d ->
          ms = Z.min (d + 500) 60000
          /\ Z.min d 60000 <= ms /\ (d <= 60000 -> d <= ms))
    /\ ((retryDelayMs ceil_millis e = None
         \/ exists d, retryDelayMs ceil_millis e = Some d /\ d <= 0) ->
        exists jitter,
          0 <= jitter < 1000
          /\ ms = Z.min (1000 * 2 ^ Z.of_nat attempt) 5000 + jitter
          /\ ms = Z.min (Z.min (1000 * 2 ^ Z.of_nat attempt) 5000 + jitter) 60000).
Proof.
  intros Hq Hf. unfold react, USE_IMMEDIATE_FALLBACK_ON_QUOTA. rewrite Hq, Hf.
  pose proof (floor_times_bounds r 1000 ltac:(lia)) as Hj.
  pose proof (backoff_base_bounds attempt) as Hb.
  assert (exists jitter,
             0 <= jitter < 1000
             /\ Z.min (backoff_base attempt + floor_times r 1000) MAX_RETRY_DELAY_MS
                = Z.min (1000 * 2 ^ Z.of_nat attempt) 5000 + jitter
             /\ Z.min (backoff_base attempt + floor_times r 1000) MAX_RETRY_DELAY_MS
                = Z.min (Z.min (1000 * 2 ^ Z.of_nat attempt) 5000 + jitter) 60000)
    as Hback.
  { exists (floor_times r 1000). unfold backoff_base, MAX_RETRY_DELAY_MS in *. lia. }
  destruct (retryDelayMs ceil_millis e) as [d|].
  - destruct (Z.eqb_spec d 0) as [->|Hd0]; simpl negb; cbv iota.
    + simpl andb. eexists. split; [reflexivity|].
      split; [unfold MAX_RETRY_DELAY_MS; lia|].
      split; [intros d E; inversion E; lia | intros _; exact Hback].
    + destruct (Z.ltb_spec 0 d) as [Hpos|Hneg]; simpl andb; cbv iota.
      * eexists. split; [reflexivity|].
        split; [unfold MAX_RETRY_DELAY_MS; lia|].
        split.
        -- intros d' E _. inversion E; subst d'. unfold MAX_RETRY_DELAY_MS. lia.
        -- intros [E|(d' & E & Hle)]; [discriminate E|]. inversion E; subst d'. lia.
      * eexists. split; [reflexivity|].
        split; [unfold MAX_RETRY_DELAY_MS; lia|].
        split; [intros d' E; inversion E; lia | intros _; exact Hback].
  - eexists. split; [reflexivity|].
    split; [unfold MAX_RETRY_DELAY_MS; lia|].
    split; [intros d E; discriminate E | intros _; exact Hback].
Qed.

Lemma attempts_quota_wait (remaining attempt maxRetries : nat) (w : world) (h : heap)
  (o : outcome) (t : list event) (k : nat) (e : js_error) :
  attempts JSON_parse ceil_millis remaining attempt maxRetries w h = (o, t) ->
  In (Invoke k) t ->
  model w k = Failure e -> isQuota e = true -> freeTierDisabled e = false ->
  exists ms t0 t1,
    t = t0 ++ Invoke k :: Sleep ms :: t1
    /\ react ceil_millis k maxRetries e (random w k) = WaitThenNext ms.
Proof.
  intros H Hin Hm Hq Hf.
  revert attempt o t H Hin; induction remaining as [|remaining IH];
    intros attempt o t H Hin.
  - cbn [attempts] in H. apply pair_equal_spec in H as [<- <-]. destruct Hin.
  - rewrite attempts_unfold in H.
    destruct (decide (k = attempt)) as [->|Hne].
    + unfold tried in H. rewrite Hm in H.
      destruct (react_quota attempt maxRetries e (random w attempt) Hq Hf)
        as (ms & Er & _).
      rewrite Er in H.
      destruct (attempts JSON_parse ceil_millis remaining (S attempt) maxRetries w h)
        as [o1 t1].
      inversion H; subst. now exists ms, [], t1.
    + assert (forall x, In (Invoke k) [x] -> x = Invoke attempt -> False) as Hsingle.
      { intros x [E|[]] Hx. rewrite Hx in E. injection E as E. congruence. }
      destruct (tried JSON_parse w attempt h) as [e1|[tcs1 h1]].
      * destruct (react ceil_millis attempt maxRetries e1 (random w attempt)) as [| |ms|].
        -- apply pair_equal_spec in H as [<- <-].
           exfalso. eapply Hsingle; [exact Hin | reflexivity].
        -- apply pair_equal_spec in H as [<- <-].
           exfalso. eapply Hsingle; [exact Hin | reflexivity].
        -- destruct (attempts JSON_parse ceil_millis remaining (S attempt) maxRetries w h)
             as [o1 t1] eqn:E.
           inversion H; subst.
           destruct Hin as [Hx|[Hx|Hin]]; [inversion Hx; congruence | discriminate Hx |].
           destruct (IH _ _ _ E Hin) as (ms' & t0 & t2 & -> & Hr).
           now exists ms', (Invoke attempt :: Sleep ms :: t0), t2.
        -- destruct (attempts JSON_parse ceil_millis remaining (S attempt) maxRetries w h)
             as [o1 t1] eqn:E.
           inversion H; subst.
           destruct Hin as [Hx|Hin]; [inversion Hx; congruence|].
           destruct (IH _ _ _ E Hin) as (ms' & t0 & t2 & -> & Hr).
           now exists ms', (Invoke attempt :: t0), t2.
      * inversion H; subst. exfalso. eapply Hsingle; [exact Hin | reflexivity].
Qed.

(** C7 (amended). After a quota error at attempt [k] whose payload does
    not show a limit of zero, the loop sleeps before the next attempt.
    With a positive advised delay of [d] ms the wait is
    [min (d + 500) 60000]: at most the cap of 60 seconds, at least
    [min d 60000], and so at least [d] when [d] is within the cap. With
    no advised delay (none, or one that is not positive) the wait is
    [min (1000 * 2 ^ k) 5000] plus a jitter from 0 to 999, which the cap
    of 60000 leaves as it is. *)
Theorem quota_wait (maxRetries : nat) (w : world) (h : heap)
  (o : outcome) (t : list event) (k : nat) (e : js_error) :
  generateWithRetry JSON_parse ceil_millis maxRetries w h = (o, t) ->
  In (Invoke k) t ->
  model w k = Failure e -> isQuota e = true -> freeTierDisabled e = false ->
  exists ms t0 t1,
    t = t0 ++ Invoke k :: Sleep ms :: t1
    /\ ms <= 60000
    /\ (forall d, retryDelayMs ceil_millis e = Some d -> 0 < d ->
          ms = Z.min (d + 500) 60000
          /\ Z.min d 60000 <= ms /\ (d <= 60000 -> d <= ms))
    /\ ((retryDelayMs ceil_millis e = None
         \/ exists d, retryDelayMs ceil_millis e = Some d /\ d <= 0) ->
        exists jitter,
          0 <= jitter < 1000
          /\ ms = Z.min (1000 * 2 ^ Z.of_nat k) 5000 + jitter
          /\ ms = Z.min (Z.min (1000 * 2 ^ Z.of_nat k) 5000 + jitter) 60000).
Proof.
  intros H Hin Hm Hq Hf.
  destruct (attempts_quota_wait _ _ _ _ _ _ _ _ _ H Hin Hm Hq Hf)
    as (ms & t0 & t1 & Ht & Hr).
  destruct (react_quota k maxRetries e (random w k) Hq Hf) as (ms' & Hr' & Hcap & Hd & Hn).
  rewrite Hr in Hr'. inversion Hr'; subst ms'.
  exists ms, t0, t1. auto.
Qed.

End RetryLoop.

(** ** The execution of a batch *)

Section RunTestsFacts.

Import JsString Json Coerce Execution.

Variable URL_ok : string -> bool.
Variable REQUEST_CONCURRENCY : option string.

Lemma executeTest_resolves (test : json) (baseUrl : string)
  (net : axios_config -> axios_reply) :
  test <> JNull -> exists r, executeTest test baseUrl net = Some r.
Proof.
  intros Hnn. unfold executeTest.
  destruct (probe test baseUrl net) as [e|r]; [|now exists r].
  destruct test; (congruence || eexists; reflexivity).
Qed.

(** A probe reaches the network only through [net]; when the network
    rejects whatever it is asked, the probe throws. *)
Lemma probe_rejected (test : json) (baseUrl : string)
  (net : axios_config -> axios_reply) :
  (forall cfg, exists e, net cfg = Rejected e) ->
  exists e, probe test baseUrl net = inl e.
Proof.
  intros Hnet. unfold probe.
  destruct (member (Some test) "request") as [e|request]; [now exists e|].
  destruct (member request "endpoint") as [e|ep]; [now exists e|].
  destruct (as_string ep) as [e|ep']; [now exists e|].
  destruct (member request "method") as [e|m]; [now exists e|].
  destruct (as_string m) as [e|m']; [now exists e|].
  match goal with |- context [net ?cfg] => destruct (Hnet cfg) as [e ->] end.
  now exists e.
Qed.

Lemma executeTest_transport_fault (test : json) (baseUrl : string)
  (net : axios_config -> axios_reply) :
  test <> JNull ->
  (forall cfg, exists e, net cfg = Rejected e) ->
  exists r, executeTest test baseUrl net = Some r /\ res_status r = ERROR.
Proof.
  intros Hnn Hnet. unfold executeTest.
  destruct (probe_rejected test baseUrl net Hnet) as [e ->].
  destruct test; (congruence || eexists; split; reflexivity).
Qed.

Lemma run_from_lookup (tests : list json) (baseUrl : string)
  (net : nat -> axios_config -> axios_reply) (i0 : nat) (results : list exec_result) :
  run_from i0 tests baseUrl net = Some results ->
  length results = length tests
  /\ forall i test, tests !! i = Some test ->
       results !! i = executeTest test baseUrl (net (i0 + i)%nat).
Proof.
  revert i0 results; induction tests as [|t tests IH]; intros i0 results H.
  - cbn [run_from] in H. inversion H; subst. split; [reflexivity|].
    intros i test Hi. now rewrite lookup_nil in Hi.
  - cbn [run_from] in H.
    destruct (executeTest t baseUrl (net i0)) as [r|] eqn:Er; [|discriminate H].
    destruct (run_from (S i0) tests baseUrl net) as [rs|] eqn:Ers; [|discriminate H].
    inversion H; subst. destruct (IH _ _ Ers) as [Len Hall].
    split; [simpl; now rewrite Len|].
    intros [|i] test Hi; simpl in Hi.
    + inversion Hi; subst. rewrite Nat.add_0_r. now rewrite Er.
    + simpl. rewrite (Hall i test Hi). f_equal. f_equal. lia.
Qed.

Lemma run_from_resolves (tests : list json) (baseUrl : string)
  (net : nat -> axios_config -> axios_reply) (i0 : nat) :
  Forall (fun t => t <> JNull) tests ->
  exists results, run_from i0 tests baseUrl net = Some results.
Proof.
  intros Hall. revert i0; induction Hall as [|t tests Ht _ IH]; intros i0.
  - now exists [].
  - cbn [run_from].
    destruct (executeTest_resolves t baseUrl (net i0) Ht) as [r ->].
    destruct (IH (S i0)) as [rs ->]. now exists (r :: rs).
Qed.

Lemma run_from_tests (tests : list json) (baseUrl : string)
  (net : nat -> axios_config -> axios_reply) (i0 : nat) (results : list exec_result) :
  run_from i0 tests baseUrl net = Some results ->
  Forall (fun t => t <> JNull) tests.
Proof.
  revert i0 results; induction tests as [|t tests IH]; intros i0 results H.
  - constructor.
  - cbn [run_from] in H.
    destruct (executeTest t baseUrl (net i0)) as [r|] eqn:Er; [|discriminate H].
    destruct (run_from (S i0) tests baseUrl net) as [rs|] eqn:Ers; [|discriminate H].
    constructor; [|eapply IH; exact Ers].
    intros ->. cbn in Er. discriminate Er.
Qed.

(** Every result has one of the three statuses, so the three counts
    add up to the number of results. *)
Lemma count_status_total (results : list exec_result) :
  (count_status PASSED results + count_status FAILED results
   + count_status ERROR results)%nat = length results.
Proof.
  unfold count_status. induction results as [|r rs IH]; [reflexivity|].
  rewrite !filter_cons. destruct (res_status r) eqn:E;
    repeat (destruct (decide _); try congruence); simpl; lia.
Qed.

(** The base URL the probes are sent to. *)
Definition target_of (targetUrl baseUrl : option json) : string :=
  to_js_string
    (default (JStr "http://localhost:3000") (or_else targetUrl (if_truthy baseUrl))).

(** A probe reads the replies of the network at its own request
    only. *)
Lemma executeTest_ext (test : json) (baseUrl : string)
  (net net' : axios_config -> axios_reply) :
  (forall cfg, net' cfg = net cfg) ->
  executeTest test baseUrl net' = executeTest test baseUrl net.
Proof.
  intros Hext. unfold executeTest. 
  assert (probe test baseUrl net' = probe test baseUrl net) as ->; [|reflexivity].
  unfold probe.
  destruct (member (Some test) "request") as [e|request]; [reflexivity|].
  destruct (member request "endpoint") as [e|ep]; [reflexivity|].
  destruct (as_string ep) as [e|ep']; [reflexivity|].
  destruct (member request "method") as [e|m]; [reflexivity|].
  destruct (as_string m) as [e|m']; [reflexivity|].
  now rewrite Hext.
Qed.

(** C3 (amended). A run of [/run-tests] on a batch that is not empty
    and has no [null] entry, with a target that [new URL] accepts and a
    concurrency that the limiter accepts, answers with results whatever
    the network does: one result for each test, in the order of the
    tests, each with the status PASSED, FAILED or ERROR, and the counts
    of the summary add up to the total. The result of a test depends on
    that test and on the replies to its own probe only: a probe that the
    network rejects gives the status ERROR for its test, and under any
    other behaviour of the network the run answers with results again,
    the same one at every index where the network replies as before.
    When the limiter refuses the concurrency (no number, or none above
    zero), the run is answered with the error response of the route,
    without results. *)
Theorem run_tests_results (targetUrl baseUrl concurrency : option json)
  (tests : list json) (net : nat -> axios_config -> axios_reply) :
  tests <> [] ->
  URL_ok (target_of targetUrl baseUrl) = true ->
  (forall c,
     Forall (fun test => test <> JNull) tests ->
     chosen_concurrency concurrency REQUEST_CONCURRENCY = Some c -> 0 < c ->
     exists results summary,
       run_tests URL_ok REQUEST_CONCURRENCY (Some (JArr tests)) targetUrl baseUrl
         concurrency net = Completed results summary
       /\ length results = length tests
       /\ Forall (fun r => res_status r = PASSED \/ res_status r = FAILED
                           \/ res_status r = ERROR) results
       /\ total summary = length tests
       /\ (n_passed summary + n_failed summary + n_errors summary)%nat = total summary
       /\ (forall i test, tests !! i = Some test ->
             results !! i = executeTest test (target_of targetUrl baseUrl) (net i))
       /\ (forall i test, tests !! i = Some test ->
             (forall cfg, exists e, net i cfg = Rejected e) ->
             exists r, results !! i = Some r /\ res_status r = ERROR)
       /\ (forall net', exists results' summary',
             run_tests URL_ok REQUEST_CONCURRENCY (Some (JArr tests)) targetUrl baseUrl
               concurrency net' = Completed results' summary'
             /\ forall i, (forall cfg, net' i cfg = net i cfg) ->
                  results' !! i = results !! i))
  /\ ((forall c, chosen_concurrency concurrency REQUEST_CONCURRENCY = Some c -> c <= 0) ->
      run_tests URL_ok REQUEST_CONCURRENCY (Some (JArr tests)) targetUrl baseUrl
        concurrency net = ExecutionError).
Proof.
  intros Hne Hurl. split.
  - intros c Hnn Hc Hpos.
    assert (forall n,
              exists rs,
                run_from 0 tests (target_of targetUrl baseUrl) n = Some rs
                /\ run_tests URL_ok REQUEST_CONCURRENCY (Some (JArr tests)) targetUrl
                     baseUrl concurrency n
                   = Completed rs
                       {| total := length rs;
                          n_passed := count_status PASSED rs;
                          n_failed := count_status FAILED rs;
                          n_errors := count_status ERROR rs |}) as Hrun.
    { intros n.
      destruct (run_from_resolves tests (target_of targetUrl baseUrl) n 0 Hnn)
        as [rs Er].
      exists rs. split; [exact Er|]. unfold run_tests.
      destruct tests as [|t ts] eqn:Et; [congruence|]. rewrite <- Et in *.
      fold (target_of targetUrl baseUrl). rewrite Hurl, Hc. cbn [negb].
      apply Z.ltb_lt in Hpos. now rewrite Hpos, Er. }
    destruct (Hrun net) as (rs & Er & Hcompleted).
    destruct (run_from_lookup _ _ _ _ _ Er) as [Len Hall].
    eexists rs, _. split; [exact Hcompleted|]. cbn [total n_passed n_failed n_errors].
    split; [exact Len|].
    split; [apply Forall_forall; intros r _; destruct (res_status r); auto|].
    split; [exact Len|]. split; [apply count_status_total|].
    split; [intros i test Hi; exact (Hall i test Hi)|].
    split.
    + intros i test Hi Hrej. rewrite (Hall i test Hi). cbn [Nat.add].
      apply executeTest_transport_fault; [|exact Hrej].
      rewrite Forall_forall in Hnn. apply Hnn. eapply list_elem_of_lookup_2. exact Hi.
    + intros net'. destruct (Hrun net') as (rs' & Er' & Hcompleted').
      destruct (run_from_lookup _ _ _ _ _ Er') as [Len' Hall'].
      eexists rs', _. split; [exact Hcompleted'|].
      intros i Hsame. destruct (tests !! i) as [test|] eqn:Hi.
      * rewrite (Hall i test Hi), (Hall' i test Hi). cbn [Nat.add].
        now apply executeTest_ext.
      * apply lookup_ge_None in Hi.
        rewrite (proj2 (lookup_ge_None rs i)) by lia.
        apply lookup_ge_None. lia.
  - intros Hrefused. unfold run_tests.
    destruct tests as [|t ts] eqn:Et; [congruence|]. rewrite <- Et in *.
    fold (target_of targetUrl baseUrl). rewrite Hurl. cbn [negb].
    destruct (chosen_concurrency concurrency REQUEST_CONCURRENCY) as [c|];
      [|reflexivity].
    specialize (Hrefused c eq_refl).
    destruct (Z.ltb_spec 0 c); [lia | reflexivity].
Qed.

End RunTestsFacts.

(** ** The limiter *)

Module LimiterFacts.

Import Limiter.

(** What holds in every state of a run for [n] tests: no more than [c]
    probes are in flight, and every test is waiting, in flight or
    finished. *)
Definition invariant (c : Z) (n : nat) (s : state) : Prop :=
  Z.of_nat (length (in_flight s)) <= Z.max c 0
  /\ forall i, (i < n)%nat -> i ∈ queued s \/ i ∈ in_flight s \/ i ∈ finished s.

Lemma invariant_initial (c : Z) (n : nat) : invariant c n (initial n).
Proof.
  split; [simpl; lia|].
  intros i Hi. left. simpl. apply elem_of_seq. lia.
Qed.

Lemma invariant_step (c : Z) (n : nat) (a : action) (s s' : state) :
  invariant c n s -> step c a s = Some s' -> invariant c n s'.
Proof.
  intros [Hb Hall] H. destruct a as [|i]; simpl in H.
  - destruct (queued s) as [|j q] eqn:Eq; [discriminate H|].
    destruct (Z.ltb_spec (Z.of_nat (length (in_flight s))) c) as [Hlt|]; [|discriminate H].
    inversion H; subst s'. split; simpl.
    + rewrite length_app. simpl. lia.
    + intros i Hi. destruct (Hall i Hi) as [Hq|[Hf|Hd]].
      * apply elem_of_cons in Hq as [->|Hq]; [|now left].
        right. left. apply elem_of_app. right. now apply list_elem_of_singleton.
      * right. left. apply elem_of_app. now left.
      * right. now right.
  - destruct (bool_decide (i ∈ in_flight s)) eqn:Ein; [|discriminate H].
    inversion H; subst s'. split; simpl.
    + pose proof (length_filter (fun j => j <> i) (in_flight s)). lia.
    + intros j Hj. destruct (Hall j Hj) as [Hq|[Hf|Hd]].
      * now left.
      * destruct (decide (j = i)) as [->|Hne].
        -- right. right. apply elem_of_app. right. now apply list_elem_of_singleton.
        -- right. left. apply list_elem_of_filter. auto.
      * right. right. apply elem_of_app. now left.
Qed.

Lemma invariant_run (c : Z) (n : nat) (schedule : list action) (s s' : state) :
  invariant c n s -> run c schedule s = Some s' -> invariant c n s'.
Proof.
  revert s; induction schedule as [|a rest IH]; intros s Hinv H; simpl in H.
  - inversion H; now subst.
  - destruct (step c a s) as [s1|] eqn:E; [|discriminate H].
    eapply IH; [|exact H]. eapply invariant_step; eassumption.
Qed.

(** A schedule that the limiter allows is allowed up to each of its
    points. *)
Lemma run_app (c : Z) (before after : list action) (s s' : state) :
  run c (before ++ after) s = Some s' ->
  exists mid, run c before s = Some mid /\ run c after mid = Some s'.
Proof.
  revert s; induction before as [|a before IH]; intros s H; simpl in *.
  - now exists s.
  - destruct (step c a s) as [s1|]; [|discriminate H]. now apply IH.
Qed.

Lemma step_start (c : Z) (s s' : state) :
  step c Start s = Some s' ->
  Z.of_nat (length (in_flight s)) < c
  /\ exists i, queued s = i :: queued s' /\ in_flight s' = in_flight s ++ [i].
Proof.
  simpl. destruct (queued s) as [|i q]; [discriminate|].
  destruct (Z.ltb_spec (Z.of_nat (length (in_flight s))) c) as [Hlt|]; [|discriminate].
  intros E; inversion E; subst; simpl. split; [assumption|]. now exists i.
Qed.

Lemma step_finish_keeps_queue (c : Z) (i : nat) (s s' : state) :
  step c (Finish i) s = Some s' -> queued s' = queued s.
Proof.
  simpl. destruct (bool_decide (i ∈ in_flight s)); [|discriminate].
  intros E; inversion E; now subst.
Qed.

End LimiterFacts.

Section ConcurrencyFacts.

Import Json Execution Limiter LimiterFacts.

(** C9. With the concurrency [c] that a route chooses (the
    [concurrency] of the request when it is a non-zero integer, else the
    configured default, which is 8 when nothing is configured) and
    [c > 0], at every point of every schedule the limiter allows for
    [n] tests, at most [c] probes are in flight; a waiting test is
    started only at a point where fewer than [c] are in flight, and the
    completion of a probe starts none. *)
Theorem in_flight_bounded (concurrency : option json) (env : option string)
  (c : Z) (n : nat) (before after : list action) (s : state) :
  chosen_concurrency concurrency env = Some c ->
  0 < c ->
  run c (before ++ after) (initial n) = Some s ->
  exists mid,
    run c before (initial n) = Some mid
    /\ Z.of_nat (length (in_flight mid)) <= c
    /\ Z.of_nat (length (in_flight s)) <= c
    /\ (forall i, (i < n)%nat -> i ∈ queued mid \/ i ∈ in_flight mid \/ i ∈ finished mid)
    /\ (forall s1, step c Start mid = Some s1 ->
          Z.of_nat (length (in_flight mid)) < c)
    /\ (forall i s1, step c (Finish i) mid = Some s1 -> queued s1 = queued mid)
    /\ (forall k, concurrency = Some (JNum k) -> k <> 0 -> c = k)
    /\ (concurrency = None -> env = None -> c = 8).
Proof.
  intros Hc Hpos H.
  destruct (run_app _ _ _ _ _ H) as (mid & Hmid & Hrest).
  pose proof (invariant_run c n before _ _ (invariant_initial c n) Hmid) as [Hb Hall].
  pose proof (invariant_run c n _ _ _ (invariant_initial c n) H) as [Hb' _].
  exists mid. split; [exact Hmid|]. split; [lia|]. split; [lia|]. split; [exact Hall|].
  split; [intros s1 Hs; now apply step_start in Hs|].
  split; [intros i s1 Hs; eapply step_finish_keeps_queue; exact Hs|].
  split.
  - intros k -> Hk. simpl in Hc. destruct (Z.eqb_spec k 0); [contradiction|].
    now inversion Hc.
  - intros -> ->. vm_compute in Hc. now inversion Hc.
Qed.

End ConcurrencyFacts.

(** ** The route [/generate-tests] and its cache *)

Section GenerateTestsFacts.

Import JsString Json Coerce Store StoreFacts.

Variable JSON_parse : string -> option json.
Variable ceil_millis : string -> option Z.

Local Opaque fallback.

Lemma attempts_trace_head (remaining attempt maxRetries : nat) (w : world) (h : heap) :
  exists t,
    snd (attempts JSON_parse ceil_millis (S remaining) attempt maxRetries w h)
    = Invoke attempt :: t.
Proof.
  rewrite attempts_unfold.
  destruct (tried JSON_parse w attempt h) as [e|[tcs h']]; [|now exists []].
  destruct (attempts JSON_parse ceil_millis remaining (S attempt) maxRetries w h)
    as [o t1].
  destruct (react ceil_millis attempt maxRetries e (random w attempt));
    eexists; reflexivity.
Qed.

Lemma generation_error_status (msg : string) (data : json) :
  generation_error msg <> Respond 200 data.
Proof.
  unfold generation_error, failure.
  destruct (includes msg "API key"); [discriminate|].
  destruct (includes_ci msg "quota" || includes_ci msg "429"
            || includes_ci msg "too many requests"); discriminate.
Qed.

Lemma generation_error_triple (msg : string) (c c2 : cache) (t t' : list event)
  (data : json) :
  (generation_error msg, c, t) = (Respond 200 data, c2, t') -> False.
Proof.
  intros H. apply pair_equal_spec in H as [H _]. apply pair_equal_spec in H as [H _].
  exact (generation_error_status _ _ H).
Qed.

(** The payload of a successful generation. *)
Definition generated_payload (data : json) : Prop :=
  exists js summary msg,
    data = JObj [("success", JBool true); ("testCases", JArr js);
                 ("summary", summary); ("message", JStr msg)].

Lemma responseData_payload (h : heap) (tcs : list value) (data : json) :
  responseData h tcs = Some data -> generated_payload data.
Proof.
  unfold responseData. destruct (reify_all h tcs) as [js|]; [|discriminate].
  intros H; inversion H. eexists _, _, _. reflexivity.
Qed.

Lemma generate_and_store_trace (v : validated) (t_set : Z) (w : world) (c1 : cache) :
  exists t, snd (generate_and_store JSON_parse ceil_millis v t_set w c1) = Invoke 1 :: t.
Proof.
  unfold generate_and_store.
  destruct (alloc (headers v) []) as [hdrs h1].
  destruct (alloc (body v) h1) as [spec_body h2].
  destruct (attempts_trace_head 2 1 3 w h2) as [t Ht].
  unfold generateWithRetry.
  destruct (attempts JSON_parse ceil_millis 3 1 3 w h2) as [[tcs h3|e] t0];
    simpl in Ht; subst t0.
  - destruct (patch_all (method v) (endpoint v) hdrs spec_body tcs h3) as [[u h4]|];
      [|now exists t].
    destruct (responseData h4 tcs); now exists t.
  - now exists t.
Qed.

Lemma generate_and_store_success (v : validated) (t_set : Z) (w : world) (c1 c2 : cache)
  (data : json) (t : list event) :
  generate_and_store JSON_parse ceil_millis v t_set w c1 = (Respond 200 data, c2, t) ->
  generated_payload data /\ c2 = cache_set (cacheKey v) data t_set c1.
Proof.
  unfold generate_and_store.
  destruct (alloc (headers v) []) as [hdrs h1].
  destruct (alloc (body v) h1) as [spec_body h2].
  destruct (generateWithRetry JSON_parse ceil_millis 3 w h2) as [[tcs h3|e] t0].
  - destruct (patch_all (method v) (endpoint v) hdrs spec_body tcs h3) as [[u h4]|].
    + destruct (responseData h4 tcs) as [d|] eqn:Ed.
      * intros H; inversion H; subst. split; [|reflexivity].
        eapply responseData_payload; exact Ed.
      * intros H. destruct (generation_error_triple _ _ _ _ _ _ H).
    + intros H. destruct (generation_error_triple _ _ _ _ _ _ H).
  - intros H. destruct (generation_error_triple _ _ _ _ _ _ H).
Qed.

(** The route, for a specification that validates. *)
Lemma generate_tests_validated (spec : json) (v : validated) (t_get t_set : Z)
  (w : world) (c : cache) :
  (exists p, spec = JObj p) \/ (exists l, spec = JArr l) ->
  validate spec = inr v ->
  generate_tests JSON_parse ceil_millis (Some spec) t_get t_set w c
  = match cache_get (cacheKey v) t_get c with
    | (Some (JObj props), c1) =>
        (Respond 200 (JObj (assoc_set "cached" (JBool true) props)), c1, [])
    | (_, c1) => generate_and_store JSON_parse ceil_millis v t_set w c1
    end.
Proof.
  intros [[p ->]|[l ->]] Hv; unfold generate_tests; rewrite Hv;
    destruct (cache_get (cacheKey v) t_get c) as [[[]|] c1]; reflexivity.
Qed.

Lemma cache_get_fresh (key : string) (data : json) (t_set now : Z) (c : cache) :
  now <= t_set + stdTTL_ms ->
  cache_get key now (cache_set key data t_set c)
  = (Some data, cache_set key data t_set c).
Proof.
  intros H. unfold cache_get, cache_set. rewrite lookup_insert_eq. simpl.
  destruct (Z.leb_spec now (t_set + stdTTL_ms)); [reflexivity | lia].
Qed.

Lemma cache_get_expired (key : string) (data : json) (t_set now : Z) (c : cache) :
  t_set + stdTTL_ms < now ->
  cache_get key now (cache_set key data t_set c)
  = (None, base.delete key (cache_set key data t_set c)).
Proof.
  intros H. unfold cache_get, cache_set. rewrite lookup_insert_eq. simpl.
  destruct (Z.leb_spec now (t_set + stdTTL_ms)); [lia | reflexivity].
Qed.

Definition is_object (spec : json) : Prop :=
  (exists p, spec = JObj p) \/ (exists l, spec = JArr l).

(** A request that generated and stored its response, followed by a
    request with the same key. *)
Lemma second_request (spec1 spec2 : json) (v1 v2 : validated) (t_get1 t_set1 : Z)
  (w1 : world) (c0 c1 : cache) (data : json) (tr1 : list event) :
  is_object spec1 -> is_object spec2 ->
  validate spec1 = inr v1 -> validate spec2 = inr v2 ->
  cacheKey v1 = cacheKey v2 ->
  generate_tests JSON_parse ceil_millis (Some spec1) t_get1 t_set1 w1 c0
  = (Respond 200 data, c1, tr1) ->
  tr1 <> [] ->
  exists js summary msg,
    data = JObj [("success", JBool true); ("testCases", JArr js);
                 ("summary", summary); ("message", JStr msg)]
    /\ (forall t_get2 t_set2 w2,
          t_get2 <= t_set1 + stdTTL_ms ->
          generate_tests JSON_parse ceil_millis (Some spec2) t_get2 t_set2 w2 c1
          = (Respond 200
               (JObj [("success", JBool true); ("testCases", JArr js);
                      ("summary", summary); ("message", JStr msg);
                      ("cached", JBool true)]),
             c1, []))
    /\ (forall t_get2 t_set2 w2,
          t_set1 + stdTTL_ms < t_get2 ->
          fst (cache_get (cacheKey v2) t_get2 c1) = None
          /\ exists tr2,
               snd (generate_tests JSON_parse ceil_millis (Some spec2)
                      t_get2 t_set2 w2 c1)
               = Invoke 1 :: tr2).
Proof.
  intros Ho1 Ho2 Hv1 Hv2 Hkey H Htr.
  rewrite (generate_tests_validated _ _ _ _ _ _ Ho1 Hv1) in H.
  assert (exists c0b,
             generate_and_store JSON_parse ceil_millis v1 t_set1 w1 c0b
             = (Respond 200 data, c1, tr1))
    as [c' Hmiss].
  { destruct (cache_get (cacheKey v1) t_get1 c0) as [[[]|] c'];
      try (now exists c').
    inversion H; subst. contradiction. }
  clear H. apply generate_and_store_success in Hmiss as [(js & summary & msg & ->) ->].
  exists js, summary, msg. split; [reflexivity|]. rewrite Hkey. split.
  - intros t_get2 t_set2 w2 Hin.
    rewrite (generate_tests_validated _ _ _ _ _ _ Ho2 Hv2).
    rewrite cache_get_fresh by exact Hin. reflexivity.
  - intros t_get2 t_set2 w2 Hout.
    rewrite (generate_tests_validated _ _ _ _ _ _ Ho2 Hv2).
    rewrite cache_get_expired by exact Hout. split; [reflexivity|].
    apply generate_and_store_trace.
Qed.

(** C8. When a request has generated its response and stored it, a
    request whose specification validates to the same key and that
    reads the cache within one hour of the storing is answered with the
    same [success], [testCases], [summary] and [message] and with
    [cached: true], without any call of the model; a request that reads
    the cache later misses, and the generation runs again. *)
Theorem cached_response (spec1 spec2 : json) (v1 v2 : validated) (t_get1 t_set1 : Z)
  (w1 : world) (c0 c1 : cache) (data : json) (tr1 : list event) :
  is_object spec1 -> is_object spec2 ->
  validate spec1 = inr v1 -> validate spec2 = inr v2 ->
  cacheKey v1 = cacheKey v2 ->
  generate_tests JSON_parse ceil_millis (Some spec1) t_get1 t_set1 w1 c0
  = (Respond 200 data, c1, tr1) ->
  tr1 <> [] ->
  exists js summary msg,
    data = JObj [("success", JBool true); ("testCases", JArr js);
                 ("summary", summary); ("message", JStr msg)]
    /\ (forall t_get2 t_set2 w2,
          t_get2 <= t_set1 + stdTTL_ms ->
          generate_tests JSON_parse ceil_millis (Some spec2) t_get2 t_set2 w2 c1
          = (Respond 200
               (JObj [("success", JBool true); ("testCases", JArr js);
                      ("summary", summary); ("message", JStr msg);
                      ("cached", JBool true)]),
             c1, []))
    /\ (forall t_get2 t_set2 w2,
          t_set1 + stdTTL_ms < t_get2 ->
          fst (cache_get (cacheKey v2) t_get2 c1) = None
          /\ exists tr2,
               snd (generate_tests JSON_parse ceil_millis (Some spec2)
                      t_get2 t_set2 w2 c1)
               = Invoke 1 :: tr2).
Proof. apply second_request. Qed.

(** *** Normalization by the validators *)

Lemma validateEndpoint_trim (e1 e2 t : string) :
  trim e1 = trim e2 ->
  validateEndpoint (Some (JStr e1)) = inr t ->
  validateEndpoint (Some (JStr e2)) = inr t.
Proof.
  intros Ht. unfold validateEndpoint.
  destruct (String.eqb_spec e1 EmptyString) as [|Hne1]; [discriminate|].
  rewrite <- Ht.
  destruct (startsWith (trim e1) "/") eqn:Hs; [|discriminate]. cbn [negb].
  destruct (String.eqb_spec e2 EmptyString) as [->|Hne2]; [|tauto].
  exfalso. change (trim EmptyString) with EmptyString in Ht.
  rewrite Ht in Hs. discriminate Hs.
Qed.

Lemma validateMethod_case (m1 m2 u : string) :
  toUpperCase m1 = toUpperCase m2 ->
  validateMethod (Some (JStr m1)) = inr u ->
  validateMethod (Some (JStr m2)) = inr u.
Proof. intros Hu. unfold validateMethod. now rewrite Hu. Qed.

(** C10. [validateMethod] puts the method in upper case and
    [validateEndpoint] trims the endpoint before the key is made: two
    specifications that differ only in the case of the letters of the
    method or in white space around the endpoint validate to the same
    specification and so to the same key, and when the first request
    has generated and stored its response, the second, reading the
    cache within the hour, is answered from that entry without a call
    of the model. *)
Theorem normalized_requests_share_entry (spec1 spec2 : json) (v : validated)
  (e1 e2 m1 m2 : string) :
  is_object spec1 -> is_object spec2 ->
  prop spec1 "endpoint" = Some (JStr e1) -> prop spec2 "endpoint" = Some (JStr e2) ->
  trim e1 = trim e2 ->
  prop spec1 "method" = Some (JStr m1) -> prop spec2 "method" = Some (JStr m2) ->
  toUpperCase m1 = toUpperCase m2 ->
  prop spec1 "headers" = prop spec2 "headers" ->
  prop spec1 "body" = prop spec2 "body" ->
  prop spec1 "expected_response" = prop spec2 "expected_response" ->
  validate spec1 = inr v ->
  endpoint v = trim e1 /\ method v = toUpperCase m1
  /\ validate spec2 = inr v
  /\ forall t_get1 t_set1 w1 c0 c1 data tr1,
       generate_tests JSON_parse ceil_millis (Some spec1) t_get1 t_set1 w1 c0
       = (Respond 200 data, c1, tr1) ->
       tr1 <> [] ->
       forall t_get2 t_set2 w2,
         t_get2 <= t_set1 + stdTTL_ms ->
         exists props,
           data = JObj props
           /\ generate_tests JSON_parse ceil_millis (Some spec2) t_get2 t_set2 w2 c1
              = (Respond 200 (JObj (props ++ [("cached", JBool true)])), c1, []).
Proof.
  intros Ho1 Ho2 He1 He2 Htrim Hm1 Hm2 Hup Hh Hb Hx Hv.
  assert (validate spec2 = inr v /\ endpoint v = trim e1 /\ method v = toUpperCase m1)
    as (Hv2 & Hend & Hmeth).
  { unfold validate in *. rewrite He1, Hm1 in Hv. rewrite He2, Hm2, <- Hh, <- Hb, <- Hx.
    destruct (validateEndpoint (Some (JStr e1))) as [|t] eqn:E1; [discriminate Hv|].
    rewrite (validateEndpoint_trim _ _ _ Htrim E1).
    destruct (validateMethod (Some (JStr m1))) as [|u] eqn:E2; [discriminate Hv|].
    rewrite (validateMethod_case _ _ _ Hup E2).
    split; [exact Hv|]. inversion Hv; subst v; cbn [endpoint method].
    split.
    - unfold validateEndpoint in E1.
      destruct (String.eqb e1 EmptyString); [discriminate E1|].
      destruct (negb (startsWith (trim e1) "/")); [discriminate E1|].
      destruct (Nat.ltb 500 (String.length (trim e1))); [discriminate E1|].
      destruct (containsPathTraversal (trim e1)); [discriminate E1|].
      now inversion E1.
    - unfold validateMethod in E2.
      destruct (bool_decide _); [now inversion E2 | discriminate E2]. }
  split; [exact Hend|]. split; [exact Hmeth|]. split; [exact Hv2|].
  intros t_get1 t_set1 w1 c0 c1 data tr1 H Htr t_get2 t_set2 w2 Hin.
  destruct (second_request _ _ _ _ _ _ _ _ _ _ _ Ho1 Ho2 Hv Hv2 eq_refl H Htr)
    as (js & summary & msg & -> & Hhit & _).
  eexists. split; [reflexivity|]. exact (Hhit t_get2 t_set2 w2 Hin).
Qed.

End GenerateTestsFacts.

(** ** The patching step *)

Module PatchFacts.

Import JsString Json Store StoreFacts.

Lemma assoc_set_eq {A : Type} (k : string) (x : A) (p : list (string * A)) :
  assoc k (assoc_set k x p) = Some x.
Proof.
  induction p as [|[k' v] p IH]; simpl.
  - now rewrite String.eqb_refl.
  - destruct (String.eqb_spec k k') as [->|Hne]; simpl.
    + now rewrite String.eqb_refl.
    + destruct (String.eqb_spec k k'); [contradiction | exact IH].
Qed.

Lemma assoc_set_ne {A : Type} (k k' : string) (x : A) (p : list (string * A)) :
  k' <> k -> assoc k' (assoc_set k x p) = assoc k' p.
Proof.
  intros Hne. induction p as [|[k0 v] p IH]; simpl.
  - destruct (String.eqb_spec k' k); [contradiction | reflexivity].
  - destruct (String.eqb_spec k k0) as [->|Hk]; simpl.
    + destruct (String.eqb_spec k' k0); [contradiction | reflexivity].
    + destruct (String.eqb_spec k' k0); [reflexivity | exact IH].
Qed.

Lemma assoc_del_eq {A : Type} (k : string) (p : list (string * A)) :
  assoc k (assoc_del k p) = None.
Proof.
  induction p as [|[k' v] p IH]; simpl; [reflexivity|].
  destruct (String.eqb_spec k k') as [->|Hne]; simpl; [exact IH|].
  destruct (String.eqb_spec k k'); [contradiction | exact IH].
Qed.

Lemma assoc_del_ne {A : Type} (k k' : string) (p : list (string * A)) :
  k' <> k -> assoc k' (assoc_del k p) = assoc k' p.
Proof.
  intros Hne. induction p as [|[k0 v] p IH]; simpl; [reflexivity|].
  destruct (String.eqb_spec k k0) as [->|Hk]; simpl.
  - destruct (String.eqb_spec k' k0); [contradiction | exact IH].
  - destruct (String.eqb_spec k' k0); [reflexivity | exact IH].
Qed.

Lemma props_with_props (c : cell) (p : list (string * value)) :
  props_of (with_props c p) = p.
Proof. now destruct c. Qed.

(** What the cell at [l] reads after the properties of the cell at [l0]
    are replaced. *)
Lemma read_insert (h : heap) (l0 l : loc) (c : cell) (p : list (string * value))
  (k : string) :
  h !! l0 = Some c ->
  read (<[l0 := with_props c p]> h) (VRef l) k
  = if decide (l = l0) then default VUndef (assoc k p) else read h (VRef l) k.
Proof.
  intros Hc. unfold read. destruct (decide (l = l0)) as [->|Hne].
  - rewrite list_lookup_insert_eq by (now apply lookup_lt_Some in Hc).
    now rewrite props_with_props.
  - now rewrite list_lookup_insert_ne by congruence.
Qed.

(** The steps of a computation, inverted. *)
Lemma bind_inv {A B : Type} (m : M A) (f : A -> M B) (h h2 : heap) (b : B) :
  bind m f h = Some (b, h2) ->
  exists a h1, m h = Some (a, h1) /\ f a h1 = Some (b, h2).
Proof.
  unfold bind. destruct (m h) as [[a h1]|]; [|discriminate].
  intros H. now exists a, h1.
Qed.

Lemma ret_inv {A : Type} (a b : A) (h h1 : heap) :
  ret a h = Some (b, h1) -> b = a /\ h1 = h.
Proof. unfold ret. intros H; now inversion H. Qed.

Lemma get_inv (v : value) (k : string) (h h1 : heap) (x : value) :
  get v k h = Some (x, h1) -> h1 = h /\ x = read h v k.
Proof.
  unfold get, read. destruct v as [| | | | |l]; try discriminate;
    try (intros H; now inversion H).
  destruct (h !! l); [|discriminate]. intros H; now inversion H.
Qed.

Lemma get_ref (l : loc) (k : string) (h h1 : heap) (x : value) :
  get (VRef l) k h = Some (x, h1) -> (l < length h)%nat.
Proof.
  unfold get. destruct (h !! l) eqn:Hc; [|discriminate].
  intros _. now apply lookup_lt_Some in Hc.
Qed.

Lemma set_inv (v : value) (k : string) (x : value) (h h1 : heap) (u : unit) :
  set v k x h = Some (u, h1) ->
  exists l, v = VRef l /\ (l < length h)%nat /\ length h1 = length h
    /\ forall l' k',
         read h1 (VRef l') k'
         = if decide (l' = l /\ k' = k) then x else read h (VRef l') k'.
Proof.
  unfold set. destruct v as [| | | | |l]; try discriminate.
  destruct (h !! l) as [c|] eqn:Hc; [|discriminate].
  intros H; inversion H; subst. exists l.
  split; [reflexivity|]. split; [now apply lookup_lt_Some in Hc|].
  split; [apply length_insert|].
  intros l' k'. rewrite (read_insert h l l' c _ k' Hc).
  destruct (decide (l' = l)) as [->|Hl].
  - destruct (decide (k' = k)) as [->|Hk].
    + rewrite assoc_set_eq. now rewrite decide_True by auto.
    + rewrite assoc_set_ne by exact Hk.
      rewrite decide_False by tauto. unfold read. now rewrite Hc.
  - now rewrite decide_False by tauto.
Qed.

Lemma delete_inv (l : loc) (k : string) (h h1 : heap) (u : unit) :
  delete (VRef l) k h = Some (u, h1) ->
  (l < length h)%nat /\ length h1 = length h
  /\ forall l' k',
       read h1 (VRef l') k'
       = if decide (l' = l /\ k' = k) then VUndef else read h (VRef l') k'.
Proof.
  unfold delete. destruct (h !! l) as [c|] eqn:Hc; [|discriminate].
  intros H; inversion H; subst.
  split; [now apply lookup_lt_Some in Hc|]. split; [apply length_insert|].
  intros l' k'. rewrite (read_insert h l l' c _ k' Hc).
  destruct (decide (l' = l)) as [->|Hl].
  - destruct (decide (k' = k)) as [->|Hk].
    + rewrite assoc_del_eq. now rewrite decide_True by auto.
    + rewrite assoc_del_ne by exact Hk.
      rewrite decide_False by tauto. unfold read. now rewrite Hc.
  - now rewrite decide_False by tauto.
Qed.

Lemma new_obj_inv (p : list (string * value)) (h h1 : heap) (v : value) :
  new_obj p h = Some (v, h1) ->
  v = VRef (length h) /\ length h1 = S (length h)
  /\ forall l' k',
       read h1 (VRef l') k'
       = if decide (l' = length h) then default VUndef (assoc k' p)
         else read h (VRef l') k'.
Proof.
  unfold new_obj. intros H; inversion H; subst.
  split; [reflexivity|]. split; [rewrite length_app; simpl; lia|].
  intros l' k'. destruct (decide (l' = length h)) as [->|Hne].
  - now rewrite read_new.
  - unfold read. destruct (decide (l' < length h)%nat).
    + now rewrite lookup_app_l.
    + rewrite !lookup_ge_None_2; [reflexivity | lia | rewrite length_app; simpl; lia].
Qed.

Ltac inv_bind H :=
  let a := fresh "a" in
  let h1 := fresh "h" in
  let Hm := fresh "Hm" in
  apply bind_inv in H as (a & h1 & Hm & H).

(** Keys are compared by computation. *)
Ltac key_ne := let E := fresh in intros E; discriminate E.

Ltac read_other :=
  rewrite decide_False by (intros [? ?]; first [lia | congruence | discriminate]).

(** [tc.expected_response = tc.expected_response || {}] and the
    assignment of the status: the object [E] that receives the status is
    the one the case had, or a new one; nothing else is written. *)
Lemma set_expected_status_effect (tc : value) (st : value -> Z) (h h' : heap)
  (u : unit) :
  set_expected_status tc st h = Some (u, h') ->
  exists ltc E,
    tc = VRef ltc /\ (ltc < length h)%nat
    /\ (length h <= length h')%nat /\ (E < length h')%nat
    /\ read h' tc "expected_response" = VRef E
    /\ (read h tc "expected_response" = VRef E \/ (length h <= E)%nat)
    /\ read h' (VRef E) "status" = VNum (st (read h tc "category"))
    /\ (forall l k, (l < length h)%nat -> k <> "status" ->
          l <> ltc \/ k <> "expected_response" ->
          read h' (VRef l) k = read h (VRef l) k)
    /\ (forall l, (l < length h)%nat -> l <> E ->
          read h' (VRef l) "status" = read h (VRef l) "status").
Proof.
  unfold set_expected_status. intros H.
  inv_bind H.
  assert (forall ltc, tc = VRef ltc -> (ltc < length h)%nat) as Hin.
  { intros ltc ->. eapply get_ref; exact Hm. }
  apply get_inv in Hm as [-> ->].
  inv_bind H.
  assert (exists E0,
             a = VRef E0 /\ (length h <= length h0)%nat /\ (E0 < length h0)%nat
             /\ (read h tc "expected_response" = VRef E0 \/ (length h <= E0)%nat)
             /\ forall l k, (l < length h)%nat ->
                  read h0 (VRef l) k = read h (VRef l) k) as Halloc.
  { destruct (truthy (read h tc "expected_response")) eqn:Et.
    - apply ret_inv in Hm as [-> ->].
      inv_bind H. apply set_inv in Hm as (ltc & -> & Hl & Hlen & Hrd).
      inv_bind H. apply get_inv in Hm as [-> ->].
      inv_bind H. apply get_inv in Hm as [-> ->].
      apply set_inv in H as (E & HE & HlE & _ & _).
      rewrite Hrd in HE. rewrite decide_True in HE by auto.
      exists E. rewrite HE. split; [reflexivity|]. split; [lia|].
      split; [lia|]. split; [now left | reflexivity].
    - apply new_obj_inv in Hm as (-> & Hlen & Hrd).
      exists (length h). split; [reflexivity|]. split; [lia|]. split; [lia|].
      split; [now right|]. intros l k Hl. rewrite Hrd. now rewrite decide_False by lia. }
  clear Hm. destruct Halloc as (E & -> & Hlen0 & HE0 & Horigin & Hsame).
  inv_bind H. apply set_inv in Hm as (ltc & -> & Hl & Hlen1 & Hrd1).
  inv_bind H. apply get_inv in Hm as [-> ->].
  inv_bind H. apply get_inv in Hm as [-> ->].
  rewrite !Hrd1 in H. rewrite decide_True in H by auto.
  rewrite decide_False in H by (intros [_ E1]; discriminate E1).
  apply set_inv in H as (E' & HE' & HlE & Hlen2 & Hrd2). inversion HE'; subst E'.
  pose proof (Hin ltc eq_refl) as Hltc.
  exists ltc, E. split; [reflexivity|]. split; [exact Hltc|].
  split; [lia|]. split; [lia|].
  split.
  { rewrite Hrd2. rewrite decide_False by (intros [_ E1]; discriminate E1).
    rewrite Hrd1. now rewrite decide_True by auto. }
  split; [exact Horigin|].
  split.
  { rewrite Hrd2. rewrite decide_True by auto. rewrite Hsame by exact Hltc. reflexivity. }
  split.
  - intros l k Hlt Hk Hor. rewrite Hrd2.
    rewrite decide_False by (intros [_ E1]; contradiction).
    rewrite Hrd1. rewrite decide_False by (intros [E1 E2]; destruct Hor; contradiction).
    now apply Hsame.
  - intros l Hlt Hne. rewrite Hrd2. rewrite decide_False by (intros [E1 _]; contradiction).
    rewrite Hrd1. rewrite decide_False by (intros [_ E1]; discriminate E1).
    now apply Hsame.
Qed.

(** Symbolic execution of a computation on the store: each step is
    inverted, and the reads of the later stores are brought back to
    reads of the first one. *)
Ltac solve_side :=
  first [ lia | congruence | discriminate
        | match goal with E : _ = _ |- _ => discriminate E end ].

Ltac decide_no :=
  rewrite decide_False by
    first [ intros [? ?]; solve_side | intros ?; solve_side ].

Ltac decide_yes :=
  rewrite decide_True by first [ split; solve_side | solve_side ].

Ltac norm_goal :=
  repeat first
    [ match goal with
      | Hr : (forall l k, read ?hi (VRef l) k = _)
        |- context [read ?hi (VRef ?l) ?k] => rewrite (Hr l k)
      | Hx : read ?hi (VRef ?l) ?k = VRef _
        |- context [read ?hi (VRef ?l) ?k] => rewrite Hx
      end
    | decide_no
    | decide_yes ].

Ltac norm_in H :=
  repeat first
    [ match goal with
      | Hr : (forall l k, read ?hi (VRef l) k = _) |- _ =>
          match type of H with
          | context [read hi (VRef ?l) ?k] => rewrite (Hr l k) in H
          end
      | Hx : read ?hi (VRef ?l) ?k = VRef _ |- _ =>
          tryif constr_eq Hx H then fail
          else match type of H with
               | context [read hi (VRef l) k] => rewrite Hx in H
               end
      end
    | rewrite decide_False in H by
        first [ intros [? ?]; solve_side | intros ?; solve_side ]
    | rewrite decide_True in H by first [ split; solve_side | solve_side ] ].

Ltac step_get H :=
  let a := fresh "x" in
  let h1 := fresh "h" in
  let Hm := fresh "Hm" in
  apply bind_inv in H as (a & h1 & Hm & H);
  apply get_inv in Hm as [-> ->].

Ltac step_new H :=
  let a := fresh "o" in
  let h1 := fresh "h" in
  let Hm := fresh "Hm" in
  let Hlen := fresh "Hlen" in
  let Hrd := fresh "Hrd" in
  apply bind_inv in H as (a & h1 & Hm & H);
  apply new_obj_inv in Hm as (-> & Hlen & Hrd).

Ltac step_set H :=
  let u := fresh "u" in
  let h1 := fresh "h" in
  let Hm := fresh "Hm" in
  let l := fresh "l" in
  let Hv := fresh "Hv" in
  let Hlt := fresh "Hlt" in
  let Hlen := fresh "Hlen" in
  let Hrd := fresh "Hrd" in
  apply bind_inv in H as (u & h1 & Hm & H);
  apply set_inv in Hm as (l & Hv & Hlt & Hlen & Hrd);
  norm_in Hv; try (injection Hv as Hv; subst l).

Ltac last_set H :=
  let l := fresh "l" in
  let Hv := fresh "Hv" in
  let Hlt := fresh "Hlt" in
  let Hlen := fresh "Hlen" in
  let Hrd := fresh "Hrd" in
  apply set_inv in H as (l & Hv & Hlt & Hlen & Hrd);
  norm_in Hv; try (injection Hv as Hv; subst l).

(** [tc.request.body = b]. *)
Lemma set_request_body_effect (ltc r : loc) (b : value) (h h' : heap) (u : unit) :
  read h (VRef ltc) "request" = VRef r ->
  set_request_body (VRef ltc) b h = Some (u, h') ->
  length h' = length h
  /\ forall l k,
       read h' (VRef l) k
       = if decide (l = r /\ k = "body") then b else read h (VRef l) k.
Proof.
  intros Hr H. unfold set_request_body in H.
  step_get H. rewrite Hr in H. last_set H.
  split; [exact Hlen | exact Hrd].
Qed.

Ltac step_body H Hr :=
  let u := fresh "u" in
  let h1 := fresh "h" in
  let Hm := fresh "Hm" in
  let Hlen := fresh "Hlen" in
  let Hrd := fresh "Hrd" in
  apply bind_inv in H as (u & h1 & Hm & H);
  eapply set_request_body_effect in Hm as [Hlen Hrd]; [|first [exact Hr | norm_goal; first [exact Hr | reflexivity]]].

Ltac last_body H Hr :=
  let Hlen := fresh "Hlen" in
  let Hrd := fresh "Hrd" in
  eapply set_request_body_effect in H as [Hlen Hrd]; [|first [exact Hr | norm_goal; first [exact Hr | reflexivity]]].

Ltac step_delete H :=
  let Hlt := fresh "Hlt" in
  let Hlen := fresh "Hlen" in
  let Hrd := fresh "Hrd" in
  apply delete_inv in H as (Hlt & Hlen & Hrd).

(** The body that the category asks for is written into the request
    object of the case, and into no other object of the store. *)
Lemma patch_body_effect (sb : value) (ltc r : loc) (h h' : heap) (u : unit) :
  read h (VRef ltc) "request" = VRef r ->
  (ltc < length h)%nat ->
  patch_body sb (VRef ltc) h = Some (u, h') ->
  (length h <= length h')%nat
  /\ (forall l k, (l < length h)%nat -> k <> "body" ->
        read h' (VRef l) k = read h (VRef l) k)
  /\ (forall l, (l < length h)%nat -> l <> r ->
        read h' (VRef l) "body" = read h (VRef l) "body")
  /\ (is_str (read h (VRef ltc) "category") "valid" = true ->
      read h' (VRef r) "body" = sb).
Proof.
  intros Hr Hltc H. unfold patch_body in H.
  step_get H.
  destruct (is_str (read h (VRef ltc) "category") "valid") eqn:Hvalid.
  { last_body H Hr.
    split; [lia|]. repeat split; intros; norm_goal; reflexivity. }
  assert (false = true -> read h' (VRef r) "body" = sb) as Hno by discriminate.
  destruct (is_str (read h (VRef ltc) "category") "invalid").
  { unfold new_spread in H. step_new H. step_body H Hr. step_get H.
    destruct (is_str _ "TC_004").
    { step_get H. step_get H. norm_in H. step_delete H.
      split; [lia|]. repeat split; try exact Hno; intros; norm_goal; reflexivity. }
    destruct (is_str _ "TC_005").
    { step_get H. step_get H. norm_in H. step_delete H.
      split; [lia|]. repeat split; try exact Hno; intros; norm_goal; reflexivity. }
    destruct (is_str _ "TC_006").
    { step_get H. step_get H. norm_in H. last_set H.
      split; [lia|]. repeat split; try exact Hno; intros; norm_goal; reflexivity. }
    step_new H. last_body H Hr.
    split; [lia|]. repeat split; try exact Hno; intros; norm_goal; reflexivity. }
  destruct (is_str (read h (VRef ltc) "category") "boundary").
  { step_get H. apply bind_inv in H as (email & h1 & Hm & H).
    assert (h1 = h) as ->.
    { destruct (is_str _ "TC_009"); [now apply ret_inv in Hm|].
      step_get Hm. now apply ret_inv in Hm. }
    clear Hm. step_new H. last_body H Hr.
    split; [lia|]. repeat split; try exact Hno; intros; norm_goal; reflexivity. }
  destruct (is_str (read h (VRef ltc) "category") "security").
  { step_new H. last_body H Hr.
    split; [lia|]. repeat split; try exact Hno; intros; norm_goal; reflexivity. }
  apply ret_inv in H as [_ ->].
  split; [lia|]. repeat split; try exact Hno; intros; reflexivity.
Qed.

(** The status that the patching step writes for a category: 201 is
    for POST, and POST bears a body. *)
Definition patched_status (m : string) (category : value) : Z :=
  if is_str category "valid" then (if String.eqb m "POST" then 201 else 200) else 400.

Lemma no_body_not_post (m : string) :
  bears_body m = false -> String.eqb m "POST" = false.
Proof.
  intros H. destruct (String.eqb_spec m "POST") as [->|]; [|reflexivity].
  vm_compute in H. discriminate H.
Qed.

(** What one iteration of the loop does to the store: it writes
    [request] and [expected_response] of the case, [method],
    [endpoint], [headers] and [body] of the request object [r] of the
    case, and [status] of its expectation object [E]. *)
Lemma patch_case_effect (m e : string) (hdrs sb tc : value) (h h' : heap) (u : unit) :
  patch_case m e hdrs sb tc h = Some (u, h') ->
  exists ltc r E,
    tc = VRef ltc /\ (ltc < length h)%nat /\ (length h <= length h')%nat
    /\ (r < length h')%nat /\ (E < length h')%nat
    /\ read h' tc "request" = VRef r
    /\ (read h tc "request" = VRef r \/ (length h <= r)%nat)
    /\ read h' tc "expected_response" = VRef E
    /\ (read h tc "expected_response" = VRef E \/ (length h <= E)%nat)
    /\ read h' (VRef E) "status" = VNum (patched_status m (read h tc "category"))
    /\ (forall l, (l < length h)%nat ->
          read h' (VRef l) "category" = read h (VRef l) "category")
    /\ (forall l, (l < length h)%nat -> l <> ltc ->
          read h' (VRef l) "expected_response" = read h (VRef l) "expected_response")
    /\ (forall l, (l < length h)%nat -> l <> ltc ->
          read h' (VRef l) "request" = read h (VRef l) "request")
    /\ (forall l, (l < length h)%nat -> l <> E ->
          read h' (VRef l) "status" = read h (VRef l) "status")
    /\ (forall l, (l < length h)%nat -> l <> r ->
          read h' (VRef l) "body" = read h (VRef l) "body")
    /\ (bears_body m = false -> read h' (VRef r) "body" = VUndef)
    /\ (bears_body m = true -> is_str (read h tc "category") "valid" = true ->
        read h' (VRef r) "body" = sb).
Proof.
  unfold patch_case. intros H.
  apply bind_inv in H as (r0 & h0 & Hm & H).
  assert (exists ltc, tc = VRef ltc /\ (ltc < length h)%nat) as (ltc & -> & Hltc).
  { destruct tc as [| | | | |ltc]; try discriminate Hm.
    - apply bind_inv in H as (x & hx & Hx & H).
      assert (Hs : forall k v hy, set (VBool b) k v hy = @None (unit * heap))
        by reflexivity.
      apply bind_inv in H as (y & hy & Hy & H). now rewrite Hs in Hy.
    - apply bind_inv in H as (x & hx & Hx & H).
      apply bind_inv in H as (y & hy & Hy & H). discriminate Hy.
    - apply bind_inv in H as (x & hx & Hx & H).
      apply bind_inv in H as (y & hy & Hy & H). discriminate Hy.
    - exists ltc. split; [reflexivity|]. eapply get_ref; exact Hm. }
  apply get_inv in Hm as [-> ->].
  (* the request object *)
  apply bind_inv in H as (rv & h1 & Hm & H).
  assert (exists r,
             rv = VRef r /\ (length h <= length h1)%nat /\ (r < length h1)%nat
             /\ (read h (VRef ltc) "request" = VRef r \/ (length h <= r)%nat)
             /\ forall l k, (l < length h)%nat ->
                  read h1 (VRef l) k = read h (VRef l) k) as Hreq.
  { destruct (truthy (read h (VRef ltc) "request")) eqn:Et.
    - apply ret_inv in Hm as [-> ->].
      step_set H. step_get H. norm_in H. step_set H.
      match goal with
      | Hx : read h (VRef ltc) "request" = VRef ?l |- _ =>
          exists l; rewrite Hx; split; [reflexivity|]; split; [lia|];
          split; [lia|]; split; [now left | reflexivity]
      end.
    - apply new_obj_inv in Hm as (-> & Hlen & Hrd).
      exists (length h). split; [reflexivity|]. split; [lia|]. split; [lia|].
      split; [now right|]. intros l k Hl. rewrite Hrd. now rewrite decide_False by lia. }
  clear Hm. destruct Hreq as (r & -> & Hlen1 & Hr1 & Horigin & Hsame1).
  step_set H. step_get H. norm_in H. step_set H.
  step_get H. norm_in H. step_set H.
  step_get H. norm_in H. step_set H.
  assert (read h4 (VRef ltc) "request" = VRef r) as Hr4 by (norm_goal; reflexivity).
  assert (forall l k, (l < length h)%nat ->
            k <> "request" -> k <> "method" -> k <> "endpoint" -> k <> "headers" ->
            read h4 (VRef l) k = read h (VRef l) k) as Hframe4.
  { intros l k Hl K1 K2 K3 K4. norm_goal. now apply Hsame1. }
  assert (forall l, (l < length h)%nat -> l <> ltc ->
            read h4 (VRef l) "request" = read h (VRef l) "request") as Hreq4.
  { intros l Hl Hne. norm_goal. now apply Hsame1. }
  assert (length h4 = length h1) as Hlen4 by lia.
  (* the body, and the expected status *)
  assert (exists hb ub,
             set_expected_status (VRef ltc) (patched_status m) hb = Some (ub, h')
             /\ (length h4 <= length hb)%nat
             /\ (forall l k, (l < length h4)%nat -> k <> "body" ->
                   read hb (VRef l) k = read h4 (VRef l) k)
             /\ (forall l, (l < length h4)%nat -> l <> r ->
                   read hb (VRef l) "body" = read h4 (VRef l) "body")
             /\ (bears_body m = false -> read hb (VRef r) "body" = VUndef)
             /\ (bears_body m = true ->
                 is_str (read h4 (VRef ltc) "category") "valid" = true ->
                 read hb (VRef r) "body" = sb)) as Hbody.
  { destruct (bears_body m) eqn:Hb.
    - apply bind_inv in H as (ub & hb & Hm & H).
      apply (patch_body_effect sb ltc r h4 hb ub Hr4 ltac:(lia)) in Hm
        as (Hl & Hf & Hfb & Hv).
      exists hb, u. split; [exact H|]. split; [exact Hl|]. split; [exact Hf|].
      split; [exact Hfb|]. split; [discriminate | intros _; exact Hv].
    - step_get H. rewrite Hr4 in H.
      apply bind_inv in H as (ud & hb & Hm & H). step_delete Hm.
      exists hb, u. split.
      { rewrite <- H. f_equal.
        (* both status functions agree when the method is not POST *)
        unfold patched_status. rewrite (no_body_not_post m Hb). reflexivity. }
      split; [lia|].
      split; [intros l k Hl Hk; rewrite Hrd3; now decide_no|].
      split; [intros l Hl Hne; rewrite Hrd3; now decide_no|].
      split; [intros _; rewrite Hrd3; now decide_yes | discriminate]. }
  clear H. destruct Hbody as (hb & ub & H & Hlenb & Hfb & Hbodyb & Hnob & Hvalb).
  apply set_expected_status_effect in H
    as (ltc' & E & Htc & Hltc' & Hlen' & HE & HrE & HoE & Hstatus & Hframe' & Hst').
  inversion Htc; subst ltc'. clear Htc.
  assert (forall k, k <> "body" -> k <> "request" -> k <> "method" ->
            k <> "endpoint" -> k <> "headers" ->
            read hb (VRef ltc) k = read h (VRef ltc) k) as Hown.
  { intros k K0 K1 K2 K3 K4. rewrite Hfb by (lia || assumption). now apply Hframe4. }
  exists ltc, r, E. split; [reflexivity|]. split; [exact Hltc|]. split; [lia|].
  split; [lia|]. split; [exact HE|].
  split.
  { rewrite Hframe' by (first [lia | key_ne | right; key_ne]).
    rewrite Hfb by (first [lia | key_ne]). exact Hr4. }
  split; [exact Horigin|]. split; [exact HrE|].
  split.
  { destruct HoE as [Ho|Ho]; [left | right; lia].
    rewrite <- Ho. symmetry. apply Hown; key_ne. }
  split.
  { rewrite Hstatus. f_equal. f_equal. apply Hown; key_ne. }
  split.
  { intros l Hl. rewrite Hframe' by (first [lia | key_ne | right; key_ne]).
    rewrite Hfb by (first [lia | key_ne]). apply Hframe4; first [assumption | key_ne]. }
  split.
  { intros l Hl Hne. rewrite Hframe' by (first [lia | key_ne | left; assumption]).
    rewrite Hfb by (first [lia | key_ne]). apply Hframe4; first [assumption | key_ne]. }
  split.
  { intros l Hl Hne. rewrite Hframe' by (first [lia | key_ne | right; key_ne]).
    rewrite Hfb by (first [lia | key_ne]). now apply Hreq4. }
  split.
  { intros l Hl Hne. rewrite Hst' by (first [lia | assumption]).
    rewrite Hfb by (first [lia | key_ne]). apply Hframe4; first [assumption | key_ne]. }
  split.
  { intros l Hl Hne. rewrite Hframe' by (first [lia | key_ne | right; key_ne]).
    rewrite Hbodyb by (first [lia | assumption]).
    apply Hframe4; first [assumption | key_ne]. }
  split.
  { intros Hb. rewrite Hframe' by (first [lia | key_ne | right; key_ne]).
    now apply Hnob. }
  intros Hb Hvalid. rewrite Hframe' by (first [lia | key_ne | right; key_ne]).
  apply Hvalb; [exact Hb|]. rewrite Hframe4 by (first [lia | key_ne]). exact Hvalid.
Qed.

(** *** The loop over the batch *)

(** The layout of a batch as the generation leaves it: the cases are
    distinct objects, in the order of their addresses, all below [n0],
    and the expectation object of a case, when it has one, lies between
    the case before and the case itself. Two cases never share an
    expectation object. *)
Fixpoint separated (h : heap) (lo n0 : nat) (tcs : list value) : Prop :=
  match tcs with
  | [] => True
  | VRef r :: rest =>
      (lo <= r < n0)%nat
      /\ (forall x, read h (VRef r) "expected_response" = VRef x -> (lo <= x < r)%nat)
      /\ separated h (S r) n0 rest
  | _ :: rest => separated h lo n0 rest
  end.

Lemma separated_heap (h h' : heap) (lo n0 : nat) (tcs : list value) :
  (forall l, (lo <= l < n0)%nat ->
     read h' (VRef l) "expected_response" = read h (VRef l) "expected_response") ->
  separated h lo n0 tcs -> separated h' lo n0 tcs.
Proof.
  revert lo; induction tcs as [|tc rest IH]; intros lo Hsame Hsep; [exact I|].
  destruct tc as [| | | | |r]; simpl in *; try (apply IH; assumption).
  destruct Hsep as (Hr & Hx & Hrest). split; [exact Hr|]. split.
  - intros x. rewrite Hsame by exact Hr. apply Hx.
  - apply IH; [|exact Hrest]. intros l Hl. apply Hsame. lia.
Qed.

Lemma separated_weaken (h : heap) (lo lo' n0 n1 : nat) (tcs : list value) :
  (lo' <= lo)%nat -> (n0 <= n1)%nat ->
  separated h lo n0 tcs -> separated h lo' n1 tcs.
Proof.
  revert lo lo'; induction tcs as [|tc rest IH]; intros lo lo' Hlo Hn Hsep; [exact I|].
  destruct tc as [| | | | |r]; simpl in *; try (eapply IH; eassumption).
  destruct Hsep as (Hr & Hx & Hrest). split; [lia|]. split.
  - intros x E. specialize (Hx x E). lia.
  - eapply IH; [apply Nat.le_refl | exact Hn | exact Hrest].
Qed.

(** What the loop leaves in the store. *)
Record patched (m : string) (sb : value) (h h' : heap) (lo n0 : nat)
  (tcs : list value) : Prop := {
  patched_length : (length h <= length h')%nat;
  patched_category : forall l, (l < length h)%nat ->
    read h' (VRef l) "category" = read h (VRef l) "category";
  patched_expected : forall l, (l < lo)%nat -> (l < length h)%nat ->
    read h' (VRef l) "expected_response" = read h (VRef l) "expected_response";
  patched_request : forall l, (l < lo)%nat -> (l < length h)%nat ->
    read h' (VRef l) "request" = read h (VRef l) "request";
  patched_other_status : forall x, (x < length h)%nat -> (x < lo \/ n0 <= x)%nat ->
    read h' (VRef x) "status" = read h (VRef x) "status";
  patched_no_body : bears_body m = false ->
    forall x, (x < length h)%nat -> read h (VRef x) "body" = VUndef ->
    read h' (VRef x) "body" = VUndef;
  patched_other_body : forall x, (x < length h)%nat ->
    (forall tc, tc ∈ tcs -> read h' tc "request" <> VRef x) ->
    read h' (VRef x) "body" = read h (VRef x) "body";
  patched_status_ok : forall tc, tc ∈ tcs ->
    exists E, read h' tc "expected_response" = VRef E
      /\ read h' (VRef E) "status" = VNum (patched_status m (read h' tc "category"));
  patched_body_gone : bears_body m = false -> forall tc, tc ∈ tcs ->
    exists r, read h' tc "request" = VRef r /\ read h' (VRef r) "body" = VUndef;
  patched_body_valid : bears_body m = true ->
    forall i tc, tcs !! i = Some tc ->
      is_str (read h' tc "category") "valid" = true ->
      (forall j tc', (i < j)%nat -> tcs !! j = Some tc' ->
         read h' tc' "request" <> read h' tc "request") ->
      exists r, read h' tc "request" = VRef r /\ read h' (VRef r) "body" = sb
}.

Lemma patch_all_patched (m e : string) (hdrs sb : value) (n0 : nat)
  (tcs : list value) (h h' : heap) (lo : nat) (u : unit) :
  (n0 <= length h)%nat ->
  separated h lo n0 tcs ->
  patch_all m e hdrs sb tcs h = Some (u, h') ->
  patched m sb h h' lo n0 tcs.
Proof.
  revert h lo; induction tcs as [|tc rest IH]; intros h lo Hn0 Hsep H.
  - apply ret_inv in H as [_ ->]. constructor.
    + reflexivity.
    + reflexivity.
    + reflexivity.
    + reflexivity.
    + reflexivity.
    + intros _ x _ Hx. exact Hx.
    + reflexivity.
    + intros tc Hin. now apply elem_of_nil in Hin.
    + intros _ tc Hin. now apply elem_of_nil in Hin.
    + intros _ i tc Hi. now rewrite lookup_nil in Hi.
  - cbn [patch_all] in H. apply bind_inv in H as (u1 & h1 & Hcase & H).
    apply patch_case_effect in Hcase
      as (ltc & r & E & -> & Hltc & Hlen1 & Hr1 & HE1 & Hreq & Horig & Hexp & HorigE
          & Hstat & Hcat & Hfexp & Hfreq & Hfstat & Hfbody & Hnobody & Hvalid).
    simpl in Hsep. destruct Hsep as (Hrange & Hchild & Hrest).
    assert (separated h1 (S ltc) n0 rest) as Hrest1.
    { eapply separated_heap; [|exact Hrest]. intros l Hl. apply Hfexp; lia. }
    specialize (IH h1 (S ltc) ltac:(lia) Hrest1 H).
    destruct IH as [Ilen Icat Iexp Ireq Istat Inobody Iobody Iok Igone Ival].
    assert (E < ltc \/ n0 <= E)%nat as HEpos.
    { destruct HorigE as [Ho|Ho]; [left; apply (Hchild E Ho) | right; lia]. }
    assert (read h' (VRef ltc) "request" = VRef r) as Hreq'.
    { rewrite Ireq by lia. exact Hreq. }
    constructor.
    + lia.
    + intros l Hl. rewrite Icat by lia. now apply Hcat.
    + intros l Hlo Hl. rewrite Iexp by lia. apply Hfexp; lia.
    + intros l Hlo Hl. rewrite Ireq by lia. apply Hfreq; lia.
    + intros x Hx Hpos. rewrite Istat by lia. apply Hfstat; [exact Hx|].
      destruct HorigE as [Ho|Ho]; [specialize (Hchild E Ho)|]; lia.
    + intros Hb x Hx Hundef. apply (Inobody Hb); [lia|].
      destruct (decide (x = r)) as [->|Hne]; [now apply Hnobody|].
      rewrite Hfbody by assumption. exact Hundef.
    + intros x Hx Hnot. rewrite Iobody.
      * apply Hfbody; [exact Hx|]. intros ->. apply (Hnot (VRef ltc)).
        -- apply list_elem_of_here.
        -- exact Hreq'.
      * lia.
      * intros tc Hin. apply Hnot. now apply list_elem_of_further.
    + intros tc Hin. apply elem_of_cons in Hin as [->|Hin]; [|now apply Iok].
      exists E. split.
      * rewrite Iexp by lia. exact Hexp.
      * rewrite Istat by lia. rewrite Hstat. rewrite Icat by lia.
        now rewrite Hcat by lia.
    + intros Hb tc Hin. apply elem_of_cons in Hin as [->|Hin]; [|now apply Igone].
      exists r. split; [exact Hreq'|]. apply (Inobody Hb); [lia|]. now apply Hnobody.
    + intros Hb [|i] tc Hi Hcatv Hlater; simpl in Hi.
      * inversion Hi; subst tc. exists r. split; [exact Hreq'|].
        rewrite Iobody.
        -- apply Hvalid; [exact Hb|]. rewrite Icat, Hcat in Hcatv by lia. exact Hcatv.
        -- lia.
        -- intros tc' Hin Heq. apply list_elem_of_lookup in Hin as [j Hj].
           apply (Hlater (S j) tc' ltac:(lia) Hj). now rewrite Hreq'.
      * apply (Ival Hb i tc Hi Hcatv). intros j tc' Hij Hj.
        apply (Hlater (S j) tc' ltac:(lia) Hj).
Qed.

(** *** The layout of the batches that the generation returns *)

(** Induction on JSON values, with the hypothesis for the elements of an
    array and for the values of an object. *)
Definition json_nested_ind (P : json -> Prop)
  (Hnull : P JNull) (Hbool : forall b, P (JBool b)) (Hnum : forall n, P (JNum n))
  (Hstr : forall s, P (JStr s))
  (Harr : forall l, Forall P l -> P (JArr l))
  (Hobj : forall l, Forall (fun kv => P (snd kv)) l -> P (JObj l))
  : forall j, P j :=
  fix F (j : json) : P j :=
    match j with
    | JNull => Hnull
    | JBool b => Hbool b
    | JNum n => Hnum n
    | JStr s => Hstr s
    | JArr l =>
        Harr l
          ((fix G (l : list json) : Forall P l :=
              match l with
              | [] => @List.Forall_nil _ P
              | x :: l' => @List.Forall_cons _ P x l' (F x) (G l')
              end) l)
    | JObj l =>
        Hobj l
          ((fix G (l : list (string * json)) : Forall (fun kv => P (snd kv)) l :=
              match l with
              | [] => @List.Forall_nil _ (fun kv => P (snd kv))
              | kv :: l' =>
                  @List.Forall_cons _ (fun kv => P (snd kv)) kv l'
                    (match kv return P (snd kv) with (k, v) => F v end) (G l')
              end) l)
    end.

(** The properties of an object, allocated in order. *)
Fixpoint alloc_props (l : list (string * json)) (h : heap)
  : list (string * value) * heap :=
  match l with
  | [] => ([], h)
  | kx :: l' =>
      let '(v, h1) := alloc (snd kx) h in
      let '(ps, h2) := alloc_props l' h1 in
      ((fst kx, v) :: ps, h2)
  end.

Lemma alloc_arr (l : list json) (h : heap) :
  alloc (JArr l) h
  = let '(vs, h1) := alloc_list l h in (VRef (length h1), h1 ++ [Arr vs []]).
Proof. reflexivity. Qed.

Lemma alloc_obj (l : list (string * json)) (h : heap) :
  alloc (JObj l) h
  = let '(ps, h1) := alloc_props l h in (VRef (length h1), h1 ++ [Obj ps]).
Proof. reflexivity. Qed.

(** The object that [alloc] makes for a JSON value is the last cell of
    the new store, and the references it holds point to cells that
    [alloc] made before it. *)
Definition alloc_layout (j : json) : Prop :=
  forall h, exists v h1,
    alloc j h = (v, h1) /\ h `prefix_of` h1
    /\ forall r, v = VRef r ->
         (length h <= r)%nat /\ S r = length h1
         /\ forall k x, read h1 (VRef r) k = VRef x -> (length h <= x < r)%nat.

Lemma alloc_layout_all (j : json) : alloc_layout j.
Proof.
  induction j as [|b|n|s|l IH|l IH] using json_nested_ind; intros h.
  - exists VNull, h. split; [reflexivity|]. split; [reflexivity | discriminate].
  - exists (VBool b), h. split; [reflexivity|]. split; [reflexivity | discriminate].
  - exists (VNum n), h. split; [reflexivity|]. split; [reflexivity | discriminate].
  - exists (VStr s), h. split; [reflexivity|]. split; [reflexivity | discriminate].
  - rewrite alloc_arr.
    assert (exists vs h1, alloc_list l h = (vs, h1) /\ h `prefix_of` h1)
      as (vs & h1 & E & Hp).
    { clear -IH. revert h; induction IH as [|x l Hx _ IHl]; intros h.
      - exists [], h. split; reflexivity.
      - cbn [alloc_list]. destruct (Hx h) as (v & h1 & E1 & P1 & _). rewrite E1.
        destruct (IHl h1) as (vs & h2 & E2 & P2). rewrite E2.
        exists (v :: vs), h2. split; [reflexivity | etrans; eassumption]. }
    rewrite E. exists (VRef (length h1)), (h1 ++ [Arr vs []]).
    split; [reflexivity|]. split; [etrans; [exact Hp | apply prefix_snoc]|].
    intros r Hr; inversion Hr; subst r.
    split; [now apply prefix_length in Hp|].
    split; [rewrite length_app; simpl; lia|].
    intros k x. rewrite read_new. discriminate.
  - rewrite alloc_obj.
    assert (exists ps h1, alloc_props l h = (ps, h1) /\ h `prefix_of` h1
              /\ forall k x, assoc k ps = Some (VRef x) ->
                   (length h <= x < length h1)%nat) as (ps & h1 & E & Hp & Hrefs).
    { clear -IH. revert h; induction IH as [|[k0 x0] l Hx _ IHl]; intros h.
      - exists [], h. split; [reflexivity|]. split; [reflexivity | discriminate].
      - cbn [alloc_props snd fst]. simpl in Hx.
        destruct (Hx h) as (v & h1 & E1 & P1 & Hv). rewrite E1.
        destruct (IHl h1) as (ps & h2 & E2 & P2 & Hps). rewrite E2.
        exists ((k0, v) :: ps), h2. split; [reflexivity|].
        split; [etrans; eassumption|].
        intros k x. simpl. destruct (String.eqb k k0).
        + intros Hk; inversion Hk; subst v.
          destruct (Hv x eq_refl) as (H1 & H2 & _).
          apply prefix_length in P2. lia.
        + intros Hk. specialize (Hps k x Hk).
          apply prefix_length in P1. lia. }
    rewrite E. exists (VRef (length h1)), (h1 ++ [Obj ps]).
    split; [reflexivity|]. split; [etrans; [exact Hp | apply prefix_snoc]|].
    intros r Hr; inversion Hr; subst r.
    split; [now apply prefix_length in Hp|].
    split; [rewrite length_app; simpl; lia|].
    intros k x. rewrite read_new. simpl.
    destruct (assoc k ps) as [v|] eqn:Ek; [|discriminate].
    simpl. intros ->. exact (Hrefs k x Ek).
Qed.

Lemma separated_prefix (h h' : heap) (lo n0 : nat) (tcs : list value) :
  h `prefix_of` h' -> (n0 <= length h)%nat ->
  separated h lo n0 tcs -> separated h' lo n0 tcs.
Proof.
  intros Hp Hn. apply separated_heap. intros l Hl. apply read_prefix; [exact Hp | lia].
Qed.

Lemma alloc_list_separated (l : list json) (h : heap) :
  exists vs h1,
    alloc_list l h = (vs, h1) /\ h `prefix_of` h1
    /\ separated h1 (length h) (length h1) vs.
Proof.
  revert h; induction l as [|x l IH]; intros h.
  - exists [], h. split; [reflexivity|]. split; [reflexivity | exact I].
  - cbn [alloc_list].
    destruct (alloc_layout_all x h) as (v & h1 & E1 & P1 & Hv). rewrite E1.
    destruct (IH h1) as (vs & h2 & E2 & P2 & Hsep). rewrite E2.
    exists (v :: vs), h2. split; [reflexivity|]. split; [etrans; eassumption|].
    pose proof (prefix_length _ _ P1) as L1. pose proof (prefix_length _ _ P2) as L2.
    destruct v as [| | | | |r];
      try (cbn [separated]; eapply separated_weaken;
           [exact L1 | apply Nat.le_refl | exact Hsep]).
    destruct (Hv r eq_refl) as (Hlo & Hlast & Hchild).
    cbn [separated]. split; [lia|]. split.
    + intros y Hy. rewrite (read_prefix h1 h2) in Hy by (assumption || lia).
      exact (Hchild _ _ Hy).
    + now rewrite Hlast.
Qed.

(** The address behind the last case of a batch. *)
Fixpoint frontier (lo : nat) (tcs : list value) : nat :=
  match tcs with
  | [] => lo
  | VRef r :: rest => frontier (S r) rest
  | _ :: rest => frontier lo rest
  end.

Lemma frontier_bounds (h : heap) (lo n0 : nat) (tcs : list value) :
  (lo <= n0)%nat -> separated h lo n0 tcs -> (lo <= frontier lo tcs <= n0)%nat.
Proof.
  revert lo; induction tcs as [|tc rest IH]; intros lo Hlo Hsep; [simpl; lia|].
  destruct tc as [| | | | |r]; simpl in *; try (now apply IH).
  destruct Hsep as (Hr & _ & Hrest). specialize (IH (S r) ltac:(lia) Hrest). lia.
Qed.

Lemma separated_snoc (h : heap) (lo n0 r : nat) (tcs : list value) :
  separated h lo n0 tcs ->
  (frontier lo tcs <= r < n0)%nat ->
  (forall x, read h (VRef r) "expected_response" = VRef x ->
     (frontier lo tcs <= x < r)%nat) ->
  separated h lo n0 (tcs ++ [VRef r]).
Proof.
  revert lo; induction tcs as [|tc rest IH]; intros lo Hsep Hr Hx.
  - simpl in *. auto.
  - destruct tc as [| | | | |r0]; simpl in *; try (now apply IH).
    destruct Hsep as (Hr0 & Hx0 & Hrest). split; [exact Hr0|]. split; [exact Hx0|].
    now apply IH.
Qed.

Lemma separated_take (h : heap) (lo n0 n : nat) (tcs : list value) :
  separated h lo n0 tcs -> separated h lo n0 (take n tcs).
Proof.
  revert lo n; induction tcs as [|tc rest IH]; intros lo n Hsep.
  - now rewrite take_nil.
  - destruct n as [|n]; [exact I|]. simpl take.
    destruct tc as [| | | | |r]; simpl in *; try (now apply IH).
    destruct Hsep as (Hr & Hx & Hrest). split; [exact Hr|]. split; [exact Hx|].
    now apply IH.
Qed.

(** A case that the code makes has a new expectation object, made just
    before the case. *)
Lemma filler_layout (idx : nat) (first : value) (h : heap) :
  exists r h1,
    filler idx first h = (VRef r, h1) /\ h `prefix_of` h1 /\ S r = length h1
    /\ read h1 (VRef r) "expected_response" = VRef (r - 1)%nat
    /\ (length h <= r - 1 < r)%nat.
Proof.
  unfold filler.
  destruct (truthy (read h first "request")); rewrite !fresh_spec;
    (eexists _, _; split; [reflexivity|]; split; [|split; [|split]];
     [repeat (etrans; [|apply prefix_snoc]); reflexivity
     |rewrite !length_app; simpl; lia
     |rewrite read_new; simpl; f_equal; rewrite ?length_app; simpl; lia
     |rewrite ?length_app; simpl; lia]).
Qed.

Lemma fill_separated (fuel : nat) (vs : list value) (h : heap) (lo : nat) :
  (lo <= length h)%nat ->
  separated h lo (length h) vs ->
  exists tcs h1,
    fill fuel vs h = (tcs, h1) /\ h `prefix_of` h1
    /\ separated h1 lo (length h1) tcs.
Proof.
  revert vs h; induction fuel as [|fuel IH]; intros vs h Hlo Hsep.
  - exists vs, h. split; [reflexivity|]. split; [reflexivity | exact Hsep].
  - cbn [fill]. destruct (Nat.ltb (length vs) 12).
    + destruct (filler_layout (length vs + 1) (default VUndef (head vs)) h)
        as (r & h1 & E & P1 & Hlast & Hexp & Hpos).
      rewrite E. pose proof (prefix_length _ _ P1) as L1.
      pose proof (frontier_bounds h lo (length h) vs Hlo Hsep) as Hf.
      destruct (IH (vs ++ [VRef r]) h1 ltac:(lia)) as (tcs & h2 & E2 & P2 & Hsep2).
      { apply separated_snoc.
        - eapply separated_weaken; [apply Nat.le_refl | exact L1 |].
          eapply separated_prefix; [exact P1 | apply Nat.le_refl | exact Hsep].
        - lia.
        - intros x. rewrite Hexp. intros Hx; inversion Hx; subst x. lia. }
      exists tcs, h2. split; [exact E2|]. split; [etrans; eassumption | exact Hsep2].
    + exists vs, h. split; [reflexivity|]. split; [reflexivity | exact Hsep].
Qed.

Lemma fallback_case_layout (i : nat) (h : heap) :
  exists r h1,
    fallback_case i h = (VRef r, h1) /\ h `prefix_of` h1 /\ S r = length h1
    /\ read h1 (VRef r) "expected_response" = VRef (r - 1)%nat
    /\ (length h <= r - 1 < r)%nat.
Proof.
  unfold fallback_case. rewrite !fresh_spec.
  eexists _, _. split; [reflexivity|]. split; [|split; [|split]].
  - repeat (etrans; [|apply prefix_snoc]). reflexivity.
  - rewrite !length_app. simpl. lia.
  - rewrite read_new. simpl. f_equal. rewrite ?length_app. simpl. lia.
  - rewrite ?length_app. simpl. lia.
Qed.

Lemma fallback_from_separated (indices : list nat) (h : heap) :
  exists tcs h1,
    fallback_from indices h = (tcs, h1) /\ h `prefix_of` h1
    /\ separated h1 (length h) (length h1) tcs.
Proof.
  revert h; induction indices as [|i rest IH]; intros h.
  - exists [], h. split; [reflexivity|]. split; [reflexivity | exact I].
  - cbn [fallback_from].
    destruct (fallback_case_layout i h) as (r & h1 & E & P1 & Hlast & Hexp & Hpos).
    rewrite E. destruct (IH h1) as (tcs & h2 & E2 & P2 & Hsep). rewrite E2.
    exists (VRef r :: tcs), h2. split; [reflexivity|]. split; [etrans; eassumption|].
    pose proof (prefix_length _ _ P1) as L1. pose proof (prefix_length _ _ P2) as L2.
    cbn [separated]. split; [lia|]. split.
    + intros x. rewrite (read_prefix h1 h2) by (assumption || lia). rewrite Hexp.
      intros Hx; inversion Hx; subst x. lia.
    + now rewrite Hlast.
Qed.

End PatchFacts.

Section PatchedBatch.

Import JsString Json Coerce Store StoreFacts PatchFacts.

Variable JSON_parse : string -> option json.
Variable ceil_millis : string -> option Z.

Lemma fallback_separated (h : heap) (tcs : list value) (h' : heap) :
  fallback h = Returned tcs h' -> separated h' 0 (length h') tcs.
Proof.
  unfold fallback, generateFallbackTestCases.
  destruct (fallback_from_separated (seq 1 12) h) as (tcs0 & h1 & E & _ & Hsep).
  rewrite E. intros H; inversion H; subst.
  eapply separated_weaken; [apply Nat.le_0_l | apply Nat.le_refl | exact Hsep].
Qed.

Lemma on_reply_separated (text : string) (h : heap) (tcs : list value) (h' : heap) :
  on_reply JSON_parse text h = inr (tcs, h') -> separated h' 0 (length h') tcs.
Proof.
  unfold on_reply. destruct (recovered JSON_parse text) as [l|]; [|discriminate].
  destruct (Nat.ltb (length l) 4); [discriminate|].
  destruct (alloc_list_separated l h) as (vs & h1 & E1 & P1 & Hsep1). rewrite E1.
  destruct (fill_separated 12 vs h1 (length h) (prefix_length _ _ P1) Hsep1)
    as (tcs0 & h2 & E2 & P2 & Hsep2).
  rewrite E2. intros H; inversion H; subst.
  apply separated_take.
  eapply separated_weaken; [apply Nat.le_0_l | apply Nat.le_refl | exact Hsep2].
Qed.

Lemma attempts_separated (remaining attempt maxRetries : nat) (w : world) (h : heap)
  (tcs : list value) (h' : heap) (t : list event) :
  attempts JSON_parse ceil_millis remaining attempt maxRetries w h
  = (Returned tcs h', t) ->
  separated h' 0 (length h') tcs.
Proof.
  revert attempt t; induction remaining as [|remaining IH]; intros attempt t H.
  - cbn [attempts] in H. apply pair_equal_spec in H as [H _].
    now apply fallback_separated in H.
  - rewrite attempts_unfold in H. unfold tried in H.
    assert (forall e,
              match react ceil_millis attempt maxRetries e (random w attempt) with
              | FallbackNow => (fallback h, [Invoke attempt])
              | Rethrow => (Thrown e, [Invoke attempt])
              | WaitThenNext ms =>
                  let '(o, t) :=
                    attempts JSON_parse ceil_millis remaining (S attempt) maxRetries w h in
                  (o, Invoke attempt :: Sleep ms :: t)
              | Next =>
                  let '(o, t) :=
                    attempts JSON_parse ceil_millis remaining (S attempt) maxRetries w h in
                  (o, Invoke attempt :: t)
              end = (Returned tcs h', t) -> separated h' 0 (length h') tcs) as Hcatch.
    { intros e He.
      destruct (react ceil_millis attempt maxRetries e (random w attempt)).
      - apply pair_equal_spec in He as [He _]. now apply fallback_separated in He.
      - apply pair_equal_spec in He as [He _]. discriminate He.
      - destruct (attempts JSON_parse ceil_millis remaining (S attempt) maxRetries w h)
          as [o t1] eqn:E.
        apply pair_equal_spec in He as [-> _]. eapply IH; exact E.
      - destruct (attempts JSON_parse ceil_millis remaining (S attempt) maxRetries w h)
          as [o t1] eqn:E.
        apply pair_equal_spec in He as [-> _]. eapply IH; exact E. }
    destruct (model w attempt) as [text|e]; [|now apply (Hcatch e)].
    destruct (on_reply JSON_parse text h) as [e|[tcs1 h1]] eqn:Er;
      [now apply (Hcatch e)|].
    apply pair_equal_spec in H as [H _]. inversion H; subst.
    eapply on_reply_separated; exact Er.
Qed.

(** C4 (amended). After the patching step, every case of a batch that
    the generation returned has the expected status 400 unless its
    category is [valid], and then 201 when the method is POST and 200
    for any other method, whatever [expected_response.status] the
    specification gives; for a method that bears no body the request
    of every case has no body; for POST, PUT and PATCH the request of a
    [valid] case has the very body of the specification, provided no
    later case of the batch has the same request object. *)
Theorem patched_batch (maxRetries : nat) (w : world) (h2 : heap)
  (m e : string) (hdrs spec_body : value)
  (tcs : list value) (h3 h4 : heap) (t : list event) (u : unit) :
  generateWithRetry JSON_parse ceil_millis maxRetries w h2 = (Returned tcs h3, t) ->
  patch_all m e hdrs spec_body tcs h3 = Some (u, h4) ->
  forall i tc, tcs !! i = Some tc ->
    (exists E,
       read h4 tc "expected_response" = VRef E
       /\ read h4 (VRef E) "status"
          = VNum (if is_str (read h4 tc "category") "valid"
                  then (if String.eqb m "POST" then 201 else 200)
                  else 400))
    /\ (bears_body m = false ->
        exists r, read h4 tc "request" = VRef r /\ read h4 (VRef r) "body" = VUndef)
    /\ (bears_body m = true ->
        is_str (read h4 tc "category") "valid" = true ->
        (forall j tc', (i < j)%nat -> tcs !! j = Some tc' ->
           read h4 tc' "request" <> read h4 tc "request") ->
        exists r, read h4 tc "request" = VRef r /\ read h4 (VRef r) "body" = spec_body).
Proof.
  intros Hgen Hpatch i tc Hi.
  apply attempts_separated in Hgen.
  pose proof (patch_all_patched m e hdrs spec_body (length h3) tcs h3 h4 0 u
                (Nat.le_refl _) Hgen Hpatch) as P.
  assert (tc ∈ tcs) as Hin by (eapply list_elem_of_lookup_2; exact Hi).
  split; [exact (patched_status_ok _ _ _ _ _ _ _ P tc Hin)|].
  split.
  - intros Hb. exact (patched_body_gone _ _ _ _ _ _ _ P Hb tc Hin).
  - intros Hb. exact (patched_body_valid _ _ _ _ _ _ _ P Hb i tc Hi).
Qed.

End PatchedBatch.

(** ** The cases of a returned batch *)

Section OwnCases.

Import JsString Json Coerce Store StoreFacts PatchFacts.

Variable JSON_parse : string -> option json.
Variable ceil_millis : string -> option Z.










Local Opaque fallback.



End OwnCases.

(** ** The error of the patching step *)

Section PatchFault.

Import JsString Json Coerce Store StoreFacts PatchFacts.

(** The body of the loop is [patch_request] followed by the assignment
    of the expected status. *)
Lemma patch_case_split (m e : string) (hdrs spec_body tc : value) (h : heap) :
  patch_case m e hdrs spec_body tc h
  = match patch_request m e hdrs spec_body tc h with
    | Some (_, h') =>
        set_expected_status tc
          (fun category =>
             if bears_body m
             then (if is_str category "valid"
                   then (if String.eqb m "POST" then 201 else 200)
                   else 400)
             else (if is_str category "valid" then 200 else 400)) h'
    | None => None
    end.
Proof.
  unfold patch_case, patch_request, bind.
  destruct (get tc "request" h) as [[r0 h0]|]; [|reflexivity].
  destruct ((if truthy r0 then ret r0 else new_obj []) h0) as [[r h1]|]; [|reflexivity].
  destruct (set tc "request" r h1) as [[u1 h2]|]; [|reflexivity].
  destruct (get tc "request" h2) as [[r1 h3]|]; [|reflexivity].
  destruct (set r1 "method" (VStr m) h3) as [[u2 h4]|]; [|reflexivity].
  destruct (get tc "request" h4) as [[r2 h5]|]; [|reflexivity].
  destruct (set r2 "endpoint" (VStr e) h5) as [[u3 h6]|]; [|reflexivity].
  destruct (get tc "request" h6) as [[r3 h7]|]; [|reflexivity].
  destruct (set r3 "headers" hdrs h7) as [[u4 h8]|]; [|reflexivity].
  destruct (bears_body m).
  - destruct (patch_body spec_body tc h8) as [[u5 h9]|]; reflexivity.
  - destruct (get tc "request" h8) as [[r4 h9]|]; [|reflexivity].
    destruct (delete r4 "body" h9) as [[u5 h10]|]; reflexivity.
Qed.

(** The loop throws at a case that is [null] or a primitive: reading
    [tc.request] of [null] throws, and so does the assignment to
    [tc.request] of a primitive. *)
Lemma patch_case_primitive (m e : string) (hdrs spec_body tc : value) (h : heap) :
  (forall l, tc <> VRef l) ->
  patch_case m e hdrs spec_body tc h = None
  /\ patch_case_fault m e hdrs spec_body tc h
     = match tc with
       | VUndef | VNull => cannot_read tc "request"
       | _ => cannot_create "request" tc
       end.
Proof.
  intros Hprim. rewrite patch_case_split. unfold patch_case_fault.
  assert (patch_request m e hdrs spec_body tc h = None) as ->.
  { unfold patch_request, bind.
    destruct tc as [| |b|n|s|l]; try reflexivity. now destruct (Hprim l). }
  split; [reflexivity|]. destruct tc; try reflexivity. now destruct (Hprim l).
Qed.

End PatchFault.

(** ** The properties on the scenarios *)

Section Scenarios.

Import JsString Json Coerce JsonReader Runtime Store StoreFacts Regex JsStringFacts.
Import Execution Limiter Scenario.




Lemma generateWithRetry_errors_witness :
  generation model_refuses = (Thrown key_refused, [Invoke 1])
  /\ fst (generation model_down) = fallback [].
Proof.
  split.
  - apply (proj2 (proj2 (generateWithRetry_errors parse_json ceil_millis_exact 3
                           model_refuses [])) 2%nat 1%nat key_refused);
      vm_compute; reflexivity.
  - apply (proj1 (proj2 (generateWithRetry_errors parse_json ceil_millis_exact 3
                           model_down []))).
    intros k. exists (plain_error "fetch failed").
    split; [reflexivity | right; vm_compute; reflexivity].
Defined.

(** C3, as stated, fails: a batch of three tests is run with the
    concurrency [-1], which the limiter refuses; the route answers with
    its error response and with no results at all. *)
Lemma refused_concurrency_no_results :
  three_probes <> []
  /\ run_tests any_url None (Some (JArr three_probes)) None None (Some (JNum (-1)))
       second_refused = ExecutionError
  /\ ~ exists results summary,
         run_tests any_url None (Some (JArr three_probes)) None None (Some (JNum (-1)))
           second_refused = Completed results summary.
Proof.
  split; [discriminate|].
  assert (run_tests any_url None (Some (JArr three_probes)) None None
            (Some (JNum (-1))) second_refused = ExecutionError) as H
    by (vm_compute; reflexivity).
  split; [exact H|]. intros (results & summary & E). rewrite H in E. discriminate E.
Qed.

(** A batch with a [null] entry: the [catch] of [executeTest] reads
    [test.id] and throws in its turn, and the run gives no results for
    the other tests either. *)
Lemma null_entry_no_results :
  run_tests any_url None (Some (JArr [probe_case 200; JNull])) None None
    (Some (JNum 2)) (fun _ => answers_ok) = ExecutionError.
Proof. vm_compute; reflexivity. Qed.

Lemma run_tests_results_witness :
  (exists results summary,
     probes_run second_refused = Completed results summary
     /\ length results = length three_probes
     /\ (n_passed summary + n_failed summary + n_errors summary)%nat = total summary
     /\ (exists r, results !! 1%nat = Some r /\ res_status r = ERROR)
     /\ exists results' summary',
          probes_run (fun _ => answers_ok) = Completed results' summary'
          /\ results' !! 0%nat = results !! 0%nat
          /\ results' !! 2%nat = results !! 2%nat)
  /\ run_tests any_url None (Some (JArr three_probes)) None None (Some (JNum (-1)))
       second_refused = ExecutionError.
Proof.
  split.
  - destruct (proj1 (run_tests_results any_url None None None (Some (JNum 2))
                       three_probes second_refused ltac:(discriminate) eq_refl) 2)
      as (results & summary & Hrun & Hlen & _ & _ & Hsum & _ & Herr & Hother);
      [repeat constructor; discriminate | reflexivity | lia |].
    exists results, summary. split; [exact Hrun|]. split; [exact Hlen|].
    split; [exact Hsum|]. split.
    + apply (Herr 1%nat (probe_case 404)); [reflexivity|].
      intros cfg. eexists. reflexivity.
    + destruct (Hother (fun _ => answers_ok)) as (results' & summary' & Hrun' & Hsame).
      exists results', summary'. split; [exact Hrun'|].
      split; apply Hsame; intros cfg; reflexivity.
  - apply (proj2 (run_tests_results any_url None None None (Some (JNum (-1)))
                    three_probes second_refused ltac:(discriminate) eq_refl)).
    intros c Hc. vm_compute in Hc. inversion Hc. lia.
Defined.

(** C4, as stated, fails: the specification of POST /users gives the
    expected status 200, and the first case of the patched batch, of the
    category [valid], expects 201. *)
Lemma status_not_overridden :
  validate (users_spec "/users" "POST") = inr users_validated
  /\ prop (expected_response users_validated) "status" = Some (JNum 200)
  /\ fst (fst (users_run model_down))
     = Respond 200 (payload (fst (fst (users_run model_down))))
  /\ field1 (case_at (payload (fst (fst (users_run model_down)))) 0) "category"
     = Some (JStr "valid")
  /\ field2 (case_at (payload (fst (fst (users_run model_down)))) 0)
       "expected_response" "status" = Some (JNum 201)
  /\ JNum 201 <> JNum 200.
Proof.
  repeat split; try (vm_compute; reflexivity). discriminate.
Qed.

(** The cases filled in behind a reply share the request object of the
    first case: after the loop, the first case, of the category [valid],
    carries the body written for the last case. *)
Lemma shared_request_overwritten :
  field1 (case_at (payload (fst (fst (users_run model_four_labelled)))) 0) "category"
  = Some (JStr "valid")
  /\ field2 (case_at (payload (fst (fst (users_run model_four_labelled)))) 0)
       "request" "body"
     = Some (JObj [("name", JStr "<script>alert('XSS')</script>");
                   ("email", JStr "test@test.com' OR '1'='1")])
  /\ field2 (case_at (payload (fst (fst (users_run model_four_labelled)))) 1)
       "request" "body" = Some users_body.
Proof. repeat split; vm_compute; reflexivity. Qed.

Lemma patched_batch_witness :
  let tcs := cases_of (fst (generation model_four_labelled)) in
  let h4 := patched_heap model_four_labelled (VStr "the body") in
  (exists E,
     read h4 (default VUndef (tcs !! 1%nat)) "expected_response" = VRef E
     /\ read h4 (VRef E) "status"
        = VNum (if is_str (read h4 (default VUndef (tcs !! 1%nat)) "category") "valid"
                then (if String.eqb "POST" "POST" then 201 else 200)
                else 400))
  /\ (bears_body "POST" = false ->
      exists r, read h4 (default VUndef (tcs !! 1%nat)) "request" = VRef r
                /\ read h4 (VRef r) "body" = VUndef)
  /\ (bears_body "POST" = true ->
      is_str (read h4 (default VUndef (tcs !! 1%nat)) "category") "valid" = true ->
      (forall j tc', (1 < j)%nat -> tcs !! j = Some tc' ->
         read h4 tc' "request" <> read h4 (default VUndef (tcs !! 1%nat)) "request") ->
      exists r, read h4 (default VUndef (tcs !! 1%nat)) "request" = VRef r
                /\ read h4 (VRef r) "body" = VStr "the body").
Proof.
  intros tcs h4.
  assert (generateWithRetry parse_json ceil_millis_exact 3 model_four_labelled []
          = (Returned tcs (heap_of (fst (generation model_four_labelled))),
             snd (generation model_four_labelled))) as Hgen
    by (vm_compute; reflexivity).
  assert (patch_all "POST" "/users" VNull (VStr "the body") tcs
            (heap_of (fst (generation model_four_labelled))) = Some (tt, h4))
    as Hpatch by (vm_compute; reflexivity).
  apply (patched_batch parse_json ceil_millis_exact 3 model_four_labelled []
           "POST" "/users" VNull (VStr "the body") tcs
           (heap_of (fst (generation model_four_labelled))) h4
           (snd (generation model_four_labelled)) tt Hgen Hpatch 1%nat).
  vm_compute; reflexivity.
Defined.


Lemma free_tier_disabled_fallback_witness :
  isQuota quota_zero = true /\ freeTierDisabled quota_zero = true
  /\ generation model_without_quota = (fallback [], [Invoke 1]).
Proof.
  split; [vm_compute; reflexivity|]. split; [vm_compute; reflexivity|].
  apply (proj1 (free_tier_disabled_fallback parse_json ceil_millis_exact 3
                  model_without_quota []) 2%nat 1%nat quota_zero);
    vm_compute; reflexivity.
Defined.

(** C7, as stated, fails: the server advises a delay of 120000 ms, and
    the wait before the next attempt is 60000 ms, less than advised. *)
Lemma capped_wait_below_advised_delay :
  isQuota (retry_in "120") = true
  /\ freeTierDisabled (retry_in "120") = false
  /\ retryDelayMs ceil_millis_exact (retry_in "120") = Some 120000
  /\ snd (generation (model_throttled "120"))
     = [Invoke 1; Sleep 60000; Invoke 2; Sleep 60000; Invoke 3; Sleep 60000]
  /\ 60000 = Z.min (120000 + 500) 60000
  /\ ~ 120000 <= 60000.
Proof. repeat split; try (vm_compute; reflexivity). lia. Qed.

Lemma quota_wait_witness :
  In (Invoke 1) (snd (generation (model_throttled "2")))
  /\ retryDelayMs ceil_millis_exact (retry_in "2") = Some 2000
  /\ exists ms t0 t1,
       snd (generation (model_throttled "2")) = t0 ++ Invoke 1 :: Sleep ms :: t1
       /\ ms = Z.min (2000 + 500) 60000 /\ 2000 <= ms <= 60000.
Proof.
  assert (In (Invoke 1) (snd (generation (model_throttled "2")))) as Hin
    by (vm_compute; auto).
  assert (retryDelayMs ceil_millis_exact (retry_in "2") = Some 2000) as Hd
    by (vm_compute; reflexivity).
  split; [exact Hin|]. split; [exact Hd|].
  destruct (quota_wait parse_json ceil_millis_exact 3 (model_throttled "2") []
              (fst (generation (model_throttled "2")))
              (snd (generation (model_throttled "2"))) 1%nat (retry_in "2"))
    as (ms & t0 & t1 & Ht & Hcap & Hdelay & _);
    [vm_compute; reflexivity | exact Hin | reflexivity
    | vm_compute; reflexivity | vm_compute; reflexivity |].
  destruct (Hdelay 2000 Hd ltac:(lia)) as (Hms & _ & Hge).
  exists ms, t0, t1. split; [exact Ht|]. split; [exact Hms|]. lia.
Defined.

Lemma cached_response_witness :
  exists js summary msg,
    payload (fst (fst (users_run model_down)))
    = JObj [("success", JBool true); ("testCases", JArr js);
            ("summary", summary); ("message", JStr msg)]
    /\ (forall t_get2 t_set2 w2,
          t_get2 <= 5 + stdTTL_ms ->
          generate_tests parse_json ceil_millis_exact
            (Some (users_spec "/users" "POST")) t_get2 t_set2 w2
            (snd (fst (users_run model_down)))
          = (Respond 200
               (JObj [("success", JBool true); ("testCases", JArr js);
                      ("summary", summary); ("message", JStr msg);
                      ("cached", JBool true)]),
             snd (fst (users_run model_down)), []))
    /\ (forall t_get2 t_set2 w2,
          5 + stdTTL_ms < t_get2 ->
          fst (cache_get (cacheKey users_validated) t_get2
                 (snd (fst (users_run model_down)))) = None
          /\ exists tr2,
               snd (generate_tests parse_json ceil_millis_exact
                      (Some (users_spec "/users" "POST")) t_get2 t_set2 w2
                      (snd (fst (users_run model_down))))
               = Invoke 1 :: tr2).
Proof.
  apply (cached_response parse_json ceil_millis_exact
           (users_spec "/users" "POST") (users_spec "/users" "POST")
           users_validated users_validated 0 5 model_down ∅
           (snd (fst (users_run model_down)))
           (payload (fst (fst (users_run model_down))))
           (snd (users_run model_down)));
    [left; eexists; reflexivity | left; eexists; reflexivity
    | vm_compute; reflexivity | vm_compute; reflexivity
    | reflexivity | vm_compute; reflexivity | vm_compute; discriminate].
Defined.

Lemma in_flight_bounded_witness :
  exists mid,
    run 2 [Start; Start] (initial 3) = Some mid
    /\ Z.of_nat (length (in_flight mid)) <= 2
    /\ step 2 Start mid = None.
Proof.
  destruct (in_flight_bounded (Some (JNum 2)) None 2 3 [Start; Start] [Finish 0; Start]
              {| queued := []; in_flight := [1; 2]%nat; finished := [0%nat] |})
    as (mid & Hmid & Hb & _);
    [vm_compute; reflexivity | lia | vm_compute; reflexivity |].
  exists mid. split; [exact Hmid|]. split; [exact Hb|].
  vm_compute in Hmid. inversion Hmid; subst mid. vm_compute; reflexivity.
Defined.

Lemma normalized_requests_share_entry_witness :
  validate (users_spec "  /users " "post") = inr users_validated
  /\ forall t_get2 t_set2 w2,
       t_get2 <= 5 + stdTTL_ms ->
       exists props,
         payload (fst (fst (users_run model_down))) = JObj props
         /\ generate_tests parse_json ceil_millis_exact
              (Some (users_spec "  /users " "post")) t_get2 t_set2 w2
              (snd (fst (users_run model_down)))
            = (Respond 200 (JObj (props ++ [("cached", JBool true)])),
               snd (fst (users_run model_down)), []).
Proof.
  destruct (normalized_requests_share_entry parse_json ceil_millis_exact
              (users_spec "/users" "POST") (users_spec "  /users " "post")
              users_validated "/users" "  /users " "POST" "post")
    as (_ & _ & Hv2 & Hserve);
    [left; eexists; reflexivity | left; eexists; reflexivity
    | vm_compute; reflexivity .. |].
  split; [exact Hv2|].
  intros t_get2 t_set2 w2 Hin.
  assert (generate_tests parse_json ceil_millis_exact
            (Some (users_spec "/users" "POST")) 0 5 model_down ∅
          = (Respond 200 (payload (fst (fst (users_run model_down)))),
             snd (fst (users_run model_down)), snd (users_run model_down)))
    as Hrun by (vm_compute; reflexivity).
  assert (snd (users_run model_down) <> []) as Htr
    by (vm_compute; discriminate).
  exact (Hserve 0 5 model_down ∅ _ _ _ Hrun Htr t_get2 t_set2 w2 Hin).
Defined.

(** A reply whose first case is the number 429: the loop throws at it,
    the message quotes the number, and the route takes the error for a
    quota error. *)
Lemma primitive_case_answer :
  fst (fst (generate_and_store parse_json ceil_millis_exact users_validated 5
              {| model := fun _ => Reply "[429, 1, 2, 3]";
                 random := fun _ => no_random |} ∅))
  = failure 429
      [("error", JStr "Cannot create property 'request' on number '429'");
       ("code", JStr "QUOTA_EXCEEDED");
       ("suggestion", JStr "Try again or check your API configuration.")].
Proof. vm_compute; reflexivity. Qed.

(** The expression that searches the payload for [retryDelay] carries
    the flag [i]: a delay written with the unit [S] is read as well, and
    the next attempt waits for it. *)
Lemma upper_case_unit_delay :
  let e := mk_error "quota exceeded"
             (Some (JObj [("details", JArr [JObj [("retryDelay", JStr "43S")]])]))
             None None None in
  retryDelayMs ceil_millis_exact e = Some 43000
  /\ react ceil_millis_exact 1 3 e no_random = WaitThenNext 43500.
Proof. split; vm_compute; reflexivity. Qed.

End Scenarios.

(** * Further properties of the code *)

(** ** Strings *)

Module MoreStringFacts.

Import JsString JsStringFacts.

Lemma split_first_unfold (p s : string) :
  split_first p s
  = match after_prefix p s with
    | Some rest => Some (EmptyString, rest)
    | None =>
        match s with
        | EmptyString => None
        | String c s' =>
            match split_first p s' with
            | Some (pre, rest) => Some (String c pre, rest)
            | None => None
            end
        end
    end.
Proof. destruct s; reflexivity. Qed.

Lemma includes_occurs (s p : string) : includes s p = true <-> occurs_in p s.
Proof.
  unfold includes. split.
  - destruct (split_first p s) as [[a b]|] eqn:E; [|discriminate].
    intros _. exists a, b. now apply split_first_app.
  - intros (a & b & ->). induction a as [|c a IH].
    + rewrite app_nil_l, split_first_unfold, after_prefix_this. reflexivity.
    + rewrite app_cons, split_first_unfold.
      destruct (after_prefix p (String c (a +:+ p +:+ b))); [reflexivity|].
      destruct (split_first p (a +:+ p +:+ b)) as [[u v]|];
        [reflexivity | discriminate IH].
Qed.

Lemma includes_absent (s p : string) :
  includes s p = false <-> forall a b, s <> a +:+ p +:+ b.
Proof.
  split.
  - intros H a b E. assert (includes s p = true) as T
      by (apply includes_occurs; now exists a, b).
    rewrite H in T. discriminate T.
  - intros H. destruct (includes s p) eqn:E; [|reflexivity].
    apply includes_occurs in E as (a & b & E). now destruct (H a b).
Qed.

Lemma toLowerCase_app (a b : string) :
  toLowerCase (a +:+ b) = toLowerCase a +:+ toLowerCase b.
Proof.
  induction a as [|c a IH]; [reflexivity|].
  rewrite app_cons. cbn [toLowerCase]. now rewrite IH, app_cons.
Qed.

Lemma upper_ascii_idem (c : ascii) : upper_ascii (upper_ascii c) = upper_ascii c.
Proof. destruct c as [[] [] [] [] [] [] [] []]; reflexivity. Qed.

Lemma toUpperCase_idem (s : string) : toUpperCase (toUpperCase s) = toUpperCase s.
Proof.
  induction s as [|c s IH]; [reflexivity|].
  cbn [toUpperCase]. now rewrite upper_ascii_idem, IH.
Qed.

(** A string that neither starts nor ends with white space. *)
Definition starts_clean (s : string) : Prop :=
  match s with
  | EmptyString => True
  | String c _ => is_space c = false
  end.

Lemma trimStart_clean (s : string) : starts_clean (trimStart s).
Proof.
  induction s as [|c s IH]; [exact I|].
  cbn [trimStart]. destruct (is_space c) eqn:E; [exact IH | exact E].
Qed.

Lemma trimStart_id (s : string) : starts_clean s -> trimStart s = s.
Proof.
  destruct s as [|c s]; [reflexivity|]. cbn [starts_clean trimStart].
  now intros ->.
Qed.

Lemma trimEnd_clean (s : string) : starts_clean s -> starts_clean (trimEnd s).
Proof.
  destruct s as [|c s]; [intros _; exact I|].
  cbn [starts_clean trimEnd]. intros E.
  destruct (trimEnd s); [rewrite E|]; exact E.
Qed.

Lemma trimEnd_idem (s : string) : trimEnd (trimEnd s) = trimEnd s.
Proof.
  induction s as [|c s IH]; [reflexivity|].
  cbn [trimEnd]. destruct (trimEnd s) as [|d t] eqn:E.
  - destruct (is_space c) eqn:Ec; [reflexivity|].
    cbn [trimEnd]. now rewrite Ec.
  - cbn [trimEnd]. cbn [trimEnd] in IH.
    destruct (trimEnd t) as [|d' t'] eqn:Et.
    + destruct (is_space d) eqn:Ed; [discriminate IH|]. now rewrite IH.
    + now rewrite IH.
Qed.

Lemma trim_idem (s : string) : trim (trim s) = trim s.
Proof.
  unfold trim.
  rewrite (trimStart_id (trimEnd (trimStart s))).
  - apply trimEnd_idem.
  - apply trimEnd_clean, trimStart_clean.
Qed.

Lemma trim_fixed (s : string) : trim s = s -> trim (trim s) = s.
Proof. intros E. now rewrite !E. Qed.

End MoreStringFacts.

(** ** Validation of a specification *)

Section ValidationFacts.

Import JsString Json Coerce JsStringFacts MoreStringFacts.

(** The marks that [containsPathTraversal] looks for: as they are, and
    in any letter case. *)
Definition traversal_marks : list string :=
  [ "../"; ".." +:+ String backslash EmptyString ].

Definition traversal_marks_ci : list string :=
  [ "%2e%2e/"; "%2e%2e" +:+ String backslash EmptyString; "..%2f";
    "etc/passwd"; "etc" +:+ String backslash EmptyString +:+ "passwd";
    "windows/system"; "windows" +:+ String backslash EmptyString +:+ "system" ].

Lemma containsPathTraversal_clean (t : string) :
  containsPathTraversal t = false ->
  (forall p, In p traversal_marks -> ~ occurs_in p t)
  /\ (forall p, In p traversal_marks_ci -> ~ occurs_in p (toLowerCase t)).
Proof.
  unfold containsPathTraversal. intros H.
  repeat (apply orb_false_iff in H; destruct H as [H ?]).
  split; intros p Hp O; apply includes_occurs in O; cbn [In traversal_marks
    traversal_marks_ci] in Hp;
    repeat (destruct Hp as [<-|Hp]; [congruence|]); exact Hp.
Qed.

Lemma validateEndpoint_idem (s t : string) :
  validateEndpoint (Some (JStr s)) = inr t ->
  validateEndpoint (Some (JStr t)) = inr t.
Proof.
  unfold validateEndpoint. intros H.
  destruct (String.eqb s EmptyString); [discriminate H|].
  destruct (startsWith (trim s) "/") eqn:Hs; [|discriminate H].
  destruct (Nat.ltb 500 (String.length (trim s))) eqn:Hl; [discriminate H|].
  destruct (containsPathTraversal (trim s)) eqn:Hp; [discriminate H|].
  cbn [negb] in H. injection H as <-.
  rewrite trim_idem, Hs, Hl, Hp.
  unfold startsWith in Hs.
  destruct (after_prefix "/" (trim s)) as [r|] eqn:E; [|discriminate Hs].
  apply after_prefix_app in E. rewrite E. reflexivity.
Qed.

(** X1. An endpoint that [validateEndpoint] accepts is the trimmed
    input; it starts with a slash, has at most 500 characters and holds
    none of the path-traversal marks; validating it again gives it
    back. *)
Theorem validateEndpoint_accepted (s t : string) :
  validateEndpoint (Some (JStr s)) = inr t ->
  t = trim s
  /\ (exists r, t = "/" +:+ r)
  /\ (String.length t <= 500)%nat
  /\ (forall p, In p traversal_marks -> ~ occurs_in p t)
  /\ (forall p, In p traversal_marks_ci -> ~ occurs_in p (toLowerCase t))
  /\ validateEndpoint (Some (JStr t)) = inr t.
Proof.
  intros H. pose proof (validateEndpoint_idem _ _ H) as Hidem.
  unfold validateEndpoint in H.
  destruct (String.eqb s EmptyString); [discriminate H|].
  destruct (startsWith (trim s) "/") eqn:Hs; [|discriminate H].
  destruct (Nat.ltb 500 (String.length (trim s))) eqn:Hl; [discriminate H|].
  destruct (containsPathTraversal (trim s)) eqn:Hp; [discriminate H|].
  cbn [negb] in H. injection H as <-.
  split; [reflexivity|]. split.
  { unfold startsWith in Hs.
    destruct (after_prefix "/" (trim s)) as [r|] eqn:E; [|discriminate Hs].
    exists r. now apply after_prefix_app. }
  split; [apply Nat.ltb_ge in Hl; exact Hl|].
  destruct (containsPathTraversal_clean _ Hp) as [H1 H2].
  split; [exact H1|]. split; [exact H2 | exact Hidem].
Qed.

Lemma validateEndpoint_accepted_witness :
  validateEndpoint (Some (JStr "  /users/1 ")) = inr "/users/1"
  /\ validateEndpoint (Some (JStr "/users/1")) = inr "/users/1".
Proof.
  assert (validateEndpoint (Some (JStr "  /users/1 ")) = inr "/users/1") as H
    by (vm_compute; reflexivity).
  split; [exact H|].
  exact (proj2 (proj2 (proj2 (proj2 (proj2 (validateEndpoint_accepted _ _ H)))))).
Defined.

Definition validMethods : list string :=
  ["GET"; "POST"; "PUT"; "PATCH"; "DELETE"; "OPTIONS"; "HEAD"].

Lemma validMethods_mem (u : string) :
  u ∈ ["GET"; "POST"; "PUT"; "PATCH"; "DELETE"; "OPTIONS"; "HEAD"] <-> In u validMethods.
Proof. rewrite <- list_elem_of_In. reflexivity. Qed.

Lemma validateMethod_idem (s u : string) :
  validateMethod (Some (JStr s)) = inr u ->
  validateMethod (Some (JStr u)) = inr u.
Proof.
  unfold validateMethod. intros H.
  destruct (decide (toUpperCase s
                      ∈ ["GET"; "POST"; "PUT"; "PATCH"; "DELETE"; "OPTIONS"; "HEAD"]))
    as [Hin|Hout].
  - rewrite bool_decide_eq_true_2 in H by exact Hin. injection H as <-.
    rewrite toUpperCase_idem. now rewrite bool_decide_eq_true_2 by exact Hin.
  - rewrite bool_decide_eq_false_2 in H by exact Hout. discriminate H.
Qed.

(** X2. [validateMethod] accepts a string exactly when its upper-case
    form is one of the seven methods, and answers with that form, which
    it accepts unchanged; a method that is missing or [null] is refused
    with the same message as an unknown one. *)
Theorem validateMethod_accepted (s : string) :
  (forall u, validateMethod (Some (JStr s)) = inr u ->
     u = toUpperCase s /\ In u validMethods
     /\ validateMethod (Some (JStr u)) = inr u)
  /\ (In (toUpperCase s) validMethods ->
      validateMethod (Some (JStr s)) = inr (toUpperCase s))
  /\ (~ In (toUpperCase s) validMethods ->
      validateMethod (Some (JStr s)) = inl "Invalid HTTP method"
      /\ validateMethod (Some (JStr s)) = validateMethod None
      /\ validateMethod (Some (JStr s)) = validateMethod (Some JNull)).
Proof.
  split; [|split].
  - intros u H. pose proof (validateMethod_idem _ _ H) as Hidem.
    unfold validateMethod in H.
    destruct (decide (toUpperCase s
                        ∈ ["GET"; "POST"; "PUT"; "PATCH"; "DELETE"; "OPTIONS"; "HEAD"]))
      as [Hin|Hout].
    + rewrite bool_decide_eq_true_2 in H by exact Hin. injection H as <-.
      split; [reflexivity|]. split; [now apply validMethods_mem | exact Hidem].
    + rewrite bool_decide_eq_false_2 in H by exact Hout. discriminate H.
  - intros Hin. apply validMethods_mem in Hin. unfold validateMethod.
    now rewrite bool_decide_eq_true_2 by exact Hin.
  - intros Hout. unfold validateMethod.
    rewrite bool_decide_eq_false_2; [now repeat split|].
    intros Hin. apply Hout. now apply validMethods_mem.
Qed.

Lemma validateMethod_accepted_witness :
  validateMethod (Some (JStr "Patch")) = inr "PATCH"
  /\ validateMethod (Some (JStr "PATCH")) = inr "PATCH"
  /\ validateMethod (Some (JStr "fetch")) = inl "Invalid HTTP method".
Proof.
  assert (validateMethod (Some (JStr "Patch")) = inr "PATCH") as H
    by (vm_compute; reflexivity).
  split; [exact H|]. split.
  - exact (proj2 (proj2 (proj1 (validateMethod_accepted "Patch") _ H))).
  - apply (proj2 (proj2 (validateMethod_accepted "fetch"))).
    vm_compute. intros Hin.
    repeat (destruct Hin as [Hin|Hin]; [discriminate Hin|]). exact Hin.
Defined.

(** The object that [JSON.stringify(validatedSpec)] serializes. *)
Definition canonical (v : validated) : json :=
  JObj [("endpoint", JStr (endpoint v)); ("method", JStr (method v));
        ("headers", headers v); ("body", body v);
        ("expected_response", expected_response v)].

Lemma if_truthy_default (o : option json) :
  if_truthy (Some (default (JObj []) (if_truthy o)))
  = Some (default (JObj []) (if_truthy o)).
Proof.
  destruct o as [j|]; [|reflexivity]. cbn [if_truthy].
  destruct (truthy_json j) eqn:E; [|reflexivity].
  cbv [default from_option id if_truthy]. now rewrite E.
Qed.

(** X3. Validation is idempotent: the validated specification,
    submitted as it is serialized for the cache key, validates to
    itself, so that it has the same cache key. *)
Theorem validate_canonical (spec : json) (v : validated) :
  validate spec = inr v ->
  cacheKey v = stringify (canonical v)
  /\ validate (canonical v) = inr v.
Proof.
  intros H. split; [reflexivity|].
  unfold validate in H.
  destruct (validateEndpoint (prop spec "endpoint")) as [|e] eqn:He; [discriminate H|].
  destruct (validateMethod (prop spec "method")) as [|m] eqn:Hm; [discriminate H|].
  injection H as <-.
  assert (validateEndpoint (Some (JStr e)) = inr e) as He'.
  { destruct (prop spec "endpoint") as [[]|]; try discriminate He.
    exact (validateEndpoint_idem _ _ He). }
  assert (validateMethod (Some (JStr m)) = inr m) as Hm'.
  { destruct (prop spec "method") as [[]|]; try discriminate Hm.
    exact (validateMethod_idem _ _ Hm). }
  unfold validate, canonical. cbn [endpoint method headers body expected_response].
  change (prop (JObj ?l) ?k) with (assoc k l).
  cbn [assoc String.eqb Ascii.eqb Bool.eqb].
  rewrite He', Hm'. rewrite !if_truthy_default. reflexivity.
Qed.

End ValidationFacts.

(** ** The effort of the retry loop *)

(** The attempts that a trace records, and the waits. *)
Fixpoint invoked (t : list event) : list nat :=
  match t with
  | [] => []
  | Invoke k :: t' => k :: invoked t'
  | Sleep _ :: t' => invoked t'
  end.

Fixpoint waits (t : list event) : list Z :=
  match t with
  | [] => []
  | Invoke _ :: t' => waits t'
  | Sleep ms :: t' => ms :: waits t'
  end.

Section RetryEffort.

Import JsString Json Coerce Store StoreFacts.

Variable JSON_parse : string -> option json.
Variable ceil_millis : string -> option Z.

Local Opaque fallback.

Lemma react_wait_bounds (attempt maxRetries : nat) (e : js_error) (r : unit_interval)
  (ms : Z) :
  react ceil_millis attempt maxRetries e r = WaitThenNext ms -> 0 < ms <= 60000.
Proof.
  unfold react, USE_IMMEDIATE_FALLBACK_ON_QUOTA, MAX_RETRY_DELAY_MS.
  pose proof (floor_times_bounds r 1000 ltac:(lia)) as Hj.
  pose proof (floor_times_bounds r 300 ltac:(lia)) as Hj'.
  pose proof (backoff_base_bounds attempt) as Hb.
  destruct (isQuota e).
  - destruct (freeTierDisabled e); [discriminate|].
    destruct (retryDelayMs ceil_millis e) as [d|].
    + destruct (Z.eqb_spec d 0) as [->|Hd0]; cbn [negb andb].
      * intros Hw; injection Hw as <-. lia.
      * destruct (Z.ltb_spec 0 d); intros Hw; injection Hw as <-; lia.
    + intros Hw; injection Hw as <-. lia.
  - destruct (isAuth e); [discriminate|].
    destruct (Nat.ltb attempt maxRetries); [|discriminate].
    intros Hw; injection Hw as <-. lia.
Qed.

Lemma attempts_effort (remaining attempt maxRetries : nat) (w : world) (h : heap) :
  let t := snd (attempts JSON_parse ceil_millis remaining attempt maxRetries w h) in
  invoked t = seq attempt (length (invoked t))
  /\ (length (invoked t) <= remaining)%nat
  /\ (0 < remaining -> 0 < length (invoked t))%nat
  /\ (length (waits t) <= length (invoked t))%nat
  /\ Forall (fun ms => 0 < ms <= 60000) (waits t).
Proof.
  revert attempt; induction remaining as [|remaining IH]; intros attempt.
  - cbn. split; [reflexivity|]. split; [lia|]. split; [lia|]. split; [lia|].
    apply List.Forall_nil.
  - cbv zeta. rewrite attempts_unfold.
    assert (let t := [Invoke attempt] in
            invoked t = seq attempt (length (invoked t))
            /\ (length (invoked t) <= S remaining)%nat
            /\ (0 < S remaining -> 0 < length (invoked t))%nat
            /\ (length (waits t) <= length (invoked t))%nat
            /\ Forall (fun ms => 0 < ms <= 60000) (waits t)) as Hone.
    { cbn. split; [reflexivity|]. split; [lia|]. split; [lia|]. split; [lia|].
      apply List.Forall_nil. }
    destruct (tried JSON_parse w attempt h) as [e|[tcs h1]]; [|exact Hone].
    specialize (IH (S attempt)). cbv zeta in IH.
    destruct (react ceil_millis attempt maxRetries e (random w attempt)) as [| |ms|] eqn:Er;
      [exact Hone | exact Hone | |].
    + apply react_wait_bounds in Er.
      destruct (attempts JSON_parse ceil_millis remaining (S attempt) maxRetries w h)
        as [o t1].
      cbn [snd] in *. cbn [invoked waits] in *.
      destruct IH as (I1 & I2 & I3 & I4 & I5).
      cbn [length seq]. split; [now rewrite <- I1|]. split; [lia|]. split; [lia|].
      split; [lia|]. apply List.Forall_cons; [exact Er | exact I5].
    + destruct (attempts JSON_parse ceil_millis remaining (S attempt) maxRetries w h)
        as [o t1].
      cbn [snd] in *. cbn [invoked waits] in *.
      destruct IH as (I1 & I2 & I3 & I4 & I5).
      cbn [length seq]. split; [now rewrite <- I1|]. split; [lia|]. split; [lia|].
      split; [lia|]. exact I5.
Qed.

Lemma sum_waits_bound (l : list Z) :
  Forall (fun ms => 0 < ms <= 60000) l ->
  0 <= fold_right Z.add 0 l <= 60000 * Z.of_nat (length l).
Proof.
  induction 1 as [|ms l Hms _ IH]; [cbn; lia|].
  cbn [fold_right length]. lia.
Qed.

(** X4. Whatever the model does, [generateWithRetry] calls it at least
    once and at most [maxRetries] times, on the attempts 1, 2, ... in
    order; it sleeps at most once behind each call, each time for more
    than 0 and at most 60000 ms, so that it returns within
    [60000 * maxRetries] ms of waiting. *)
Theorem generateWithRetry_effort (maxRetries : nat) (w : world) (h : heap) :
  let t := snd (generateWithRetry JSON_parse ceil_millis maxRetries w h) in
  invoked t = seq 1 (length (invoked t))
  /\ (length (invoked t) <= maxRetries)%nat
  /\ (0 < maxRetries -> 0 < length (invoked t))%nat
  /\ (length (waits t) <= length (invoked t))%nat
  /\ Forall (fun ms => 0 < ms <= 60000) (waits t)
  /\ 0 <= fold_right Z.add 0 (waits t) <= 60000 * Z.of_nat maxRetries.
Proof.
  cbv zeta. unfold generateWithRetry.
  destruct (attempts_effort maxRetries 1 maxRetries w h) as (I1 & I2 & I3 & I4 & I5).
  cbv zeta in *.
  split; [exact I1|]. split; [exact I2|]. split; [exact I3|]. split; [exact I4|].
  split; [exact I5|].
  pose proof (sum_waits_bound _ I5) as Hs. lia.
Qed.

(** The events of a loop in which every attempt is followed by a wait,
    and of one that waits only between attempts. *)
Fixpoint waiting_after (f : nat -> Z) (attempt n : nat) : list event :=
  match n with
  | O => []
  | S n' => Invoke attempt :: Sleep (f attempt) :: waiting_after f (S attempt) n'
  end.

Fixpoint waiting_between (f : nat -> Z) (attempt n : nat) : list event :=
  match n with
  | O => []
  | S O => [Invoke attempt]
  | S n' => Invoke attempt :: Sleep (f attempt) :: waiting_between f (S attempt) n'
  end.

(** The wait that the loop chooses behind the failure of [attempt]. *)
Definition wait_of (maxRetries : nat) (w : world) (h : heap) (attempt : nat) : Z :=
  match tried JSON_parse w attempt h with
  | inl e =>
      match react ceil_millis attempt maxRetries e (random w attempt) with
      | WaitThenNext ms => ms
      | _ => 0
      end
  | inr _ => 0
  end.

Lemma attempts_all_quota (remaining attempt maxRetries : nat) (w : world) (h : heap) :
  (forall k, (attempt <= k < attempt + remaining)%nat ->
     exists e, model w k = Failure e /\ isQuota e = true /\ freeTierDisabled e = false) ->
  attempts JSON_parse ceil_millis remaining attempt maxRetries w h
  = (fallback h, waiting_after (wait_of maxRetries w h) attempt remaining).
Proof.
  revert attempt; induction remaining as [|remaining IH]; intros attempt Hall.
  - reflexivity.
  - rewrite attempts_unfold. cbn [waiting_after]. unfold wait_of at 1.
    destruct (Hall attempt ltac:(lia)) as (e & Hm & Hq & Hf).
    unfold tried. rewrite Hm.
    destruct (react_quota ceil_millis attempt maxRetries e (random w attempt) Hq Hf)
      as (ms & -> & _).
    rewrite IH; [reflexivity|]. intros k Hk. apply Hall. lia.
Qed.

Lemma react_plain (attempt maxRetries : nat) (e : js_error) (r : unit_interval) :
  isQuota e = false -> isAuth e = false ->
  react ceil_millis attempt maxRetries e r
  = if Nat.ltb attempt maxRetries
    then WaitThenNext (backoff_base attempt + floor_times r 300)
    else Next.
Proof. intros Hq Ha. unfold react. now rewrite Hq, Ha. Qed.

Lemma attempts_all_plain (remaining attempt maxRetries : nat) (w : world) (h : heap) :
  (attempt + remaining = S maxRetries)%nat ->
  (forall k, (attempt <= k < attempt + remaining)%nat ->
     exists e, tried JSON_parse w k h = inl e /\ isQuota e = false /\ isAuth e = false) ->
  attempts JSON_parse ceil_millis remaining attempt maxRetries w h
  = (fallback h, waiting_between (wait_of maxRetries w h) attempt remaining).
Proof.
  revert attempt; induction remaining as [|remaining IH]; intros attempt Hsum Hall.
  - reflexivity.
  - rewrite attempts_unfold.
    destruct (Hall attempt ltac:(lia)) as (e & Ht & Hq & Ha).
    destruct remaining as [|remaining].
    + rewrite Ht, (react_plain _ _ _ _ Hq Ha).
      assert (attempt = maxRetries) as -> by lia.
      rewrite Nat.ltb_irrefl. reflexivity.
    + change (waiting_between (wait_of maxRetries w h) attempt (S (S remaining)))
        with (Invoke attempt :: Sleep (wait_of maxRetries w h attempt)
              :: waiting_between (wait_of maxRetries w h) (S attempt) (S remaining)).
      unfold wait_of at 1.
      rewrite Ht, (react_plain _ _ _ _ Hq Ha).
      assert (Nat.ltb attempt maxRetries = true) as -> by (apply Nat.ltb_lt; lia).
      rewrite IH; [reflexivity | lia |]. intros k Hk. apply Hall. lia.
Qed.

(** X5. When every attempt fails with a quota error (whose payload
    does not show a limit of zero), the loop waits behind each of them,
    the last one included, before it returns the fallback batch; when
    every attempt fails otherwise, with a reply that yields fewer than
    four cases or with an error that is neither a quota nor an
    authentication error, it waits only between the attempts, for
    [min (1000 * 2 ^ k) 5000] ms and a jitter below 300 ms. *)
Theorem exhausted_attempts (maxRetries : nat) (w : world) (h : heap) :
  ((forall k, (1 <= k <= maxRetries)%nat ->
      exists e, model w k = Failure e /\ isQuota e = true /\ freeTierDisabled e = false) ->
   generateWithRetry JSON_parse ceil_millis maxRetries w h
   = (fallback h, waiting_after (wait_of maxRetries w h) 1 maxRetries))
  /\ ((forall k, (1 <= k <= maxRetries)%nat ->
         exists e, tried JSON_parse w k h = inl e /\ isQuota e = false /\ isAuth e = false) ->
      generateWithRetry JSON_parse ceil_millis maxRetries w h
      = (fallback h, waiting_between (wait_of maxRetries w h) 1 maxRetries)
      /\ forall k, (1 <= k < maxRetries)%nat ->
           exists jitter, 0 <= jitter < 300
             /\ wait_of maxRetries w h k = Z.min (1000 * 2 ^ Z.of_nat k) 5000 + jitter).
Proof.
  unfold generateWithRetry. split.
  - intros Hall. apply attempts_all_quota. intros k Hk. apply Hall. lia.
  - intros Hall. split.
    + apply attempts_all_plain; [lia|]. intros k Hk. apply Hall. lia.
    + intros k Hk. destruct (Hall k ltac:(lia)) as (e & Ht & Hq & Ha).
      unfold wait_of. rewrite Ht, (react_plain _ _ _ _ Hq Ha).
      assert (Nat.ltb k maxRetries = true) as -> by (apply Nat.ltb_lt; lia).
      exists (floor_times (random w k) 300). split; [|reflexivity].
      apply floor_times_bounds. lia.
Qed.

End RetryEffort.

(** ** The answers of [/generate-tests] *)

Section RouteFacts.

Import JsString Json Coerce Store StoreFacts.

Variable JSON_parse : string -> option json.
Variable ceil_millis : string -> option Z.

Local Opaque fallback.

Lemma classic_object (s : json) : is_object s \/ ~ is_object s.
Proof.
  destruct s; try (right; intros [[? E]|[? E]]; discriminate E);
    left; [right | left]; eexists; reflexivity.
Qed.

Definition status_of (r : response) : Z :=
  match r with Respond st _ => st end.

Lemma generation_error_cases (msg : string) :
  exists code,
    generation_error msg
    = failure (if negb (includes msg "API key")
                  && (includes_ci msg "quota" || includes_ci msg "429"
                      || includes_ci msg "too many requests")
               then 429 else 500)
        [("error", JStr msg); ("code", JStr code);
         ("suggestion", JStr "Try again or check your API configuration.")].
Proof.
  unfold generation_error.
  destruct (includes msg "API key"); [eexists; reflexivity|].
  destruct (includes_ci msg "quota" || includes_ci msg "429"
            || includes_ci msg "too many requests"); eexists; reflexivity.
Qed.

Lemma generation_error_not_400 (msg : string) : status_of (generation_error msg) <> 400.
Proof.
  destruct (generation_error_cases msg) as [code ->]. unfold failure, status_of.
  destruct (negb (includes msg "API key")
            && (includes_ci msg "quota" || includes_ci msg "429"
                || includes_ci msg "too many requests")); discriminate.
Qed.

Lemma generate_and_store_not_400 (v : validated) (t_set : Z) (w : world) (c : cache) :
  status_of (fst (fst (generate_and_store JSON_parse ceil_millis v t_set w c))) <> 400.
Proof.
  unfold generate_and_store.
  destruct (alloc (headers v) []) as [hdrs h1].
  destruct (alloc (body v) h1) as [spec_body h2].
  destruct (generateWithRetry JSON_parse ceil_millis 3 w h2) as [[tcs h3|e] t0];
    [|apply generation_error_not_400].
  destruct (patch_all (method v) (endpoint v) hdrs spec_body tcs h3) as [[u h4]|];
    [|apply generation_error_not_400].
  destruct (responseData h4 tcs); [discriminate | apply generation_error_not_400].
Qed.

(** X6. [/generate-tests] answers 400 exactly when the request has no
    specification object or the specification does not validate, and
    then it neither touches the cache nor calls the model. *)
Theorem refused_requests (spec : option json) (t_get t_set : Z) (w : world) (c : cache) :
  (status_of (fst (fst (generate_tests JSON_parse ceil_millis spec t_get t_set w c))) = 400
   <-> ~ exists s v, spec = Some s /\ is_object s /\ validate s = inr v)
  /\ (status_of (fst (fst (generate_tests JSON_parse ceil_millis spec t_get t_set w c)))
      = 400 ->
      snd (fst (generate_tests JSON_parse ceil_millis spec t_get t_set w c)) = c
      /\ snd (generate_tests JSON_parse ceil_millis spec t_get t_set w c) = []).
Proof.
  assert (forall s, is_object s ->
            generate_tests JSON_parse ceil_millis (Some s) t_get t_set w c
            = match validate s with
              | inl msg =>
                  (failure 400
                     (("error", JStr msg)
                      :: match validation_field s with
                         | Some field => [("field", JStr field)]
                         | None => []
                         end
                      ++ [("code", JStr "VALIDATION_ERROR")]), c, [])
              | inr v =>
                  match cache_get (cacheKey v) t_get c with
                  | (Some (JObj props), c1) =>
                      (Respond 200 (JObj (assoc_set "cached" (JBool true) props)), c1, [])
                  | (_, c1) => generate_and_store JSON_parse ceil_millis v t_set w c1
                  end
              end) as Hobj.
  { intros s [[p ->]|[l ->]]; cbn [generate_tests];
      (destruct (validate _) as [msg|v]; [reflexivity|]);
      destruct (cache_get (cacheKey v) t_get c) as [[[]|] c1]; reflexivity. }
  assert (forall s, ~ is_object s ->
            generate_tests JSON_parse ceil_millis (Some s) t_get t_set w c
            = (failure 400 [("error", JStr "Spec object is required");
                            ("code", JStr "INVALID_SPEC")], c, [])) as Hnot.
  { intros s Hs. destruct s; try reflexivity; exfalso; apply Hs;
      [right | left]; eexists; reflexivity. }
  assert (forall s v, is_object s -> validate s = inr v ->
            status_of (fst (fst (generate_tests JSON_parse ceil_millis (Some s)
                                   t_get t_set w c))) <> 400) as Hok.
  { intros s v Hs Hv. rewrite (Hobj s Hs), Hv.
    destruct (cache_get (cacheKey v) t_get c) as [[j|] c1];
      [|apply generate_and_store_not_400].
    destruct j; try apply generate_and_store_not_400. discriminate. }
  split.
  - split.
    + intros H (s & v & -> & Hs & Hv). exact (Hok s v Hs Hv H).
    + intros Hno. destruct spec as [s|]; [|reflexivity].
      destruct (classic_object s) as [Hs|Hs]; [|now rewrite (Hnot s Hs)].
      rewrite (Hobj s Hs). destruct (validate s) as [msg|v] eqn:Hv; [reflexivity|].
      exfalso. apply Hno. now exists s, v.
  - intros H. destruct spec as [s|]; [|split; reflexivity].
    destruct (classic_object s) as [Hs|Hs]; [|rewrite (Hnot s Hs); split; reflexivity].
    destruct (validate s) as [msg|v] eqn:Hv.
    + rewrite (Hobj s Hs), Hv. split; reflexivity.
    + destruct (Hok s v Hs Hv H).
Qed.

(** X7. An error that [generateWithRetry] throws is never a quota
    error, so that the route answers it with the status 500, never with
    429: with the code [API_KEY_ERROR] when the message holds [API key]
    as written, with [GENERATION_ERROR] otherwise; nothing is stored. *)
Theorem thrown_error_response (v : validated) (t_set : Z) (w : world) (c : cache)
  (e : js_error) (t : list event) :
  generateWithRetry JSON_parse ceil_millis 3 w
    (snd (alloc (body v) (snd (alloc (headers v) [])))) = (Thrown e, t) ->
  generate_and_store JSON_parse ceil_millis v t_set w c
  = (failure 500
       [("error", JStr (message e));
        ("code", JStr (if includes (message e) "API key"
                       then "API_KEY_ERROR" else "GENERATION_ERROR"));
        ("suggestion", JStr "Try again or check your API configuration.")],
     c, t).
Proof.
  intros H. unfold generate_and_store.
  destruct (alloc (headers v) []) as [hdrs h1]. cbn [snd] in H.
  destruct (alloc (body v) h1) as [spec_body h2]. cbn [snd] in H.
  rewrite H.
  apply attempts_thrown in H as (k & t0 & _ & Hq & _).
  unfold isQuota in Hq.
  repeat (apply orb_false_iff in Hq; destruct Hq as [Hq ?]).
  unfold generation_error.
  destruct (includes (message e) "API key"); [reflexivity|].
  match goal with
  | H1 : includes_ci (message e) "quota" = false,
    H2 : includes_ci (message e) "too many requests" = false |- _ =>
      rewrite H1, H2, Hq
  end.
  reflexivity.
Qed.

Lemma generate_and_store_cache (v : validated) (t_set : Z) (w : world) (c1 : cache) :
  let '(r, c2, t) := generate_and_store JSON_parse ceil_millis v t_set w c1 in
  t <> []
  /\ ((status_of r <> 200 /\ c2 = c1)
      \/ exists data, r = Respond 200 data /\ generated_payload data
                      /\ c2 = cache_set (cacheKey v) data t_set c1).
Proof.
  destruct (generate_and_store_trace JSON_parse ceil_millis v t_set w c1) as [t0 Ht].
  destruct (generate_and_store JSON_parse ceil_millis v t_set w c1) as [[r c2] t] eqn:E.
  cbn [snd] in Ht. subst t. split; [discriminate|].
  destruct r as [st data]. destruct (Z.eq_dec st 200) as [->|Hne].
  - right. exists data. split; [reflexivity|].
    exact (generate_and_store_success _ _ _ _ _ _ _ _ _ E).
  - left. split; [exact Hne|].
    revert E. unfold generate_and_store.
    destruct (alloc (headers v) []) as [hdrs h1].
    destruct (alloc (body v) h1) as [spec_body h2].
    destruct (generateWithRetry JSON_parse ceil_millis 3 w h2) as [[tcs h3|e] t1].
    + destruct (patch_all (method v) (endpoint v) hdrs spec_body tcs h3) as [[u h4]|].
      * destruct (responseData h4 tcs) as [d|].
        -- intros E. apply pair_equal_spec in E as [E _].
           apply pair_equal_spec in E as [E _]. injection E as E _. now destruct Hne.
        -- intros E. apply pair_equal_spec in E as [E _].
           now apply pair_equal_spec in E as [_ E].
      * intros E. apply pair_equal_spec in E as [E _].
        now apply pair_equal_spec in E as [_ E].
    + intros E. apply pair_equal_spec in E as [E _].
      now apply pair_equal_spec in E as [_ E].
Qed.

(** X8. A request for a specification that validates touches no entry
    of the cache but its own; the route stores an entry only with a
    fresh answer of status 200, and the entry is that answer, kept for
    one hour from the time it is stored. An answer that reports a
    failure is never stored. *)
Theorem cache_after_request (spec : json) (v : validated) (t_get t_set : Z) (w : world)
  (c c' : cache) (r : response) (t : list event) :
  is_object spec -> validate spec = inr v ->
  generate_tests JSON_parse ceil_millis (Some spec) t_get t_set w c = (r, c', t) ->
  (forall key, key <> cacheKey v -> c' !! key = c !! key)
  /\ (status_of r <> 200 -> c' = snd (cache_get (cacheKey v) t_get c))
  /\ (t = [] -> c' = c)
  /\ (status_of r = 200 -> t <> [] ->
      exists data,
        r = Respond 200 data
        /\ c' !! cacheKey v
           = Some {| entry_value := data; entry_expires := t_set + stdTTL_ms |}).
Proof.
  intros Hs Hv H.
  rewrite (generate_tests_validated JSON_parse ceil_millis _ _ _ _ _ _ Hs Hv) in H.
  assert (forall key, key <> cacheKey v ->
            snd (cache_get (cacheKey v) t_get c) !! key = c !! key) as Hother.
  { intros key Hne. unfold cache_get.
    destruct (c !! cacheKey v) as [en|]; [|reflexivity].
    destruct (Z.leb t_get (entry_expires en)); [reflexivity|].
    cbn [snd]. now rewrite lookup_delete_ne by congruence. }
  assert (forall j c1, cache_get (cacheKey v) t_get c = (Some j, c1) -> c1 = c) as Hhit.
  { unfold cache_get. intros j c1.
    destruct (c !! cacheKey v) as [en|]; [|discriminate].
    destruct (Z.leb t_get (entry_expires en)); [|discriminate].
    intros E. now injection E as _ <-. }
  destruct (cache_get (cacheKey v) t_get c) as [o c1] eqn:Eg. cbn [snd] in *.
  assert (generate_and_store JSON_parse ceil_millis v t_set w c1 = (r, c', t) ->
          (forall key, key <> cacheKey v -> c' !! key = c !! key)
          /\ (status_of r <> 200 -> c' = c1)
          /\ (t = [] -> c' = c)
          /\ (status_of r = 200 -> t <> [] ->
              exists data,
                r = Respond 200 data
                /\ c' !! cacheKey v
                   = Some {| entry_value := data;
                             entry_expires := t_set + stdTTL_ms |})) as Hgen.
  { intros E.
    pose proof (generate_and_store_cache v t_set w c1) as G. rewrite E in G.
    destruct G as [Hne [[Hst ->]|(data & -> & _ & ->)]].
    - split; [exact Hother|]. split; [reflexivity|].
      split; [intros ->; now destruct Hne|]. intros Hst'. now destruct Hst.
    - split.
      { intros key Hk. unfold cache_set. rewrite lookup_insert_ne by congruence.
        now apply Hother. }
      split; [intros Hst; now destruct Hst|].
      split; [intros ->; now destruct Hne|].
      intros _ _. exists data. split; [reflexivity|].
      unfold cache_set. now rewrite lookup_insert_eq. }
  destruct o as [j|]; [|exact (Hgen H)].
  destruct j; try exact (Hgen H).
  apply pair_equal_spec in H as [H <-]. apply pair_equal_spec in H as [<- <-].
  rewrite (Hhit _ _ eq_refl).
  split; [reflexivity|]. split; [intros Hst; now destruct Hst|].
  split; [reflexivity|]. intros _ Hne. now destruct Hne.
Qed.

End RouteFacts.

Section FreshAnswer.

Import JsString Json Coerce Store StoreFacts.

Variable JSON_parse : string -> option json.
Variable ceil_millis : string -> option Z.

Local Opaque fallback.

Lemma is_str_eq (v : value) (s : string) : is_str v s = true -> v = VStr s.
Proof.
  destruct v; try discriminate. cbn [is_str]. intros H.
  apply String.eqb_eq in H. now subst.
Qed.

Lemma count_category_bounds (h : heap) (tcs : list value) :
  0 <= count_category h tcs "valid" /\ 0 <= count_category h tcs "invalid"
  /\ 0 <= count_category h tcs "boundary" /\ 0 <= count_category h tcs "security"
  /\ count_category h tcs "valid" + count_category h tcs "invalid"
     + count_category h tcs "boundary" + count_category h tcs "security"
     <= Z.of_nat (length tcs).
Proof.
  unfold count_category. repeat (split; [lia|]).
  induction tcs as [|tc tcs IH]; [cbn; lia|].
  rewrite !filter_cons. cbn [length].
  repeat case_decide; cbn [length];
    repeat match goal with
           | H : is_str _ _ = true |- _ => apply is_str_eq in H
           end;
    try lia; congruence.
Qed.

Lemma reify_all_length (h : heap) (tcs : list value) (js : list json) :
  reify_all h tcs = Some js -> length js = length tcs.
Proof.
  revert js; induction tcs as [|tc tcs IH]; intros js H.
  - injection H as <-. reflexivity.
  - cbn [reify_all] in H. destruct (toJSON h tc) as [j|]; [|discriminate H].
    destruct (reify_all h tcs) as [js'|]; [|discriminate H].
    injection H as <-. cbn [length]. now rewrite (IH js' eq_refl).
Qed.

(** X9. A fresh answer of status 200 always carries twelve test cases,
    the total 12 and the message [Generated 12 test cases]; its four
    counts by category are those of the cases whose category is one of
    the four names, so that together they are at most 12. *)
Theorem fresh_answer (v : validated) (t_set : Z) (w : world) (c c2 : cache)
  (data : json) (t : list event) :
  generate_and_store JSON_parse ceil_millis v t_set w c = (Respond 200 data, c2, t) ->
  exists js nv ni nb ns,
    data = JObj [("success", JBool true);
                 ("testCases", JArr js);
                 ("summary",
                   JObj [("total", JNum 12); ("valid", JNum nv); ("invalid", JNum ni);
                         ("boundary", JNum nb); ("security", JNum ns)]);
                 ("message", JStr "Generated 12 test cases")]
    /\ length js = 12%nat
    /\ 0 <= nv /\ 0 <= ni /\ 0 <= nb /\ 0 <= ns
    /\ nv + ni + nb + ns <= 12.
Proof.
  unfold generate_and_store.
  destruct (alloc (headers v) []) as [hdrs h1].
  destruct (alloc (body v) h1) as [spec_body h2].
  destruct (generateWithRetry JSON_parse ceil_millis 3 w h2) as [[tcs h3|e] t0] eqn:Eg;
    [|intros H; destruct (generation_error_triple _ _ _ _ _ _ H)].
  destruct (attempts_batch _ _ _ _ _ _ _ _ _ _ Eg) as [Hlen _].
  destruct (patch_all (method v) (endpoint v) hdrs spec_body tcs h3) as [[u h4]|];
    [|intros H; destruct (generation_error_triple _ _ _ _ _ _ H)].
  unfold responseData.
  destruct (reify_all h4 tcs) as [js|] eqn:Ej;
    [|intros H; destruct (generation_error_triple _ _ _ _ _ _ H)].
  intros H. apply pair_equal_spec in H as [H _]. apply pair_equal_spec in H as [H _].
  injection H as <-.
  pose proof (count_category_bounds h4 tcs) as B. rewrite Hlen in B.
  exists js, (count_category h4 tcs "valid"), (count_category h4 tcs "invalid"),
    (count_category h4 tcs "boundary"), (count_category h4 tcs "security").
  rewrite Hlen. split; [reflexivity|].
  split; [rewrite (reify_all_length _ _ _ Ej); exact Hlen|].
  exact B.
Qed.

End FreshAnswer.

(** ** The verdict of a test *)

Section VerdictFacts.

Import JsString Json Coerce Execution JsStringFacts MoreStringFacts.

(** What a response has to meet: the expected status, every text of
    [body_contains] in its body and no text of [body_not_contains]. *)
Definition meets (r : http_response) (expected : option json) : Prop :=
  opt_prop expected "status" = Some (JNum (resp_status r))
  /\ (forall text, In text (listed (opt_prop expected "body_contains")) ->
        occurs_in (to_js_string text) (body_text (resp_data r)))
  /\ (forall text, In text (listed (opt_prop expected "body_not_contains")) ->
        ~ occurs_in (to_js_string text) (body_text (resp_data r))).

Lemma forallb_contains (data : json) (texts : list json) :
  forallb check_passed (contains_checks data texts) = true
  <-> forall text, In text texts -> occurs_in (to_js_string text) (body_text data).
Proof.
  unfold contains_checks. rewrite forallb_forall. split.
  - intros H text Hin. apply includes_occurs.
    apply (H _ (in_map _ _ _ Hin)).
  - intros H d Hd. apply in_map_iff in Hd as (text & <- & Hin).
    cbn [check_passed]. apply includes_occurs. now apply H.
Qed.

Lemma forallb_not_contains (data : json) (texts : list json) :
  forallb check_passed (not_contains_checks data texts) = true
  <-> forall text, In text texts -> ~ occurs_in (to_js_string text) (body_text data).
Proof.
  unfold not_contains_checks. rewrite forallb_forall. split.
  - intros H text Hin O. apply includes_occurs in O.
    specialize (H _ (in_map _ _ _ Hin)). cbn [check_passed] in H.
    rewrite O in H. discriminate H.
  - intros H d Hd. apply in_map_iff in Hd as (text & <- & Hin).
    cbn [check_passed]. apply negb_true_iff.
    destruct (includes (body_text data) (to_js_string text)) eqn:E; [|reflexivity].
    apply includes_occurs in E. now destruct (H text Hin).
Qed.

Lemma validateResponse_meets (r : http_response) (expected : option json)
  (v : validations) :
  validateResponse r expected = inr v ->
  (passed v = true <-> meets r expected)
  /\ length (details v)
     = (1 + length (listed (opt_prop expected "body_contains"))
        + length (listed (opt_prop expected "body_not_contains")))%nat.
Proof.
  unfold validateResponse, meets.
  destruct expected as [ex|]; [|discriminate].
  assert (member (Some ex) "status" = inl type_error
          \/ member (Some ex) "status" = inr (prop ex "status")) as [->| ->]
    by (destruct ex; auto); [discriminate|].
  cbn [opt_prop].
  generalize (listed (prop ex "body_contains")) as cs.
  generalize (listed (prop ex "body_not_contains")) as ns.
  intros ns cs H. injection H as <-. cbn [passed details]. split.
  - cbn [forallb check_passed].
    rewrite forallb_app, !andb_true_iff, forallb_contains, forallb_not_contains.
    split; intros (H1 & H2 & H3); (split; [|split; assumption]).
    + destruct (prop ex "status") as [[]|]; try discriminate H1.
      apply Z.eqb_eq in H1. now subst.
    + rewrite H1. apply Z.eqb_refl.
  - cbn [length]. rewrite List.length_app. unfold contains_checks, not_contains_checks.
    now rewrite !List.length_map.
Qed.

(** X10. The verdict of [executeTest]: the result is PASSED exactly
    when the probe was answered and the response has the expected
    status (a number, compared as such), holds every text of
    [body_contains] and none of [body_not_contains]; it is FAILED when
    the probe was answered otherwise, and ERROR when no response was
    obtained or the test has no expectation to compare it with. *)
Theorem test_verdict (test : json) (baseUrl : string)
  (net : axios_config -> axios_reply) (res : exec_result) :
  executeTest test baseUrl net = Some res ->
  (res_status res = PASSED
   <-> exists r, res_actual res = Some r /\ meets r (prop test "expected_response"))
  /\ (res_status res = FAILED
      <-> exists r, res_actual res = Some r /\ ~ meets r (prop test "expected_response"))
  /\ (res_status res = ERROR <-> res_actual res = None)
  /\ (res_status res <> ERROR ->
      exists v, res_validations res = Some v
        /\ length (details v)
           = (1 + length (listed (opt_prop (prop test "expected_response")
                                    "body_contains"))
              + length (listed (opt_prop (prop test "expected_response")
                                  "body_not_contains")))%nat).
Proof.
  unfold executeTest. destruct (probe test baseUrl net) as [e|r0] eqn:Ep.
  - intros H.
    assert (res_status res = ERROR /\ res_actual res = None) as [Hs Ha].
    { destruct test; try discriminate H; injection H as <-; now split. }
    clear H. rewrite Hs, Ha.
    split; [split; [discriminate | intros (r & E & _); discriminate E]|].
    split; [split; [discriminate | intros (r & E & _); discriminate E]|].
    split; [tauto | intros Hne; now destruct Hne].
  - intros H; injection H as <-. revert Ep. unfold probe.
    destruct (member (Some test) "request") as [e|request]; [discriminate|].
    destruct (member request "endpoint") as [e|ep]; [discriminate|].
    destruct (as_string ep) as [e|ep']; [discriminate|].
    destruct (member request "method") as [e|m]; [discriminate|].
    destruct (as_string m) as [e|m']; [discriminate|].
    match goal with |- context [net ?cfg] => destruct (net cfg) as [r|e] end;
      [|discriminate].
    destruct (validateResponse r (prop test "expected_response")) as [e|v] eqn:Ev;
      [discriminate|].
    destruct (validateResponse_meets _ _ _ Ev) as [Hm Hlen].
    intros H; injection H as <-. cbn [res_status res_actual res_validations].
    split.
    { split.
      - destruct (passed v) eqn:E; [|discriminate]. intros _. exists r.
        split; [reflexivity | now apply Hm].
      - intros (r' & E & Hr'). injection E as <-. apply Hm in Hr'. now rewrite Hr'. }
    split.
    { split.
      - destruct (passed v) eqn:E; [discriminate|]. intros _. exists r.
        split; [reflexivity|]. intros Hr. apply Hm in Hr. discriminate Hr.
      - intros (r' & E & Hr'). injection E as <-.
        destruct (passed v); [|reflexivity]. destruct Hr'. now apply Hm. }
    split.
    { split; [destruct (passed v); discriminate | discriminate]. }
    intros _. exists v. split; [reflexivity | exact Hlen].
Qed.

(** A test that [executeTest] can turn into a request. *)
Definition requests (test : json) (ep m : string) : Prop :=
  exists request,
    prop test "request" = Some request
    /\ prop request "endpoint" = Some (JStr ep)
    /\ prop request "method" = Some (JStr m).

(** The URL a probe is sent to. *)
Definition url_of (baseUrl ep : string) : string :=
  if startsWith ep "http://" || startsWith ep "https://" then ep
  else baseUrl +:+ (if startsWith ep "/" then EmptyString else "/") +:+ ep.

Lemma probe_request (test : json) (baseUrl : string)
  (net : axios_config -> axios_reply) :
  (exists ep m request,
     prop test "request" = Some request
     /\ prop request "endpoint" = Some (JStr ep)
     /\ prop request "method" = Some (JStr m)
     /\ probe test baseUrl net
        = match net {| cfg_method := m;
                       cfg_url := url_of baseUrl ep;
                       cfg_headers :=
                         default (JObj []) (if_truthy (prop request "headers"));
                       cfg_data :=
                         if bool_decide (toUpperCase m ∈ ["POST"; "PUT"; "PATCH"])
                         then if_truthy (prop request "body")
                         else None |} with
          | Rejected e => inl e
          | Resolved r =>
              match validateResponse r (prop test "expected_response") with
              | inl e => inl e
              | inr v =>
                  inr {| res_id := prop test "id";
                         res_category := prop test "category";
                         res_description := prop test "description";
                         res_status := if passed v then PASSED else FAILED;
                         res_validations := Some v;
                         res_actual := Some r;
                         res_error := None;
                         res_expected := prop test "expected_response";
                         res_url := Some (url_of baseUrl ep) |}
              end
          end)
  \/ ((forall ep m, ~ requests test ep m)
      /\ probe test baseUrl net = inl type_error).
Proof.
  unfold probe, requests.
  assert (forall j k, (member (Some j) k = inl type_error /\ prop j k = None)
                      \/ member (Some j) k = inr (prop j k)) as Hmem
    by (intros j k; destruct j; auto).
  destruct (Hmem test "request") as [[-> Hn]| ->];
    [right; split; [intros ep m (rq & E & _); congruence | reflexivity]|].
  destruct (prop test "request") as [request|] eqn:Er;
    [|right; split; [intros ep m (rq & E & _); discriminate E | reflexivity]].
  specialize (Hmem request).
  destruct (Hmem "endpoint") as [[-> Hn]| ->];
    [right; split; [intros ep m (rq & E & E1 & _); injection E as <-; congruence
                   | reflexivity]|].
  destruct (prop request "endpoint") as [ep|] eqn:Ee; cbn [as_string];
    [|right; split; [intros ep m (rq & E & E1 & _); injection E as <-; congruence
                    | reflexivity]].
  destruct ep as [| | |ep| |];
    try (right; split; [intros ep' m (rq & E & E1 & _); injection E as <-; congruence
                       | reflexivity]).
  destruct (Hmem "method") as [[-> Hn]| ->];
    [right; split; [intros ep' m (rq & E & _ & E2); injection E as <-; congruence
                   | reflexivity]|].
  destruct (prop request "method") as [m|] eqn:Em; cbn [as_string];
    [|right; split; [intros ep' m (rq & E & _ & E2); injection E as <-; congruence
                    | reflexivity]].
  destruct m as [| | |m| |];
    try (right; split; [intros ep' m' (rq & E & _ & E2); injection E as <-; congruence
                       | reflexivity]).
  left. exists ep, m, request. split; [reflexivity|]. split; [exact Ee|].
  split; [exact Em|]. reflexivity.
Qed.

(** X11. A test whose request has no endpoint or no method that is a
    string is answered with ERROR and no request is sent for it; for
    any other test exactly one request is sent, with the method of the
    test, to its endpoint when that is an absolute [http] or [https]
    URL and otherwise to the base URL followed by the endpoint, with one
    slash between them; the body of the test is sent only for POST, PUT
    and PATCH in any letter case. *)
Theorem probe_of_test (test : json) (baseUrl : string) :
  test <> JNull ->
  ((forall ep m, ~ requests test ep m) ->
   exists res, res_status res = ERROR
     /\ forall net, executeTest test baseUrl net = Some res)
  /\ (forall ep m, requests test ep m ->
      exists cfg,
        cfg_method cfg = m /\ cfg_url cfg = url_of baseUrl ep
        /\ (In (toUpperCase m) ["POST"; "PUT"; "PATCH"]
            \/ cfg_data cfg = None)
        /\ forall net net',
             net cfg = net' cfg ->
             executeTest test baseUrl net = executeTest test baseUrl net').
Proof.
  intros Hnn. split.
  - intros Hno.
    assert (forall net, probe test baseUrl net = inl type_error) as Hp.
    { intros net. destruct (probe_request test baseUrl net)
        as [(ep & m & rq & E & E1 & E2 & _)|[_ Hp]]; [|exact Hp].
      destruct (Hno ep m). now exists rq. }
    eexists {| res_status := ERROR |}. split; [reflexivity|].
    intros net. unfold executeTest. rewrite Hp.
    destruct test; [now destruct Hnn | reflexivity ..].
  - intros ep m (rq & E & E1 & E2).
    eexists {| cfg_method := m; cfg_url := url_of baseUrl ep |}.
    split; [reflexivity|]. split; [reflexivity|].
    split; [|intros net net' Hnet; unfold executeTest;
             destruct (probe_request test baseUrl net)
               as [(ep1 & m1 & rq1 & F & F1 & F2 & ->)|[Hno _]];
             [|destruct (Hno ep m); now exists rq];
             destruct (probe_request test baseUrl net')
               as [(ep2 & m2 & rq2 & G & G1 & G2 & ->)|[Hno _]];
             [|destruct (Hno ep m); now exists rq];
             assert (rq1 = rq) as -> by congruence;
             assert (rq2 = rq) as -> by congruence;
             assert (ep1 = ep) as -> by congruence;
             assert (ep2 = ep) as -> by congruence;
             assert (m1 = m) as -> by congruence;
             assert (m2 = m) as -> by congruence;
             rewrite <- Hnet; reflexivity].
    cbn [cfg_data].
    destruct (decide (toUpperCase m ∈ ["POST"; "PUT"; "PATCH"])) as [Hin|Hout].
    + left. now apply list_elem_of_In.
    + right. now rewrite bool_decide_eq_false_2 by exact Hout.
Qed.

End VerdictFacts.

Section ResultFacts.

Import JsString Json Coerce Execution.

Variable URL_ok : string -> bool.
Variable REQUEST_CONCURRENCY : option string.

Lemma executeTest_identity (test : json) (baseUrl : string)
  (net : axios_config -> axios_reply) (res : exec_result) :
  executeTest test baseUrl net = Some res ->
  res_id res = prop test "id" /\ res_category res = prop test "category"
  /\ res_description res = prop test "description"
  /\ res_expected res = prop test "expected_response"
  /\ (res_error res = None <-> res_status res <> ERROR).
Proof.
  unfold executeTest. destruct (probe test baseUrl net) as [e|r0] eqn:Ep.
  - destruct test; intros H; try discriminate H; injection H as <-;
      cbn; repeat split; congruence.
  - intros H; injection H as <-. revert Ep. unfold probe.
    destruct (member (Some test) "request") as [e|request]; [discriminate|].
    destruct (member request "endpoint") as [e|ep]; [discriminate|].
    destruct (as_string ep) as [e|ep']; [discriminate|].
    destruct (member request "method") as [e|m]; [discriminate|].
    destruct (as_string m) as [e|m']; [discriminate|].
    match goal with |- context [net ?cfg] => destruct (net cfg) as [r|e] end;
      [|discriminate].
    destruct (validateResponse r (prop test "expected_response")) as [e|v];
      [discriminate|].
    intros H; injection H as <-. cbn. repeat split; try congruence.
    intros _. destruct (passed v); discriminate.
Qed.

(** X12. The results of [/run-tests] are in the order of the tests:
    the result at an index carries the identifier, the category, the
    description and the expectation of the test at that index, and it
    carries an error message exactly when its status is ERROR. *)
Theorem results_in_order (targetUrl baseUrl concurrency : option json)
  (tests : list json) (net : nat -> axios_config -> axios_reply)
  (results : list exec_result) (summary : run_summary) :
  run_tests URL_ok REQUEST_CONCURRENCY (Some (JArr tests)) targetUrl baseUrl
    concurrency net = Completed results summary ->
  forall i res, results !! i = Some res ->
    exists test,
      tests !! i = Some test
      /\ res_id res = prop test "id" /\ res_category res = prop test "category"
      /\ res_description res = prop test "description"
      /\ res_expected res = prop test "expected_response"
      /\ (res_error res = None <-> res_status res <> ERROR).
Proof.
  intros H i res Hi. unfold run_tests in H.
  destruct tests as [|t ts] eqn:Et; [discriminate H|]. rewrite <- Et in *.
  match type of H with
  | (if negb (URL_ok ?u) then _ else _) = _ =>
      destruct (URL_ok u); [|discriminate H]; cbn [negb] in H
  end.
  destruct (chosen_concurrency concurrency REQUEST_CONCURRENCY) as [c|];
    [|discriminate H].
  destruct (Z.ltb 0 c); [|discriminate H].
  match type of H with
  | match run_from 0 tests ?u net with _ => _ end = _ =>
      destruct (run_from 0 tests u net) as [rs|] eqn:Er; [|discriminate H]
  end.
  injection H as <- _.
  destruct (run_from_lookup _ _ _ _ _ Er) as [Len Hall].
  assert (i < length tests)%nat as Hlt
    by (rewrite <- Len; eapply lookup_lt_Some; exact Hi).
  apply lookup_lt_is_Some in Hlt as [test Ht].
  exists test. split; [exact Ht|].
  rewrite (Hall i test Ht) in Hi.
  eapply executeTest_identity; exact Hi.
Qed.

End ResultFacts.

(** ** The matcher of the patterns *)

Module RxFacts.

Import JsString JsStringFacts MoreStringFacts Rx.

(** The character before the position behind [pre], when [prev] is the
    character before [pre]. *)
Fixpoint last_char (prev : option ascii) (pre : string) : option ascii :=
  match pre with
  | EmptyString => prev
  | String c pre' => last_char (Some c) pre'
  end.

(** [Match a prev s prev' s']: behind the character [prev], the
    expression [a] matches the prefix of [s] that leaves [s'], and
    [prev'] is the character before [s']. *)
Inductive Match : re -> option ascii -> string -> option ascii -> string -> Prop :=
| M_eps (p : option ascii) (s : string) : Match Eps p s p s
| M_class (f : ascii -> bool) (p : option ascii) (c : ascii) (s : string) :
    f c = true -> Match (Class f) p (String c s) (Some c) s
| M_cat (a b : re) (p p1 p2 : option ascii) (s s1 s2 : string) :
    Match a p s p1 s1 -> Match b p1 s1 p2 s2 -> Match (Cat a b) p s p2 s2
| M_alt_l (a b : re) (p p1 : option ascii) (s s1 : string) :
    Match a p s p1 s1 -> Match (Alt a b) p s p1 s1
| M_alt_r (a b : re) (p p1 : option ascii) (s s1 : string) :
    Match b p s p1 s1 -> Match (Alt a b) p s p1 s1
| M_many_0 (a : re) (p : option ascii) (s : string) : Match (Many a) p s p s
| M_many_S (a : re) (p p1 p2 : option ascii) (s s1 s2 : string) :
    Match a p s p1 s1 -> (String.length s1 < String.length s)%nat ->
    Match (Many a) p1 s1 p2 s2 -> Match (Many a) p s p2 s2
| M_wordb (p : option ascii) (s : string) :
    xorb (word_before p) (word_at s) = true -> Match WordB p s p s
| M_bol (s : string) : Match Bol None s None s
| M_eol (p : option ascii) : Match Eol p EmptyString p EmptyString.

Section Loop.

Variable a : re.
Variable k : option ascii -> string -> bool.

Fixpoint many_loop (fuel : nat) (prev : option ascii) (s : string) {struct fuel} : bool :=
  k prev s
  || match fuel with
     | O => false
     | S fuel' =>
         matches a prev s
           (fun prev' s' =>
              Nat.ltb (String.length s') (String.length s) && many_loop fuel' prev' s')
     end.

End Loop.

Lemma matches_many (a : re) (p : option ascii) (s : string)
  (k : option ascii -> string -> bool) :
  matches (Many a) p s k = many_loop a k (String.length s) p s.
Proof. reflexivity. Qed.

Definition accepts (a : re) (p : option ascii) (s : string)
  (k : option ascii -> string -> bool) : Prop :=
  exists p' s', Match a p s p' s' /\ k p' s' = true.

Lemma many_loop_sound (a : re) (k : option ascii -> string -> bool) :
  (forall p s k', matches a p s k' = true -> accepts a p s k') ->
  forall fuel p s, many_loop a k fuel p s = true -> accepts (Many a) p s k.
Proof.
  intros IHa. induction fuel as [|fuel IH]; intros p s H; cbn [many_loop] in H;
    apply orb_true_iff in H as [H|H]; try discriminate H;
    try (exists p, s; split; [apply M_many_0 | exact H]).
  apply IHa in H as (p1 & s1 & Hm & Hk).
  apply andb_true_iff in Hk as [Hlt Hk]. apply Nat.ltb_lt in Hlt.
  apply IH in Hk as (p2 & s2 & Hm2 & Hk2).
  exists p2, s2. split; [|exact Hk2]. eapply M_many_S; eassumption.
Qed.

Lemma many_loop_complete (a : re) (k : option ascii -> string -> bool) :
  (forall p s k', accepts a p s k' -> matches a p s k' = true) ->
  forall r p s p' s', Match r p s p' s' -> r = Many a -> k p' s' = true ->
  forall fuel, (String.length s <= fuel)%nat -> many_loop a k fuel p s = true.
Proof.
  intros IHa r p s p' s' D.
  induction D as [| | | | |a0 p s|a0 p p1 p2 s s1 s2 D1 _ Hlt D2 IH2| | |];
    intros E Hk fuel Hfuel; try discriminate E.
  - destruct fuel; cbn [many_loop]; rewrite Hk; reflexivity.
  - injection E as ->.
    destruct fuel as [|fuel]; [lia|]. cbn [many_loop]. apply orb_true_iff. right.
    apply IHa. exists p1, s1. split; [exact D1|].
    apply andb_true_iff. split; [now apply Nat.ltb_lt|].
    apply IH2; [reflexivity | exact Hk | lia].
Qed.

(** The matcher decides the relation. *)
Lemma matches_spec (a : re) :
  forall p s k, matches a p s k = true <-> accepts a p s k.
Proof.
  unfold accepts.
  induction a as [|f|a IHa b IHb|a IHa b IHb|a IHa| | |]; intros p s k.
  - cbn [matches]. split.
    + intros H. exists p, s. split; [constructor | exact H].
    + intros (p' & s' & D & H). inversion D; subst. exact H.
  - cbn [matches]. split.
    + destruct s as [|c s]; [discriminate|]. intros H.
      apply andb_true_iff in H as [Hf Hk]. exists (Some c), s.
      split; [now constructor | exact Hk].
    + intros (p' & s' & D & H). inversion D; subst. apply andb_true_iff. now split.
  - cbn [matches]. rewrite IHa. split.
    + intros (p1 & s1 & D1 & H). apply IHb in H as (p2 & s2 & D2 & H).
      exists p2, s2. split; [econstructor; eassumption | exact H].
    + intros (p2 & s2 & D & H). inversion D; subst.
      eexists _, _. split; [eassumption|]. apply IHb. eexists _, _. eauto.
  - cbn [matches]. rewrite orb_true_iff, IHa, IHb. split.
    + intros [(p1 & s1 & D & H)|(p1 & s1 & D & H)]; exists p1, s1;
        (split; [|exact H]); [now apply M_alt_l | now apply M_alt_r].
    + intros (p1 & s1 & D & H). inversion D; subst; [left | right]; eauto.
  - rewrite matches_many. split.
    + apply many_loop_sound. intros p0 s0 k'. apply IHa.
    + intros (p' & s' & D & H).
      eapply many_loop_complete; [| exact D | reflexivity | exact H | apply Nat.le_refl].
      intros p0 s0 k'. apply IHa.
  - cbn [matches]. rewrite andb_true_iff. split.
    + intros [Hx H]. exists p, s. split; [now constructor | exact H].
    + intros (p' & s' & D & H). inversion D; subst. now split.
  - cbn [matches]. split.
    + destruct p; [discriminate|]. intros H. exists None, s.
      split; [constructor | exact H].
    + intros (p' & s' & D & H). inversion D; subst. exact H.
  - cbn [matches]. split.
    + destruct s; [|discriminate]. intros H. exists p, EmptyString.
      split; [constructor | exact H].
    + intros (p' & s' & D & H). inversion D; subst. exact H.
Qed.

Lemma search_spec (a : re) (s : string) :
  forall p, search a p s = true
            <-> exists pre rest p' s',
                  s = pre +:+ rest /\ Match a (last_char p pre) rest p' s'.
Proof.
  induction s as [|c s IH]; intros p; cbn [search]; rewrite orb_true_iff, matches_spec.
  - split.
    + intros [(p' & s' & D & _)|H]; [|discriminate H].
      now exists EmptyString, EmptyString, p', s'.
    + intros (pre & rest & p' & s' & E & D). left.
      destruct pre; [|discriminate E]. rewrite app_nil_l in E. subst rest.
      now exists p', s'.
  - rewrite IH. split.
    + intros [(p' & s' & D & _)|(pre & rest & p' & s' & -> & D)].
      * now exists EmptyString, (String c s), p', s'.
      * now exists (String c pre), rest, p', s'.
    + intros (pre & rest & p' & s' & E & D). destruct pre as [|c' pre].
      * left. rewrite app_nil_l in E. subst rest. now exists p', s'.
      * right. rewrite app_cons in E. injection E as -> ->.
        now exists pre, rest, p', s'.
Qed.

Lemma Match_cat_inv (a b : re) (p p2 : option ascii) (s s2 : string) :
  Match (Cat a b) p s p2 s2 ->
  exists p1 s1, Match a p s p1 s1 /\ Match b p1 s1 p2 s2.
Proof. intros D. inversion D; subst. eauto. Qed.

Lemma Match_class_inv (f : ascii -> bool) (p p' : option ascii) (s s' : string) :
  Match (Class f) p s p' s' -> exists c, s = String c s' /\ f c = true /\ p' = Some c.
Proof. intros D. inversion D; subst. eauto. Qed.

Lemma Match_bol_inv (p p' : option ascii) (s s' : string) :
  Match Bol p s p' s' -> p = None /\ p' = None /\ s' = s.
Proof. intros D. inversion D; subst. auto. Qed.

Lemma Match_eol_inv (p p' : option ascii) (s s' : string) :
  Match Eol p s p' s' -> s = EmptyString /\ s' = EmptyString /\ p' = p.
Proof. intros D. inversion D; subst. auto. Qed.

(** A match of the pattern at a position of the text. *)
Definition found (a : re) (s : string) : Prop :=
  exists pre rest p' s', s = pre +:+ rest /\ Match a (last_char None pre) rest p' s'.

Lemma test_spec (a : re) (s : string) : test a s = true <-> found a s.
Proof. apply search_spec. Qed.

End RxFacts.

(** ** The checks of [sanitizeString] *)

Module ChecksFacts.

Import JsString Json Coerce JsStringFacts MoreStringFacts Rx RxFacts Checks.

Lemma Match_text (w : string) :
  forall p s', Match (text w) p (w +:+ s') (last_char p w) s'.
Proof.
  induction w as [|c w IH]; intros p s'; [apply M_eps|].
  rewrite app_cons. cbn [last_char]. destruct w as [|d w].
  - cbn [text last_char]. rewrite app_nil_l. apply M_class, Ascii.eqb_refl.
  - change (text (String c (String d w))) with (Cat (chr c) (text (String d w))).
    eapply M_cat; [apply M_class, Ascii.eqb_refl | apply IH].
Qed.

Lemma Match_text_i (x : string) :
  forall p s', Match (text_i (toLowerCase x)) p (x +:+ s') (last_char p x) s'.
Proof.
  induction x as [|c x IH]; intros p s'; [apply M_eps|].
  rewrite app_cons. cbn [last_char toLowerCase]. destruct x as [|d x].
  - cbn [toLowerCase text_i last_char]. rewrite app_nil_l.
    apply M_class, Ascii.eqb_refl.
  - change (text_i (String (lower_ascii c) (toLowerCase (String d x))))
      with (Cat (chr_i (lower_ascii c)) (text_i (toLowerCase (String d x)))).
    eapply M_cat; [apply M_class, Ascii.eqb_refl | apply IH].
Qed.

Lemma Match_many_class (f : ascii -> bool) (x : string) :
  forall p s',
    (forall a b c, x = a +:+ String c b -> f c = true) ->
    Match (Many (Class f)) p (x +:+ s') (last_char p x) s'.
Proof.
  induction x as [|c x IH]; intros p s' Hall; [apply M_many_0|].
  rewrite app_cons. cbn [last_char].
  eapply M_many_S.
  - apply M_class. apply (Hall EmptyString x c). reflexivity.
  - cbn [String.length]. lia.
  - apply IH. intros a b d E. apply (Hall (String c a) b d). now rewrite E.
Qed.

Lemma Match_anything (x : string) (p : option ascii) (s' : string) :
  Match anything p (x +:+ s') (last_char p x) s'.
Proof. apply Match_many_class. reflexivity. Qed.

Lemma toLowerCase_split (u v : string) :
  forall t, toLowerCase t = u +:+ v ->
            exists a b, t = a +:+ b /\ toLowerCase a = u /\ toLowerCase b = v.
Proof.
  induction u as [|c u IH]; intros t E.
  - exists EmptyString, t. now rewrite app_nil_l in E.
  - destruct t as [|d t]; [discriminate E|].
    rewrite app_cons in E. cbn [toLowerCase] in E. injection E as Hc E.
    destruct (IH t E) as (a & b & -> & Ha & Hb).
    exists (String d a), b. cbn [toLowerCase]. now rewrite Hc, Ha.
Qed.

Lemma occurs_lower (w t : string) :
  occurs_in w (toLowerCase t) ->
  exists a x b, t = a +:+ x +:+ b /\ toLowerCase x = w.
Proof.
  intros (u & v & E). apply toLowerCase_split in E as (a & r & -> & _ & E).
  apply toLowerCase_split in E as (x & b & -> & Hx & _).
  now exists a, x, b.
Qed.

(** What the patterns find. *)
Lemma found_text (w s : string) : occurs_in w s -> found (text w) s.
Proof.
  intros (a & b & ->). exists a, (w +:+ b). eexists _, b.
  split; [reflexivity | apply Match_text].
Qed.

Lemma found_text_i (w s : string) :
  occurs_in w (toLowerCase s) -> found (text_i w) s.
Proof.
  intros H. apply occurs_lower in H as (a & x & b & -> & <-).
  exists a, (x +:+ b). eexists _, b. split; [reflexivity | apply Match_text_i].
Qed.

Lemma found_tag (x a b c : string) :
  x <> EmptyString ->
  found (seq_of [text_i (toLowerCase x); anything; chr ">"]) (a +:+ x +:+ b +:+ ">" +:+ c).
Proof.
  intros Hx. exists a, (x +:+ b +:+ ">" +:+ c). eexists _, c.
  split; [reflexivity|].
  cbn [seq_of]. eapply M_cat; [apply Match_text_i|].
  eapply M_cat; [apply Match_anything|].
  apply M_class, Ascii.eqb_refl.
Qed.

Lemma existsb_none {A : Type} (f : A -> bool) (l : list A) (x : A) :
  existsb f l = false -> In x l -> f x = false.
Proof.
  intros H Hin. destruct (f x) eqn:E; [|reflexivity].
  assert (existsb f l = true) as T by (apply existsb_exists; now exists x).
  rewrite H in T. discriminate T.
Qed.

(** The marks that [sanitizeString] leaves in no text it accepts: the
    opening of a tag that is closed further on, words in any letter
    case, and the comment mark of SQL. *)
Definition script_tags : list string := ["<script"; "<iframe"; "<object"; "<embed"].

Definition script_words : list string :=
  ["javascript:"; "eval("; "expression("; "vbscript:"; "data:text/html"].

Definition sql_words : list string := ["xp_cmdshell"; "load_file"].

Lemma containsXSS_clean (t : string) :
  containsXSS t = false ->
  (forall tag, In tag script_tags ->
     forall a x b c, toLowerCase x = tag -> t <> a +:+ x +:+ b +:+ ">" +:+ c)
  /\ (forall w, In w script_words -> ~ occurs_in w (toLowerCase t)).
Proof.
  unfold containsXSS. intros H.
  destruct (String.eqb t EmptyString) eqn:Et;
    [apply String.eqb_eq in Et; subst t|].
  - split.
    + intros tag Hin a x b c Hx E.
      destruct a; [|discriminate E]. rewrite app_nil_l in E.
      destruct x; [|discriminate E]. cbn in Hx. subst tag.
      cbn in Hin. repeat (destruct Hin as [Hin|Hin]; [discriminate Hin|]). exact Hin.
    + intros w Hin (a & b & E). cbn [toLowerCase] in E.
      destruct a; [|discriminate E]. rewrite app_nil_l in E.
      destruct w; [|discriminate E].
      cbn in Hin. repeat (destruct Hin as [Hin|Hin]; [discriminate Hin|]). exact Hin.
  - cbn [negb andb] in H.
    assert (forall p, In p xssPatterns -> ~ found p t) as Hnone.
    { intros p Hp F. apply test_spec in F.
      rewrite (existsb_none _ _ _ H Hp) in F. discriminate F. }
    split.
    + intros tag Hin a x b c Hx E. subst t.
      assert (x <> EmptyString) as Hxne.
      { intros ->. cbn in Hx. subst tag. cbn in Hin.
        repeat (destruct Hin as [Hin|Hin]; [discriminate Hin|]). exact Hin. }
      apply (Hnone (seq_of [text_i (toLowerCase x); anything; chr ">"]));
        [|now apply found_tag].
      rewrite Hx. cbn [In script_tags] in Hin. unfold xssPatterns. cbn [In].
      destruct Hin as [<-|[<-|[<-|[<-|[]]]]]; auto.
    + intros w Hin O. apply (Hnone (text_i w)); [|now apply found_text_i].
      cbn [In script_words] in Hin. unfold xssPatterns. cbn [In].
      destruct Hin as [<-|[<-|[<-|[<-|[<-|[]]]]]]; auto 20.
Qed.

Lemma containsSQLInjection_clean (t : string) :
  containsSQLInjection t = false ->
  ~ occurs_in "--" t
  /\ (forall w, In w sql_words -> ~ occurs_in w (toLowerCase t)).
Proof.
  unfold containsSQLInjection. intros H.
  destruct (String.eqb t EmptyString) eqn:Et;
    [apply String.eqb_eq in Et; subst t|].
  - split.
    + intros (a & b & E). destruct a; discriminate E.
    + intros w Hin (a & b & E). cbn [toLowerCase] in E.
      destruct a; [|discriminate E]. rewrite app_nil_l in E.
      destruct w; [|discriminate E].
      cbn in Hin. repeat (destruct Hin as [Hin|Hin]; [discriminate Hin|]). exact Hin.
  - cbn [negb andb] in H.
    assert (forall p, In p sqlPatterns -> ~ found p t) as Hnone.
    { intros p Hp F. apply test_spec in F.
      rewrite (existsb_none _ _ _ H Hp) in F. discriminate F. }
    split.
    + intros O. apply (Hnone (text "--")); [|now apply found_text].
      unfold sqlPatterns. cbn [In]. auto.
    + intros w Hin O. apply (Hnone (text_i w)); [|now apply found_text_i].
      cbn [In sql_words] in Hin. unfold sqlPatterns. cbn [In].
      destruct Hin as [<-|[<-|[]]]; auto 20.
Qed.

(** X13. A text that [sanitizeString] accepts is the trimmed input; it
    is not empty and no longer than [maxLength]; it holds no opening of
    a [script], [iframe], [object] or [embed] tag that is closed further
    on, none of the words [javascript:], [eval(], [expression(],
    [vbscript:] and [data:text/html] in any letter case, no [--], no
    [xp_cmdshell] or [load_file], and none of the path-traversal marks;
    and [sanitizeString] gives it back unchanged. *)
Theorem sanitizeString_accepted (input : option json) (maxLength : nat) (t : string) :
  sanitizeString input maxLength = inr t ->
  (exists s, input = Some (JStr s) /\ t = trim s)
  /\ (0 < String.length t <= maxLength)%nat
  /\ (forall tag, In tag script_tags ->
        forall a x b c, toLowerCase x = tag -> t <> a +:+ x +:+ b +:+ ">" +:+ c)
  /\ (forall w, In w script_words -> ~ occurs_in w (toLowerCase t))
  /\ ~ occurs_in "--" t
  /\ (forall w, In w sql_words -> ~ occurs_in w (toLowerCase t))
  /\ (forall p, In p traversal_marks -> ~ occurs_in p t)
  /\ (forall p, In p traversal_marks_ci -> ~ occurs_in p (toLowerCase t))
  /\ sanitizeString (Some (JStr t)) maxLength = inr t.
Proof.
  unfold sanitizeString. intros H.
  destruct input as [[| | |s| |]|]; try discriminate H.
  destruct (String.eqb s EmptyString); [discriminate H|].
  destruct (Nat.eqb_spec (String.length (trim s)) 0) as [|Hlen]; [discriminate H|].
  destruct (Nat.ltb_spec maxLength (String.length (trim s))) as [|Hmax];
    [discriminate H|].
  destruct (containsXSS (trim s)) eqn:Hx; [discriminate H|].
  destruct (containsSQLInjection (trim s)) eqn:Hq; [discriminate H|].
  destruct (containsPathTraversal (trim s)) eqn:Hp; [discriminate H|].
  injection H as <-.
  destruct (containsXSS_clean _ Hx) as [X1 X2].
  destruct (containsSQLInjection_clean _ Hq) as [Q1 Q2].
  destruct (containsPathTraversal_clean _ Hp) as [P1 P2].
  split; [now exists s|]. split; [lia|].
  split; [exact X1|]. split; [exact X2|]. split; [exact Q1|]. split; [exact Q2|].
  split; [exact P1|]. split; [exact P2|].
  rewrite trim_idem, Hx, Hq, Hp.
  destruct (String.eqb_spec (trim s) EmptyString) as [E|_].
  { rewrite E in Hlen. now destruct Hlen. }
  destruct (Nat.eqb_spec (String.length (trim s)) 0) as [|_]; [lia|].
  destruct (Nat.ltb_spec maxLength (String.length (trim s))) as [|_]; [lia|].
  reflexivity.
Qed.

End ChecksFacts.

(** ** The mock routes *)

Section MockApiFacts.

Import JsString Json Coerce JsStringFacts MoreStringFacts Rx RxFacts Checks ChecksFacts.

Variable isEmail : string -> bool.

(** X14. An address that [validateEmail] accepts is the trimmed input,
    one that [validator.isEmail] accepts; whatever that function
    accepts, the address has at most 254 characters and holds an [@]
    with at least one character before it and at least three behind;
    [validateEmail] gives it back unchanged. An address without [@] is
    never accepted. *)
Theorem validateEmail_accepted (email : option json) (t : string) :
  validateEmail isEmail email = inr t ->
  (exists s, email = Some (JStr s) /\ t = trim s)
  /\ isEmail t = true
  /\ (String.length t <= 254)%nat
  /\ (exists first rest,
        t = first +:+ "@" +:+ rest
        /\ (0 < String.length first)%nat /\ (3 <= String.length rest)%nat)
  /\ validateEmail isEmail (Some (JStr t)) = inr t.
Proof.
  unfold validateEmail. intros H.
  destruct email as [[| | |s| |]|]; try discriminate H.
  destruct (String.eqb s EmptyString); [discriminate H|].
  destruct (isEmail (trim s)) eqn:Hv; [|discriminate H]. cbn [negb] in H.
  unfold parts_at in *.
  destruct (split_first "@" (trim s)) as [[first rest]|] eqn:Es.
  - destruct (Nat.eqb_spec (String.length first) 0) as [|Hf]; [discriminate H|].
    destruct (Nat.ltb_spec
                (String.length match split_first "@" rest with
                               | Some (second, _) => second
                               | None => rest
                               end) 3) as [|Hd]; [discriminate H|].
    destruct (Nat.ltb_spec 254 (String.length (trim s))) as [|Hl]; [discriminate H|].
    injection H as <-.
    split; [now exists s|]. split; [exact Hv|]. split; [exact Hl|].
    split.
    + exists first, rest. split; [now apply split_first_app|]. split; [lia|].
      destruct (split_first "@" rest) as [[second r2]|] eqn:E2; [|exact Hd].
      apply split_first_app in E2. rewrite E2, length_app. lia.
    + rewrite trim_idem, Hv, Es. cbn [negb].
      destruct (String.eqb_spec (trim s) EmptyString) as [E|_].
      { rewrite E in Es. discriminate Es. }
      destruct (Nat.eqb_spec (String.length first) 0) as [|_]; [lia|].
      destruct (Nat.ltb_spec
                  (String.length match split_first "@" rest with
                                 | Some (second, _) => second
                                 | None => rest
                                 end) 3) as [|_]; [lia|].
      destruct (Nat.ltb_spec 254 (String.length (trim s))) as [|_]; [lia|].
      reflexivity.
  - destruct (Nat.eqb (String.length (trim s)) 0); discriminate H.
Qed.

Definition code_of (r : response) : option json :=
  match r with Respond _ payload => prop payload "code" end.

(** X15. [POST /users] answers 201 or 400, never 500. It answers 201
    exactly when the body is an object whose name [sanitizeString]
    accepts and whose address [validateEmail] accepts, and then with
    the sanitized name and address; a name that is refused is reported
    as [INVALID_NAME] whatever the address is, and an address is looked
    at only behind a name that is accepted. *)
Theorem post_users_answer (body : option json) (id created_at : string) :
  (status_of (post_users isEmail body id created_at) = 201
   \/ status_of (post_users isEmail body id created_at) = 400)
  /\ (status_of (post_users isEmail body id created_at) = 201
      <-> exists b name email,
            body = Some b /\ is_object b
            /\ sanitizeString (prop b "name") 100 = inr name
            /\ validateEmail isEmail (prop b "email") = inr email)
  /\ (forall b name email,
        body = Some b -> is_object b ->
        sanitizeString (prop b "name") 100 = inr name ->
        validateEmail isEmail (prop b "email") = inr email ->
        post_users isEmail body id created_at
        = Respond 201
            (JObj [("success", JBool true);
                   ("data", JObj [("id", JStr id); ("name", JStr name);
                                  ("email", JStr email);
                                  ("created_at", JStr created_at)])]))
  /\ (forall b err,
        body = Some b -> is_object b ->
        sanitizeString (prop b "name") 100 = inl err ->
        code_of (post_users isEmail body id created_at) = Some (JStr "INVALID_NAME"))
  /\ (forall b name err,
        body = Some b -> is_object b ->
        sanitizeString (prop b "name") 100 = inr name ->
        validateEmail isEmail (prop b "email") = inl err ->
        code_of (post_users isEmail body id created_at) = Some (JStr "INVALID_EMAIL")).
Proof.
  assert (forall b, is_object b ->
            post_users isEmail (Some b) id created_at
            = match sanitizeString (prop b "name") 100 with
              | inl err => refusal err "INVALID_NAME"
              | inr name =>
                  match validateEmail isEmail (prop b "email") with
                  | inl err => refusal err "INVALID_EMAIL"
                  | inr email =>
                      Respond 201
                        (JObj [("success", JBool true);
                               ("data", JObj [("id", JStr id); ("name", JStr name);
                                              ("email", JStr email);
                                              ("created_at", JStr created_at)])])
                  end
              end) as Hobj
    by (intros b [[p ->]|[l ->]]; reflexivity).
  assert (forall b, ~ is_object b ->
            status_of (post_users isEmail (Some b) id created_at) = 400) as Hnot.
  { intros b Hb. destruct b; try reflexivity.
    exfalso; apply Hb; left; eexists; reflexivity. }
  assert (forall err c, code_of (refusal err c) = Some (JStr c)) as Hcode.
  { intros [m f|] c; unfold refusal, code_of; cbn [app];
      change (prop (JObj ?l) ?k) with (assoc k l);
      cbn [assoc String.eqb Ascii.eqb Bool.eqb]; reflexivity. }
  split; [|split; [|split; [|split]]].
  - destruct body as [b|]; [|now right].
    destruct (classic_object b) as [Hb|Hb]; [|right; now apply Hnot].
    rewrite (Hobj b Hb).
    destruct (sanitizeString (prop b "name") 100); [now right|].
    destruct (validateEmail isEmail (prop b "email")); [now right | now left].
  - split.
    + destruct body as [b|]; [|discriminate].
      destruct (classic_object b) as [Hb|Hb];
        [|intros H; rewrite (Hnot b Hb) in H; discriminate H].
      rewrite (Hobj b Hb).
      destruct (sanitizeString (prop b "name") 100) as [|name] eqn:En; [discriminate|].
      destruct (validateEmail isEmail (prop b "email")) as [|email] eqn:Ee;
        [discriminate|].
      intros _. now exists b, name, email.
    + intros (b & name & email & -> & Hb & Hn & He). now rewrite (Hobj b Hb), Hn, He.
  - intros b name email -> Hb Hn He. now rewrite (Hobj b Hb), Hn, He.
  - intros b err -> Hb Hn. rewrite (Hobj b Hb), Hn. apply Hcode.
  - intros b name err -> Hb Hn He. rewrite (Hobj b Hb), Hn, He. apply Hcode.
Qed.

(** Every character of a text is of a class. *)
Fixpoint every (f : ascii -> bool) (s : string) : bool :=
  match s with
  | EmptyString => true
  | String c s' => f c && every f s'
  end.

Lemma last_char_none (pre : string) :
  forall p, last_char p pre = None -> pre = EmptyString.
Proof.
  induction pre as [|c pre IH]; intros p H; [reflexivity|].
  cbn [last_char] in H. pose proof (IH _ H) as E. subst pre. discriminate H.
Qed.

Lemma Match_many_class_inv (f : ascii -> bool) (r : re) (p p' : option ascii)
  (s s' : string) :
  Match r p s p' s' -> r = Many (Class f) ->
  exists x, s = x +:+ s' /\ every f x = true.
Proof.
  induction 1 as [| | | | |a p s|a p p1 p2 s s1 s2 D1 _ Hlt D2 IH2| | |];
    intros E; try discriminate E.
  - now exists EmptyString.
  - injection E as ->. destruct (IH2 eq_refl) as (x & -> & Hx).
    inversion D1; subst. exists (String c x). split; [reflexivity|].
    cbn [every]. apply andb_true_iff. now split.
Qed.

Lemma every_chars (f : ascii -> bool) (x : string) :
  every f x = true -> forall a b c, x = a +:+ String c b -> f c = true.
Proof.
  induction x as [|d x IH]; intros H a b c E.
  - destruct a; discriminate E.
  - cbn [every] in H. apply andb_true_iff in H as [Hd Hx].
    destruct a as [|d' a].
    + rewrite app_nil_l in E. now injection E as <- _.
    + rewrite app_cons in E. injection E as _ E. exact (IH Hx a b c E).
Qed.

Lemma user_id_pattern_spec (id : string) :
  test user_id_pattern id = negb (String.eqb id EmptyString) && every is_id_char id.
Proof.
  apply eq_true_iff_eq. rewrite test_spec, andb_true_iff, negb_true_iff.
  unfold found, user_id_pattern. cbn [seq_of]. unfold some. split.
  - intros (pre & rest & p' & s' & -> & D).
    apply Match_cat_inv in D as (p1 & s1 & Da & Db).
    apply Match_bol_inv in Da as (Hp & -> & ->).
    apply last_char_none in Hp. subst pre. rewrite app_nil_l.
    apply Match_cat_inv in Db as (p2 & s2 & Dc & Dd).
    apply Match_eol_inv in Dd as (-> & -> & ->).
    apply Match_cat_inv in Dc as (p3 & s3 & De & Df).
    apply Match_class_inv in De as (c & -> & Hc & ->).
    destruct (Match_many_class_inv is_id_char _ _ _ _ _ Df eq_refl) as (x & -> & Hx).
    split; [reflexivity|]. rewrite app_nil_r. cbn [every].
    apply andb_true_iff. now split.
  - intros [Hne Hall]. destruct id as [|c id]; [discriminate Hne|].
    cbn [every] in Hall. apply andb_true_iff in Hall as [Hc Hid].
    exists EmptyString, (String c id). eexists _, EmptyString.
    split; [reflexivity|]. cbn [last_char].
    eapply M_cat; [apply M_bol|].
    eapply M_cat; [|apply M_eol].
    eapply M_cat; [apply M_class; exact Hc|].
    rewrite <- (app_nil_r id) at 1.
    apply Match_many_class. now apply every_chars.
Qed.

(** X16. [GET /users/:id] answers 400 exactly when the identifier is
    empty or holds a character that is no letter, digit, [_] or [-];
    it answers 200 exactly for the identifier [1], and 404 for every
    other identifier of that form. *)
Theorem get_user_answer (id : string) :
  (status_of (get_user id) = 400
   <-> id = EmptyString \/ every is_id_char id = false)
  /\ (status_of (get_user id) = 200 <-> id = "1")
  /\ (status_of (get_user id) = 404
      <-> id <> EmptyString /\ every is_id_char id = true /\ id <> "1").
Proof.
  unfold get_user. rewrite user_id_pattern_spec.
  destruct (String.eqb_spec id EmptyString) as [E|Hne]; cbn [negb andb].
  - cbn [status_of]. split; [|split].
    + split; [now left | reflexivity].
    + split; [discriminate | intros E1; rewrite E1 in E; discriminate E].
    + split; [discriminate | intros [H _]; now destruct H].
  - destruct (every is_id_char id) eqn:Hall; cbn [negb].
    + destruct (String.eqb_spec id "1") as [E1|Hn1]; cbn [status_of].
      * split; [|split].
        -- split; [discriminate | intros [H|H]; [now destruct Hne | discriminate H]].
        -- split; [now intros _ | reflexivity].
        -- split; [discriminate | intros (_ & _ & H); now destruct H].
      * split; [|split].
        -- split; [discriminate | intros [H|H]; [now destruct Hne | discriminate H]].
        -- split; [discriminate | intros H; now destruct Hn1].
        -- split; [now intros _ | reflexivity].
    + cbn [status_of]. split; [|split].
      * split; [now right | reflexivity].
      * split; [discriminate | intros E1; subst id; vm_compute in Hall; discriminate Hall].
      * split; [discriminate | intros (_ & H & _); discriminate H].
Qed.

End MockApiFacts.

(** ** The stream of results *)

Section StreamFacts.

Import JsString Json Coerce Execution.

Variable URL_ok : string -> bool.
Variable REQUEST_CONCURRENCY : option string.

Lemma omap_lookup_seq {A : Type} (l : list A) :
  forall pre, omap (fun i => (pre ++ l) !! i) (seq (length pre) (length l)) = l.
Proof.
  induction l as [|x l IH]; intros pre; [reflexivity|].
  cbn [length seq]. cbn [omap list_omap].
  rewrite (list_lookup_middle pre l x (length pre) eq_refl).
  f_equal. specialize (IH (pre ++ [x])).
  rewrite <- app_assoc, length_app in IH. cbn [length app] in IH.
  now rewrite Nat.add_1_r in IH.
Qed.

Lemma omap_lookup_all {A : Type} (l : list A) (order : list nat) :
  order ≡ₚ seq 0 (length l) -> omap (fun i => l !! i) order ≡ₚ l.
Proof.
  intros ->. pose proof (omap_lookup_seq l []) as E. cbn [app length] in E.
  now rewrite E.
Qed.

(** The base URL of the stream route. *)
Definition stream_target (targetUrl : option json) : string :=
  to_js_string (default (JStr "http://localhost:3000") (if_truthy targetUrl)).

(** X17. When the probes of [/run-tests-stream] complete in any order,
    the route writes one result event for each test, in the order of
    completion, and then one closing event. The closing event counts
    the tests and the results that passed and that failed; the results
    with the status ERROR are counted in neither, so that the two
    counts fall short of the total by their number. The route takes
    its base URL from [targetUrl] alone. *)
Theorem stream_of_results (targetUrl concurrency : option json) (tests : list json)
  (net : nat -> axios_config -> axios_reply) (order : list nat)
  (events : list sse_event) :
  order ≡ₚ seq 0 (length tests) ->
  run_tests_stream URL_ok REQUEST_CONCURRENCY (Some (JArr tests)) targetUrl
    concurrency net order = Streamed events ->
  events = [StreamError]
  \/ exists results sent,
       length results = length tests
       /\ (forall i test, tests !! i = Some test ->
             results !! i = executeTest test (stream_target targetUrl) (net i))
       /\ sent ≡ₚ results
       /\ sent = omap (fun i => results !! i) order
       /\ events
          = List.map TestResult sent
            ++ [Done (length tests) (count_status PASSED results)
                  (count_status FAILED results)]
       /\ (count_status PASSED results + count_status FAILED results
           + count_status ERROR results)%nat = length tests.
Proof.
  intros Hperm H. unfold run_tests_stream in H.
  destruct tests as [|t ts] eqn:Et; [discriminate H|]. rewrite <- Et in *.
  fold (stream_target targetUrl) in H.
  destruct (URL_ok (stream_target targetUrl)); [|discriminate H]. cbn [negb] in H.
  destruct (chosen_concurrency concurrency REQUEST_CONCURRENCY) as [c|];
    [|injection H as <-; now left].
  destruct (Z.ltb 0 c); [|injection H as <-; now left].
  destruct (run_from 0 tests (stream_target targetUrl) net) as [rs|] eqn:Er;
    [|discriminate H].
  injection H as <-. right.
  destruct (run_from_lookup _ _ _ _ _ Er) as [Len Hall].
  exists rs, (omap (fun i => rs !! i) order).
  split; [exact Len|]. split; [exact Hall|].
  split; [apply omap_lookup_all; now rewrite Len|].
  split; [reflexivity|]. split; [now rewrite Len|].
  rewrite <- Len. apply count_status_total.
Qed.

End StreamFacts.

(** ** What the patching step keeps *)

Module KeepFacts.

Import JsString Json Coerce Store StoreFacts PatchFacts.

(** A computation keeps the value [x] of the property [k]: the store
    does not shrink, and an object that held [x] under [k] before holds
    it after. *)
Definition keeps {A : Type} (k : string) (x : value) (m : M A) : Prop :=
  forall h a h',
    m h = Some (a, h') ->
    (length h <= length h')%nat
    /\ forall l, (l < length h)%nat ->
         read h (VRef l) k = x -> read h' (VRef l) k = x.

Lemma keeps_ret {A : Type} (k : string) (x : value) (a : A) : keeps k x (ret a).
Proof. intros h b h' H. apply ret_inv in H as [_ ->]. auto. Qed.

Lemma keeps_bind {A B : Type} (k : string) (x : value) (m : M A) (f : A -> M B) :
  keeps k x m -> (forall a, keeps k x (f a)) -> keeps k x (bind m f).
Proof.
  intros Hm Hf h b h2 H. apply bind_inv in H as (a & h1 & H1 & H2).
  destruct (Hm _ _ _ H1) as [L1 K1]. destruct (Hf a _ _ _ H2) as [L2 K2].
  split; [lia|]. intros l Hl Hx. apply K2; [lia|]. now apply K1.
Qed.

Lemma keeps_get (k : string) (x : value) (v : value) (k' : string) :
  keeps k x (get v k').
Proof. intros h a h' H. apply get_inv in H as [-> _]. auto. Qed.

Lemma keeps_set (k : string) (x : value) (v : value) (k' : string) (y : value) :
  (k' = k -> y = x) -> keeps k x (set v k' y).
Proof.
  intros Hk h a h' H. apply set_inv in H as (l0 & -> & Hl0 & Hlen & Hrd).
  split; [lia|]. intros l Hl Hx. rewrite Hrd.
  case_decide as Hd; [destruct Hd as [_ E]; symmetry in E; now apply Hk | exact Hx].
Qed.

Lemma keeps_delete (k : string) (x : value) (v : value) (k' : string) :
  k' <> k -> keeps k x (delete v k').
Proof.
  intros Hk h a h' H. destruct v as [| | | | |l0]; try discriminate H;
    try (injection H as _ <-; now auto).
  apply delete_inv in H as (Hl0 & Hlen & Hrd).
  split; [lia|]. intros l Hl Hx. rewrite Hrd.
  case_decide as Hd; [destruct Hd as [_ E]; symmetry in E; now destruct Hk | exact Hx].
Qed.

Lemma keeps_new_obj (k : string) (x : value) (p : list (string * value)) :
  keeps k x (new_obj p).
Proof.
  intros h a h' H. apply new_obj_inv in H as (_ & Hlen & Hrd).
  split; [lia|]. intros l Hl Hx. rewrite Hrd. now rewrite decide_False by lia.
Qed.

Lemma keeps_new_spread (k : string) (x : value) (v : value) :
  keeps k x (new_spread v).
Proof. intros h a h' H. unfold new_spread in H. eapply keeps_new_obj; exact H. Qed.

Lemma keeps_if {A : Type} (k : string) (x : value) (b : bool) (m1 m2 : M A) :
  keeps k x m1 -> keeps k x m2 -> keeps k x (if b then m1 else m2).
Proof. now destruct b. Qed.

(** The keys that the patching step writes behind the target of the
    request. *)
Definition patched_keys : list string :=
  ["body"; "name"; "email"; "expected_response"; "status"].

Ltac keep_key Hk :=
  let E := fresh in
  intros E; first [ discriminate E
                  | exfalso; apply Hk; rewrite <- E; cbn [In patched_keys]; tauto ].

Ltac keep :=
  repeat first
    [ apply keeps_bind; [|intros ?]
    | apply keeps_if
    | apply keeps_get
    | apply keeps_ret
    | apply keeps_new_obj
    | apply keeps_new_spread ].

Lemma keeps_set_request_body (k : string) (x : value) (tc b : value) :
  ~ In k patched_keys -> keeps k x (set_request_body tc b).
Proof.
  intros Hk. unfold set_request_body. keep. apply keeps_set. keep_key Hk.
Qed.

Lemma keeps_expected_status (k : string) (x : value) (tc : value)
  (status : value -> Z) :
  k <> "expected_response" -> k <> "status" ->
  keeps k x (set_expected_status tc status).
Proof.
  intros H1 H2. unfold set_expected_status.
  keep; apply keeps_set; intros E; symmetry in E; first [now destruct H1 | now destruct H2].
Qed.

Lemma keeps_set_expected_status (k : string) (x : value) (tc : value)
  (status : value -> Z) :
  ~ In k patched_keys -> keeps k x (set_expected_status tc status).
Proof.
  intros Hk. apply keeps_expected_status; intros E; apply Hk; rewrite E;
    cbn [In patched_keys]; tauto.
Qed.

Lemma keeps_patch_body (k : string) (x : value) (sb tc : value) :
  ~ In k patched_keys -> keeps k x (patch_body sb tc).
Proof.
  intros Hk. unfold patch_body.
  keep;
    first [ apply keeps_set_request_body; exact Hk
          | apply keeps_delete; keep_key Hk
          | apply keeps_set; keep_key Hk ].
Qed.

(** The part of an iteration behind the target of the request. *)
Lemma keeps_rest (k : string) (x : value) (m : string) (sb tc : value)
  (f g : value -> Z) :
  ~ In k patched_keys ->
  keeps k x
    (if bears_body m then
       do* patch_body sb tc in set_expected_status tc f
     else
       let* r4 := get tc "request" in
       do* delete r4 "body" in
       set_expected_status tc g).
Proof.
  intros Hk. destruct (bears_body m).
  - apply keeps_bind; [apply keeps_patch_body; exact Hk|].
    intros _. apply keeps_set_expected_status; exact Hk.
  - apply keeps_bind; [apply keeps_get | intros r4].
    apply keeps_bind; [apply keeps_delete; keep_key Hk|].
    intros _. apply keeps_set_expected_status; exact Hk.
Qed.

(** One iteration of the loop keeps every property that is not among
    the keys it writes, and keeps the target it writes itself. *)
Lemma keeps_patch_case (k : string) (x : value) (m e : string) (hdrs sb tc : value) :
  ~ In k patched_keys -> k <> "request" ->
  (k = "method" -> x = VStr m) -> (k = "endpoint" -> x = VStr e) ->
  (k = "headers" -> x = hdrs) ->
  keeps k x (patch_case m e hdrs sb tc).
Proof.
  intros Hk Hr Hm He Hh. unfold patch_case.
  repeat (apply keeps_bind; [|intros ?]);
    first [ apply keeps_rest; exact Hk
          | apply keeps_get
          | apply keeps_if; [apply keeps_ret | apply keeps_new_obj]
          | apply keeps_set; intros E; symmetry in E;
            first [ symmetry; exact (Hm E) | symmetry; exact (He E)
                  | symmetry; exact (Hh E) | now destruct Hr ] ].
Qed.

Lemma keeps_patch_all (k : string) (x : value) (m e : string) (hdrs sb : value)
  (tcs : list value) :
  ~ In k patched_keys -> k <> "request" ->
  (k = "method" -> x = VStr m) -> (k = "endpoint" -> x = VStr e) ->
  (k = "headers" -> x = hdrs) ->
  keeps k x (patch_all m e hdrs sb tcs).
Proof.
  intros Hk Hr Hm He Hh. induction tcs as [|tc tcs IH]; cbn [patch_all].
  - apply keeps_ret.
  - apply keeps_bind; [now apply keeps_patch_case | intros _; exact IH].
Qed.

(** The properties of an object that the loop never writes. *)
Lemma patch_all_frame (k : string) (m e : string) (hdrs sb : value)
  (tcs : list value) (h h' : heap) (u : unit) :
  ~ In k patched_keys -> k <> "request" ->
  k <> "method" -> k <> "endpoint" -> k <> "headers" ->
  patch_all m e hdrs sb tcs h = Some (u, h') ->
  forall l, (l < length h)%nat -> read h' (VRef l) k = read h (VRef l) k.
Proof.
  intros Hk Hr H1 H2 H3 H l Hl.
  apply (keeps_patch_all k (read h (VRef l) k) m e hdrs sb tcs Hk Hr) in H;
    [|intros E; now destruct H1 | intros E; now destruct H2
     | intros E; now destruct H3].
  now apply H.
Qed.

(** The target that one iteration gives to the request of its case. *)
Lemma patch_case_target (m e : string) (hdrs sb tc : value) (h h' : heap) (u : unit) :
  patch_case m e hdrs sb tc h = Some (u, h') ->
  exists r,
    (r < length h')%nat
    /\ read h' tc "request" = VRef r
    /\ read h' (VRef r) "method" = VStr m
    /\ read h' (VRef r) "endpoint" = VStr e
    /\ read h' (VRef r) "headers" = hdrs.
Proof.
  unfold patch_case. intros H.
  apply bind_inv in H as (r0 & h0 & Hm & H).
  assert (exists ltc, tc = VRef ltc /\ (ltc < length h)%nat) as (ltc & -> & Hltc).
  { destruct tc as [| | | | |ltc]; try discriminate Hm.
    - apply bind_inv in H as (x & hx & Hx & H).
      assert (Hs : forall k v hy, set (VBool b) k v hy = @None (unit * heap))
        by reflexivity.
      apply bind_inv in H as (y & hy & Hy & H). now rewrite Hs in Hy.
    - apply bind_inv in H as (x & hx & Hx & H).
      apply bind_inv in H as (y & hy & Hy & H). discriminate Hy.
    - apply bind_inv in H as (x & hx & Hx & H).
      apply bind_inv in H as (y & hy & Hy & H). discriminate Hy.
    - exists ltc. split; [reflexivity|]. eapply get_ref; exact Hm. }
  apply get_inv in Hm as [-> ->].
  apply bind_inv in H as (rv & h1 & Hm & H).
  assert (exists r, rv = VRef r /\ (length h <= length h1)%nat /\ (r < length h1)%nat)
    as (r & -> & Hlen1 & Hr1).
  { destruct (truthy (read h (VRef ltc) "request")) eqn:Et.
    - apply ret_inv in Hm as [-> ->].
      step_set H. step_get H. norm_in H. step_set H.
      match goal with
      | Hx : read h (VRef ltc) "request" = VRef ?l |- _ =>
          exists l; rewrite Hx; split; [reflexivity|]; split; lia
      end.
    - apply new_obj_inv in Hm as (-> & Hlen & Hrd).
      exists (length h). split; [reflexivity|]. split; lia. }
  clear Hm.
  step_set H. step_get H. norm_in H. step_set H.
  step_get H. norm_in H. step_set H.
  step_get H. norm_in H. step_set H.
  assert (read h4 (VRef ltc) "request" = VRef r) as Hr4 by (norm_goal; reflexivity).
  assert (read h4 (VRef r) "method" = VStr m) as Hm4 by (norm_goal; reflexivity).
  assert (read h4 (VRef r) "endpoint" = VStr e) as He4 by (norm_goal; reflexivity).
  assert (read h4 (VRef r) "headers" = hdrs) as Hh4 by (norm_goal; reflexivity).
  assert (forall k, ~ In k patched_keys ->
          forall l x, (l < length h4)%nat ->
            read h4 (VRef l) k = x -> read h' (VRef l) k = x) as Hkeep.
  { intros k Hk l x Hl Hx.
    exact (proj2 (keeps_rest k x m sb (VRef ltc) _ _ Hk _ _ _ H) l Hl Hx). }
  assert (length h4 <= length h')%nat as Hlen'.
  { refine (proj1 (keeps_rest "request" VUndef m sb (VRef ltc) _ _ _ _ _ _ H)).
    cbn [In patched_keys]. intros [E|[E|[E|[E|[E|[]]]]]]; discriminate E. }
  assert (forall k : string, k ∈ ["request"; "method"; "endpoint"; "headers"] ->
            ~ In k patched_keys) as Hout.
  { intros k Hk. cbn [In patched_keys].
    repeat (apply elem_of_cons in Hk as [->|Hk]);
      [..|now apply elem_of_nil in Hk];
      intros [E|[E|[E|[E|[E|[]]]]]]; discriminate E. }
  exists r. split; [lia|].
  split; [apply Hkeep; [apply Hout;
      repeat first [apply list_elem_of_here | apply list_elem_of_further] | lia | exact Hr4]|].
  split; [apply Hkeep; [apply Hout;
      repeat first [apply list_elem_of_here | apply list_elem_of_further] | lia | exact Hm4]|].
  split; [apply Hkeep; [apply Hout;
      repeat first [apply list_elem_of_here | apply list_elem_of_further] | lia | exact He4]|].
  apply Hkeep; [apply Hout;
      repeat first [apply list_elem_of_here | apply list_elem_of_further] | lia | exact Hh4].
Qed.

(** The cases of a batch lie below the bound of its layout. *)
Lemma separated_bound (h : heap) (n0 : nat) (tcs : list value) :
  forall lo, separated h lo n0 tcs -> forall l, VRef l ∈ tcs -> (l < n0)%nat.
Proof.
  induction tcs as [|tc rest IH]; intros lo Hsep l Hin.
  - now apply elem_of_nil in Hin.
  - apply elem_of_cons in Hin as [E|Hin].
    + subst tc. simpl in Hsep. lia.
    + destruct tc; simpl in Hsep; try (eapply IH; eassumption).
      destruct Hsep as (_ & _ & Hrest). eapply IH; eassumption.
Qed.

End KeepFacts.

Section PatchedTargets.

Import JsString Json Coerce Store StoreFacts PatchFacts KeepFacts.

Variable JSON_parse : string -> option json.
Variable ceil_millis : string -> option Z.

Lemma target_keys_kept (k : string) :
  k ∈ ["method"; "endpoint"; "headers"] -> ~ In k patched_keys /\ k <> "request".
Proof.
  intros Hk. cbn [In patched_keys].
  repeat (apply elem_of_cons in Hk as [->|Hk]); [..|now apply elem_of_nil in Hk];
    (split; [intros [E|[E|[E|[E|[E|[]]]]]]; discriminate E | discriminate]).
Qed.

Lemma patch_all_targets (m e : string) (hdrs sb : value) (n0 : nat)
  (tcs : list value) :
  forall (h h' : heap) (lo : nat) (u : unit),
    (n0 <= length h)%nat ->
    separated h lo n0 tcs ->
    patch_all m e hdrs sb tcs h = Some (u, h') ->
    forall tc, tc ∈ tcs ->
      exists r,
        read h' tc "request" = VRef r
        /\ read h' (VRef r) "method" = VStr m
        /\ read h' (VRef r) "endpoint" = VStr e
        /\ read h' (VRef r) "headers" = hdrs.
Proof.
  induction tcs as [|tc0 rest IH]; intros h h' lo u Hn0 Hsep H tc Hin.
  - now apply elem_of_nil in Hin.
  - cbn [patch_all] in H. apply bind_inv in H as (u1 & h1 & Hcase & H).
    pose proof (patch_case_target _ _ _ _ _ _ _ _ Hcase)
      as (r & Hr & Hreq & Hm & He & Hh).
    apply patch_case_effect in Hcase
      as (ltc & r' & E & -> & Hltc & Hlen1 & _ & _ & _ & _ & _ & _ & _ & _ & Hfexp & _).
    simpl in Hsep. destruct Hsep as (Hrange & Hchild & Hrest).
    assert (separated h1 (S ltc) n0 rest) as Hrest1.
    { eapply separated_heap; [|exact Hrest]. intros l Hl. apply Hfexp; lia. }
    apply elem_of_cons in Hin as [->|Hin];
      [|exact (IH h1 h' (S ltc) u ltac:(lia) Hrest1 H tc Hin)].
    pose proof (patch_all_patched m e hdrs sb n0 rest h1 h' (S ltc) u
                  ltac:(lia) Hrest1 H) as P.
    exists r. split.
    { rewrite (patched_request _ _ _ _ _ _ _ P ltc) by lia. exact Hreq. }
    assert (forall k x, k ∈ ["method"; "endpoint"; "headers"] ->
              (k = "method" -> x = VStr m) -> (k = "endpoint" -> x = VStr e) ->
              (k = "headers" -> x = hdrs) ->
              read h1 (VRef r) k = x -> read h' (VRef r) k = x) as Hkeep.
    { intros k x Hk K1 K2 K3 Hx. destruct (target_keys_kept k Hk) as [Hout Hnr].
      exact (proj2 (keeps_patch_all k x m e hdrs sb rest Hout Hnr K1 K2 K3 _ _ _ H)
               r Hr Hx). }
    split; [|split];
      (apply Hkeep;
       [repeat first [apply list_elem_of_here | apply list_elem_of_further]
       | try discriminate; auto ..]).
Qed.

(** X18. After the patching step every case of a batch that the
    generation returned has a request object with the method, the
    endpoint and the headers of the validated specification, whatever
    request the model proposed for it. *)
Theorem patched_targets (maxRetries : nat) (w : world) (h2 : heap)
  (m e : string) (hdrs spec_body : value)
  (tcs : list value) (h3 h4 : heap) (t : list event) (u : unit) :
  generateWithRetry JSON_parse ceil_millis maxRetries w h2 = (Returned tcs h3, t) ->
  patch_all m e hdrs spec_body tcs h3 = Some (u, h4) ->
  forall i tc, tcs !! i = Some tc ->
    exists r,
      read h4 tc "request" = VRef r
      /\ read h4 (VRef r) "method" = VStr m
      /\ read h4 (VRef r) "endpoint" = VStr e
      /\ read h4 (VRef r) "headers" = hdrs.
Proof.
  intros Hgen Hpatch i tc Hi.
  apply attempts_separated in Hgen.
  apply (patch_all_targets m e hdrs spec_body (length h3) tcs h3 h4 0 u
           (Nat.le_refl _) Hgen Hpatch).
  eapply list_elem_of_lookup_2; exact Hi.
Qed.

Lemma count_category_ext (h h' : heap) (tcs : list value) (c : string) :
  (forall tc, tc ∈ tcs -> read h' tc "category" = read h tc "category") ->
  count_category h' tcs c = count_category h tcs c.
Proof.
  unfold count_category. intros Hsame. f_equal.
  induction tcs as [|tc rest IH]; [reflexivity|].
  rewrite !filter_cons, (Hsame tc) by apply list_elem_of_here.
  assert (length (filter (fun tc => is_str (read h' tc "category") c = true) rest)
          = length (filter (fun tc => is_str (read h tc "category") c = true) rest))
    as IH' by (apply IH; intros tc' Hin; apply Hsame; now apply list_elem_of_further).
  case_decide; cbn [length]; now rewrite IH'.
Qed.

Lemma patch_all_labels (m e : string) (hdrs spec_body : value)
  (tcs : list value) (h3 h4 : heap) (u : unit) :
  separated h3 0 (length h3) tcs ->
  patch_all m e hdrs spec_body tcs h3 = Some (u, h4) ->
  (forall k l,
     ~ In k ["request"; "method"; "endpoint"; "headers"; "body"; "name"; "email";
             "expected_response"; "status"] ->
     (l < length h3)%nat ->
     read h4 (VRef l) k = read h3 (VRef l) k)
  /\ (forall tc k, tc ∈ tcs -> In k ["id"; "category"; "description"] ->
        read h4 tc k = read h3 tc k)
  /\ (forall c, count_category h4 tcs c = count_category h3 tcs c).
Proof.
  intros Hgen H.
  assert (forall k l,
            ~ In k ["request"; "method"; "endpoint"; "headers"; "body"; "name"; "email";
                    "expected_response"; "status"] ->
            (l < length h3)%nat ->
            read h4 (VRef l) k = read h3 (VRef l) k) as Hframe.
  { intros k l Hk Hl.
    apply (patch_all_frame k m e hdrs spec_body tcs h3 h4 u); try exact H; try exact Hl;
      try (intros E; apply Hk; subst k; cbn [In]; tauto).
    intros Hin. apply Hk. cbn [In patched_keys] in Hin. cbn [In]. tauto. }
  assert (forall tc k, tc ∈ tcs -> In k ["id"; "category"; "description"] ->
            read h4 tc k = read h3 tc k) as Hlab.
  { intros tc k Hin Hk. destruct tc as [| | | | |l]; try reflexivity.
    apply Hframe; [|exact (separated_bound _ _ _ _ Hgen l Hin)].
    cbn [In] in *. intros F.
    destruct Hk as [<-|[<-|[<-|[]]]];
      repeat (destruct F as [F|F]; [discriminate F|]); exact F. }
  split; [exact Hframe|]. split; [exact Hlab|].
  intros c. apply count_category_ext. intros tc Hin. apply Hlab; [exact Hin|].
  cbn [In]. tauto.
Qed.

(** X19. The patching step never changes the identifier, the category
    or the description of a case of a batch that the generation
    returned, nor any property of an object of that batch but
    [request], [method], [endpoint], [headers], [body], [name],
    [email], [expected_response] and [status]; so the counts by
    category of the answer are those of the batch as it was
    generated. *)
Theorem patching_keeps_labels (maxRetries : nat) (w : world) (h2 : heap)
  (m e : string) (hdrs spec_body : value)
  (tcs : list value) (h3 h4 : heap) (t : list event) (u : unit) :
  generateWithRetry JSON_parse ceil_millis maxRetries w h2 = (Returned tcs h3, t) ->
  patch_all m e hdrs spec_body tcs h3 = Some (u, h4) ->
  (forall k l,
     ~ In k ["request"; "method"; "endpoint"; "headers"; "body"; "name"; "email";
             "expected_response"; "status"] ->
     (l < length h3)%nat ->
     read h4 (VRef l) k = read h3 (VRef l) k)
  /\ (forall tc k, tc ∈ tcs -> In k ["id"; "category"; "description"] ->
        read h4 tc k = read h3 tc k)
  /\ (forall c, count_category h4 tcs c = count_category h3 tcs c).
Proof.
  intros Hgen H. apply attempts_separated in Hgen.
  exact (patch_all_labels _ _ _ _ _ _ _ _ Hgen H).
Qed.

Local Opaque fallback.

Lemma count_labelled (h : heap) (c : string) (tcs : list value) :
  forall k,
    (forall i tc, tcs !! i = Some tc ->
       read h tc "category" = VStr (band (S (k + i)))) ->
    count_category h tcs c
    = Z.of_nat (length (List.filter (fun i => String.eqb (band (S i)) c)
                          (seq k (length tcs)))).
Proof.
  unfold count_category.
  induction tcs as [|tc rest IH]; intros k Hlab; [reflexivity|].
  cbn [length seq List.filter]. rewrite filter_cons.
  rewrite (Hlab 0%nat tc eq_refl), Nat.add_0_r. cbn [is_str].
  specialize (IH (S k)).
  assert (forall i tc', rest !! i = Some tc' ->
            read h tc' "category" = VStr (band (S (S k + i)))) as Hrest.
  { intros i tc' Hi. rewrite (Hlab (S i) tc' Hi). do 3 f_equal. lia. }
  specialize (IH Hrest). apply Nat2Z.inj in IH.
  f_equal. destruct (String.eqb (band (S k)) c) eqn:E.
  - rewrite decide_True by reflexivity. cbn [length]. now rewrite IH.
  - rewrite decide_False by discriminate. exact IH.
Qed.

Lemma fallback_counts (h h' : heap) (tcs : list value) :
  fallback h = Returned tcs h' ->
  count_category h' tcs "valid" = 3 /\ count_category h' tcs "invalid" = 4
  /\ count_category h' tcs "boundary" = 3 /\ count_category h' tcs "security" = 2.
Proof.
  intros H. destruct (fallback_spec h) as (tcs0 & h0 & E & Hlen & Hlab).
  rewrite E in H. injection H as <- <-.
  assert (forall c, count_category h0 tcs0 c
                    = Z.of_nat (length (List.filter
                                          (fun i => String.eqb (band (S i)) c)
                                          (seq 0 12)))) as Hc.
  { intros c. rewrite <- Hlen. apply count_labelled. intros i tc Hi.
    exact (proj2 (Hlab i tc (Nat.le_0_l i) Hi)). }
  rewrite !Hc. repeat split; vm_compute; reflexivity.
Qed.

(** X20. When every call of the model fails, without an authentication
    error, a fresh answer of status 200 reports the counts of the
    fallback batch: 3 valid, 4 invalid, 3 boundary and 2 security cases
    of 12. *)
Theorem fallback_answer (v : validated) (t_set : Z) (w : world) (c c2 : cache)
  (data : json) (t : list event) :
  (forall k, exists e,
     model w k = Failure e /\ (isQuota e = true \/ isAuth e = false)) ->
  generate_and_store JSON_parse ceil_millis v t_set w c = (Respond 200 data, c2, t) ->
  prop data "summary"
  = Some (JObj [("total", JNum 12); ("valid", JNum 3); ("invalid", JNum 4);
                ("boundary", JNum 3); ("security", JNum 2)])
  /\ prop data "message" = Some (JStr "Generated 12 test cases").
Proof.
  intros Hall. unfold generate_and_store.
  destruct (alloc (headers v) []) as [hdrs h1].
  destruct (alloc (body v) h1) as [spec_body h2].
  pose proof (attempts_all_fail JSON_parse ceil_millis 3 1 3 w h2 Hall) as Hfb.
  unfold generateWithRetry.
  destruct (attempts JSON_parse ceil_millis 3 1 3 w h2) as [[tcs h3|e] t0] eqn:Eg;
    [|intros H; destruct (generation_error_triple _ _ _ _ _ _ H)].
  cbn [fst] in Hfb. symmetry in Hfb.
  destruct (fallback_counts _ _ _ Hfb) as (C1 & C2 & C3 & C4).
  destruct (attempts_batch _ _ _ _ _ _ _ _ _ _ Eg) as [Hlen _].
  destruct (patch_all (method v) (endpoint v) hdrs spec_body tcs h3) as [[u h4]|] eqn:Ep;
    [|intros H; destruct (generation_error_triple _ _ _ _ _ _ H)].
  destruct (patch_all_labels _ _ _ _ _ _ _ _
              (attempts_separated _ _ _ _ _ _ _ _ _ _ Eg) Ep) as (_ & _ & Hcount).
  unfold responseData.
  destruct (reify_all h4 tcs) as [js|];
    [|intros H; destruct (generation_error_triple _ _ _ _ _ _ H)].
  intros H. apply pair_equal_spec in H as [H _]. apply pair_equal_spec in H as [H _].
  injection H as <-. rewrite !Hcount, C1, C2, C3, C4, Hlen. split; reflexivity.
Qed.

End PatchedTargets.

(** ** The cases filled in behind a reply *)

Section SharedRequest.

Import JsString Json Coerce Store StoreFacts PatchFacts KeepFacts.

Variable JSON_parse : string -> option json.
Variable ceil_millis : string -> option Z.

Lemma read_kept (h h' : heap) (v : value) (k : string) :
  h `prefix_of` h' -> (forall l, v = VRef l -> (l < length h)%nat) ->
  read h' v k = read h v k.
Proof.
  intros P Hv. destruct v as [| | | | |l]; try reflexivity.
  apply read_prefix; [exact P | now apply Hv].
Qed.

Lemma filler_shares (idx : nat) (first : value) (h : heap) :
  truthy (read h first "request") = true ->
  exists l h',
    filler idx first h = (VRef l, h') /\ h `prefix_of` h' /\ (l < length h')%nat
    /\ read h' (VRef l) "request" = read h first "request".
Proof.
  intros Ht. unfold filler. rewrite Ht, !fresh_spec.
  eexists _, _. split; [reflexivity|]. split; [|split].
  - repeat (etrans; [|apply prefix_snoc]). reflexivity.
  - rewrite !length_app. simpl. lia.
  - now rewrite read_new.
Qed.

Lemma fill_shares (fuel : nat) :
  forall (vs : list value) (h : heap) (first : value),
    head vs = Some first ->
    (forall l, first = VRef l -> (l < length h)%nat) ->
    truthy (read h first "request") = true ->
    forall i tc, (length vs <= i)%nat -> fst (fill fuel vs h) !! i = Some tc ->
      read (snd (fill fuel vs h)) tc "request" = read h first "request"
      /\ read (snd (fill fuel vs h)) first "request" = read h first "request".
Proof.
  induction fuel as [|fuel IH]; intros vs h first Hhead Hfirst Ht i tc Hi Htc.
  - cbn [fill fst snd] in *. apply lookup_lt_Some in Htc. lia.
  - cbn [fill] in *. destruct (Nat.ltb (length vs) 12);
      [|cbn [fst snd] in *; apply lookup_lt_Some in Htc; lia].
    rewrite Hhead in Htc |- *.
    change (default VUndef (Some first)) with first in Htc |- *.
    destruct (filler_shares (length vs + 1) first h Ht) as (l & h1 & E & P1 & L & Hreq).
    rewrite E in Htc |- *.
    assert (head (vs ++ [VRef l]) = Some first) as Hhead1
      by (destruct vs; [discriminate Hhead | exact Hhead]).
    assert (forall l0, first = VRef l0 -> (l0 < length h1)%nat) as Hfirst1.
    { intros l0 E0. specialize (Hfirst l0 E0). apply prefix_length in P1. lia. }
    assert (read h1 first "request" = read h first "request") as Hsame
      by (apply read_kept; assumption).
    assert (truthy (read h1 first "request") = true) as Ht1 by (now rewrite Hsame).
    pose proof (fill_spec fuel (vs ++ [VRef l]) h1) as (extra & h2 & E2 & P2 & _).
    destruct (decide (i = length vs)) as [->|Hne].
    + rewrite E2 in *. cbn [fst snd] in *.
      rewrite <- app_assoc in Htc. rewrite lookup_app_r in Htc by lia.
      replace (length vs - length vs)%nat with O in Htc by lia.
      cbn in Htc. injection Htc as <-.
      split.
      * rewrite (read_prefix h1 h2) by assumption. exact Hreq.
      * rewrite (read_kept h1 h2) by assumption. exact Hsame.
    + rewrite <- Hsame.
      apply (IH (vs ++ [VRef l]) h1 first Hhead1 Hfirst1 Ht1 i tc);
        [rewrite length_app; cbn [length]; lia | exact Htc].
Qed.

Lemma on_reply_shares (text : string) (h : heap) (tcs : list value)
  (h' : heap) (l : list json) (first : value) :
  on_reply JSON_parse text h = inr (tcs, h') ->
  recovered JSON_parse text = Some l ->
  tcs !! 0%nat = Some first ->
  truthy (read h' first "request") = true ->
  forall i tc, (length l <= i)%nat -> tcs !! i = Some tc ->
    read h' tc "request" = read h' first "request".
Proof.
  unfold on_reply. intros H Hrec Hfirst Ht i tc Hi Htc. rewrite Hrec in H.
  destruct (Nat.ltb_spec (length l) 4) as [|Hlen]; [discriminate H|].
  pose proof (alloc_list_length l h) as Hvs.
  destruct (alloc_list_separated l h) as (vs & h1 & E1 & P1 & Hsep1).
  rewrite E1 in H, Hvs. cbn [fst] in Hvs.
  destruct (fill 12 vs h1) as [tcs0 h2] eqn:Ef.
  injection H as <- <-.
  assert (i < 12)%nat as Hi12.
  { apply lookup_lt_Some in Htc. rewrite length_take in Htc. lia. }
  rewrite lookup_take_lt in Htc by exact Hi12.
  rewrite lookup_take_lt in Hfirst by lia.
  pose proof (fill_spec 12 vs h1) as (extra & h2' & E2 & P2 & _).
  rewrite Ef in E2. injection E2 as -> <-.
  assert (head vs = Some first) as Hhead.
  { destruct vs as [|v0 vs]; [cbn in Hvs; lia|]. cbn in Hfirst. exact Hfirst. }
  assert (forall l0, first = VRef l0 -> (l0 < length h1)%nat) as Hvalid.
  { intros l0 ->. apply (separated_bound h1 (length h1) vs _ Hsep1).
    destruct vs as [|v0 vs]; [discriminate Hhead|]. injection Hhead as ->.
    apply list_elem_of_here. }
  assert (read h2 first "request" = read h1 first "request") as Hsame
    by (apply read_kept; assumption).
  rewrite Hsame in Ht.
  pose proof (fill_shares 12 vs h1 first Hhead Hvalid Ht i tc) as Hs.
  rewrite Ef in Hs. cbn [fst snd] in Hs.
  destruct (Hs ltac:(lia) Htc) as [Hr _]. now rewrite Hr, Hsame.
Qed.

(** X21. In a batch made from a reply of fewer than twelve cases, the
    cases filled in behind those of the reply do not get a request of
    their own: when the first case has a request, each of them holds
    that very object, together with the first case. *)
Theorem filled_cases_share_request (text : string) (h : heap) (tcs : list value)
  (h' : heap) (l : list json) (first : value) :
  on_reply JSON_parse text h = inr (tcs, h') ->
  recovered JSON_parse text = Some l ->
  tcs !! 0%nat = Some first ->
  truthy (read h' first "request") = true ->
  forall i tc, (length l <= i)%nat -> tcs !! i = Some tc ->
    read h' tc "request" = read h' first "request".
Proof.
  intros H Hrec Hfirst Ht i tc Hi Htc.
  exact (on_reply_shares text h tcs h' l first H Hrec Hfirst Ht i tc Hi Htc).
Qed.

End SharedRequest.

Section OverwrittenBody.

Import JsString Json Coerce Store StoreFacts PatchFacts KeepFacts.

Variable JSON_parse : string -> option json.
Variable ceil_millis : string -> option Z.

(** The body that the loop writes for a case of the category
    [security]. *)
Definition security_body (h : heap) (b : value) : Prop :=
  read h b "name" = VStr "<script>alert('XSS')</script>"
  /\ read h b "email" = VStr "test@test.com' OR '1'='1".

Lemma patch_case_security (m e : string) (hdrs sb : value) (ltc r0 : loc)
  (h h' : heap) (u : unit) :
  patch_case m e hdrs sb (VRef ltc) h = Some (u, h') ->
  bears_body m = true ->
  read h (VRef ltc) "category" = VStr "security" ->
  read h (VRef ltc) "request" = VRef r0 ->
  exists b,
    read h' (VRef ltc) "request" = VRef r0
    /\ read h' (VRef r0) "body" = VRef b
    /\ security_body h' (VRef b).
Proof.
  unfold patch_case. intros H Hb Hcat Hreq.
  step_get H. rewrite Hreq in H. cbn [truthy] in H.
  apply bind_inv in H as (rv & h1 & Hm & H). apply ret_inv in Hm as [-> ->].
  step_set H. step_get H. norm_in H. step_set H.
  step_get H. norm_in H. step_set H.
  step_get H. norm_in H. step_set H.
  rewrite Hb in H.
  assert (read h3 (VRef ltc) "request" = VRef r0) as Hr3
    by (norm_goal; first [reflexivity | assumption]).
  assert (read h3 (VRef ltc) "category" = VStr "security") as Hc3
    by (norm_goal; first [reflexivity | assumption]).
  apply bind_inv in H as (ub & hb & Hbody & H).
  unfold patch_body in Hbody. step_get Hbody. rewrite Hc3 in Hbody.
  cbn [is_str String.eqb Ascii.eqb Bool.eqb] in Hbody.
  step_new Hbody.
  assert (read h4 (VRef ltc) "request" = VRef r0) as Hr4.
  { rewrite Hrd3. rewrite decide_False by lia. exact Hr3. }
  last_body Hbody Hr4.
  assert (read hb (VRef ltc) "request" = VRef r0
          /\ read hb (VRef r0) "body" = VRef (length h3)
          /\ security_body hb (VRef (length h3))) as (Q1 & Q2 & Q3 & Q4).
  { unfold security_body. rewrite !Hrd4, !Hrd3.
    repeat split.
    - rewrite decide_False by (intros [_ E]; discriminate E).
      rewrite decide_False by lia. exact Hr3.
    - now rewrite decide_True by auto.
    - rewrite decide_False by (intros [_ E]; discriminate E).
      now rewrite decide_True by reflexivity.
    - rewrite decide_False by (intros [_ E]; discriminate E).
      now rewrite decide_True by reflexivity. }
  assert (forall k l x, k <> "expected_response" -> k <> "status" ->
            (l < length hb)%nat -> read hb (VRef l) k = x -> read h' (VRef l) k = x)
    as Hkeep.
  { intros k l x K1 K2 Hl Hx.
    exact (proj2 (keeps_expected_status k x (VRef ltc) _ K1 K2 _ _ _ H) l Hl Hx). }
  exists (length h3). unfold security_body.
  split; [apply Hkeep; [discriminate | discriminate | lia | exact Q1]|].
  split; [apply Hkeep; [discriminate | discriminate | lia | exact Q2]|].
  split; apply Hkeep; try discriminate; try lia; assumption.
Qed.

Lemma patch_case_request_kept (m e : string) (hdrs sb : value) (ltc r0 : loc)
  (h h' : heap) (u : unit) :
  patch_case m e hdrs sb (VRef ltc) h = Some (u, h') ->
  read h (VRef ltc) "request" = VRef r0 ->
  read h' (VRef ltc) "request" = VRef r0.
Proof.
  unfold patch_case. intros H Hreq.
  step_get H. rewrite Hreq in H. cbn [truthy] in H.
  apply bind_inv in H as (rv & h1 & Hm & H). apply ret_inv in Hm as [-> ->].
  step_set H. step_get H. norm_in H. step_set H.
  step_get H. norm_in H. step_set H.
  step_get H. norm_in H. step_set H.
  assert (read h3 (VRef ltc) "request" = VRef r0) as Hr3
    by (norm_goal; first [reflexivity | assumption]).
  refine (proj2 (keeps_rest "request" (VRef r0) m sb (VRef ltc) _ _ _ _ _ _ H)
            ltc ltac:(lia) Hr3).
  cbn [In patched_keys]. intros [E|[E|[E|[E|[E|[]]]]]]; discriminate E.
Qed.

Lemma patch_all_other_request (m e : string) (hdrs sb : value) (tcs : list value) :
  forall (h h' : heap) (u : unit),
    patch_all m e hdrs sb tcs h = Some (u, h') ->
    forall l, (l < length h)%nat -> VRef l ∉ tcs ->
      read h' (VRef l) "request" = read h (VRef l) "request".
Proof.
  induction tcs as [|tc rest IH]; intros h h' u H l Hl Hout.
  - apply ret_inv in H as [_ ->]. reflexivity.
  - cbn [patch_all] in H. apply bind_inv in H as (u1 & h1 & Hcase & H).
    apply patch_case_effect in Hcase
      as (ltc & r & E & -> & Hltc & Hlen1 & _ & _ & _ & _ & _ & _ & _ & _ & _ & Hfreq & _).
    rewrite (IH h1 h' u H l ltac:(lia)).
    + apply Hfreq; [exact Hl|]. intros ->. apply Hout, list_elem_of_here.
    + intros Hin. apply Hout. now apply list_elem_of_further.
Qed.

Lemma patch_all_first_request (m e : string) (hdrs sb : value) (l0 r0 n0 lo : nat)
  (rest : list value) (h h' : heap) (u : unit) :
  (n0 <= length h)%nat ->
  separated h lo n0 (VRef l0 :: rest) ->
  patch_all m e hdrs sb (VRef l0 :: rest) h = Some (u, h') ->
  read h (VRef l0) "request" = VRef r0 ->
  read h' (VRef l0) "request" = VRef r0.
Proof.
  intros Hn0 Hsep H Hreq.
  cbn [patch_all] in H. apply bind_inv in H as (u1 & h1 & Hcase & H).
  pose proof (patch_case_request_kept _ _ _ _ _ _ _ _ _ Hcase Hreq) as Hreq1.
  apply patch_case_effect in Hcase
    as (ltc & r & E & Etc & Hltc & Hlen1 & _ & _ & _ & _ & _ & _ & _ & _ & Hfexp & _).
  injection Etc as <-.
  simpl in Hsep. destruct Hsep as (Hrange & Hchild & Hrest).
  assert (separated h1 (S l0) n0 rest) as Hrest1.
  { eapply separated_heap; [|exact Hrest]. intros l Hl. apply Hfexp; lia. }
  pose proof (patch_all_patched m e hdrs sb n0 rest h1 h' (S l0) u
                ltac:(lia) Hrest1 H) as P.
  rewrite (patched_request _ _ _ _ _ _ _ P l0) by lia. exact Hreq1.
Qed.

Lemma patch_all_snoc (m e : string) (hdrs sb : value) (init : list value) (tc : value) :
  forall (h h' : heap) (u : unit),
    patch_all m e hdrs sb (init ++ [tc]) h = Some (u, h') ->
    exists hm u1 u2,
      patch_all m e hdrs sb init h = Some (u1, hm)
      /\ patch_case m e hdrs sb tc hm = Some (u2, h').
Proof.
  induction init as [|tc0 init IH]; intros h h' u H.
  - cbn [app patch_all] in H. apply bind_inv in H as (u2 & h1 & Hcase & H).
    apply ret_inv in H as [_ ->]. now exists h, tt, u2.
  - cbn [app patch_all] in H. apply bind_inv in H as (u0 & h1 & Hcase & H).
    destruct (IH h1 h' u H) as (hm & u1 & u2 & Hinit & Hlast).
    exists hm, u1, u2. split; [|exact Hlast].
    cbn [patch_all]. unfold bind. now rewrite Hcase.
Qed.

Lemma separated_lower (h : heap) (n0 : nat) (tcs : list value) :
  forall lo x, separated h lo n0 tcs -> VRef x ∈ tcs -> (lo <= x)%nat.
Proof.
  induction tcs as [|tc rest IH]; intros lo x Hsep Hin.
  - now apply elem_of_nil in Hin.
  - apply elem_of_cons in Hin as [E|Hin].
    + subst tc. simpl in Hsep. lia.
    + destruct tc; simpl in Hsep; try (eapply IH; eassumption).
      destruct Hsep as (Hr & _ & Hrest). specialize (IH _ _ Hrest Hin). lia.
Qed.

Lemma separated_last_fresh (h : heap) (n0 x : nat) (init : list value) :
  forall lo, separated h lo n0 (init ++ [VRef x]) -> VRef x ∉ init.
Proof.
  induction init as [|tc init IH]; intros lo Hsep Hin.
  - now apply elem_of_nil in Hin.
  - cbn [app] in Hsep. apply elem_of_cons in Hin as [E|Hin].
    + subst tc. simpl in Hsep. destruct Hsep as (_ & _ & Hrest).
      assert (S x <= x)%nat; [|lia].
      apply (separated_lower h n0 _ _ _ Hrest).
      apply elem_of_app. right. apply list_elem_of_here.
    + destruct tc; simpl in Hsep; try (eapply IH; eassumption).
      destruct Hsep as (_ & _ & Hrest). eapply IH; eassumption.
Qed.

(** X22. For POST, PUT and PATCH, in a batch made from a reply of
    fewer than twelve cases whose first case has a request object, that
    object is also the request of the twelfth case, a case of the
    category [security] filled in by the code: after the patching step
    the request of the first case carries the body written for the
    twelfth, whatever the category of the first case is. *)
Theorem first_case_body_overwritten (text : string) (h : heap) (tcs : list value)
  (h3 h4 : heap) (l : list json) (first : value) (r0 : loc)
  (m e : string) (hdrs sb : value) (u : unit) :
  on_reply JSON_parse text h = inr (tcs, h3) ->
  recovered JSON_parse text = Some l -> (length l < 12)%nat ->
  tcs !! 0%nat = Some first ->
  read h3 first "request" = VRef r0 ->
  bears_body m = true ->
  patch_all m e hdrs sb tcs h3 = Some (u, h4) ->
  exists b,
    read h4 first "request" = VRef r0
    /\ read h4 (VRef r0) "body" = VRef b
    /\ security_body h4 (VRef b).
Proof.
  intros Hrep Hrec Hl Hfirst Hreq Hb Hpatch.
  pose proof (on_reply_separated JSON_parse _ _ _ _ Hrep) as Hsep.
  destruct (on_reply_spec JSON_parse _ _ _ _ Hrep) as (Hlen & l' & Hrec' & _ & Hlab).
  rewrite Hrec in Hrec'. injection Hrec' as <-.
  assert (exists init last, tcs = init ++ [last] /\ length init = 11%nat)
    as (init & last & -> & Hinit).
  { exists (take 11 tcs), (default VUndef (tcs !! 11%nat)).
    split; [|rewrite length_take; lia].
    destruct (lookup_lt_is_Some_2 tcs 11 ltac:(lia)) as [x Hx].
    rewrite Hx. cbn [default].
    rewrite <- (take_drop 11 tcs) at 1. f_equal.
    apply list_eq. intros [|i].
    - rewrite lookup_drop, Nat.add_0_r. exact Hx.
    - rewrite lookup_drop. cbn. apply lookup_ge_None_2. lia. }
  assert ((init ++ [last]) !! 11%nat = Some last) as Hlast
    by (rewrite lookup_app_r by lia; now rewrite Hinit).
  destruct (Hlab 11%nat last ltac:(lia) Hlast) as [_ Hcat].
  change (band 12) with "security" in Hcat.
  assert (exists l11, last = VRef l11) as [l11 ->]
    by (destruct last; try discriminate Hcat; eauto).
  assert (exists l0, first = VRef l0) as [l0 ->]
    by (destruct first; try discriminate Hreq; eauto).
  assert (read h3 (VRef l11) "request" = VRef r0) as Hreq11.
  { rewrite <- Hreq.
    apply (on_reply_shares JSON_parse text h _ h3 l (VRef l0) Hrep Hrec Hfirst
             ltac:(now rewrite Hreq) 11%nat (VRef l11) ltac:(lia) Hlast). }
  assert (l0 < length h3 /\ l11 < length h3)%nat as [Hl0 Hl11].
  { split; apply (separated_bound h3 (length h3) _ _ Hsep).
    - eapply list_elem_of_lookup_2; exact Hfirst.
    - eapply list_elem_of_lookup_2; exact Hlast. }
  pose proof (separated_last_fresh _ _ _ _ _ Hsep) as Hfresh.
  destruct (patch_all_snoc _ _ _ _ _ _ _ _ _ Hpatch) as (hm & u1 & u2 & Hinitp & Hlastp).
  destruct init as [|tc0 init]; [discriminate Hinit|].
  cbn in Hfirst. injection Hfirst as ->.
  assert (separated h3 0 (length h3) (VRef l0 :: init)) as Hsep0.
  { replace (VRef l0 :: init) with (take 11 ((VRef l0 :: init) ++ [VRef l11])).
    - now apply separated_take.
    - rewrite take_app_length' by (symmetry; exact Hinit). reflexivity. }
  pose proof (patch_all_first_request _ _ _ _ _ _ _ _ _ _ _ _ (Nat.le_refl _)
                Hsep0 Hinitp Hreq) as Hreq0m.
  pose proof (patch_all_other_request _ _ _ _ _ _ _ _ Hinitp l11 Hl11 Hfresh)
    as Hreq11m.
  rewrite Hreq11 in Hreq11m.
  assert (length h3 <= length hm)%nat as Hlenm.
  { assert (~ In "id" patched_keys) as Hid
      by (cbn [In patched_keys]; intros [E|[E|[E|[E|[E|[]]]]]]; discriminate E).
    exact (proj1 (keeps_patch_all "id" VUndef m e hdrs sb (VRef l0 :: init) Hid
                    ltac:(discriminate) ltac:(discriminate) ltac:(discriminate)
                    ltac:(discriminate) _ _ _ Hinitp)). }
  assert (read hm (VRef l11) "category" = VStr "security") as Hcatm.
  { rewrite <- Hcat.
    apply (patch_all_frame "category" m e hdrs sb (VRef l0 :: init) h3 hm u1);
      try discriminate; try assumption.
    cbn [In patched_keys]. intros [E|[E|[E|[E|[E|[]]]]]]; discriminate E. }
  destruct (patch_case_security _ _ _ _ _ _ _ _ _ Hlastp Hb Hcatm Hreq11m)
    as (b & _ & Hbody & Hsec).
  exists b. split; [|split; [exact Hbody | exact Hsec]].
  apply patch_case_effect in Hlastp
    as (ltc & r & E & Etc & _ & _ & _ & _ & _ & _ & _ & _ & _ & _ & _ & Hfreq & _).
  injection Etc as <-.
  rewrite Hfreq; [exact Hreq0m | lia |].
  intros ->. apply Hfresh, list_elem_of_here.
Qed.

End OverwrittenBody.

(** ** The further properties on examples *)

Import JsString Json Coerce JsonReader Runtime Store StoreFacts JsStringFacts.
Import Execution Scenario Samples Rx Checks.

Lemma validate_canonical_witness :
  validate (users_spec "  /users " "post") = inr users_validated
  /\ validate (canonical users_validated) = inr users_validated.
Proof.
  assert (validate (users_spec "  /users " "post") = inr users_validated) as H
    by (vm_compute; reflexivity).
  split; [exact H|].
  exact (proj2 (validate_canonical _ _ H)).
Defined.

Lemma generateWithRetry_effort_witness :
  (0 < length (invoked (snd (generation model_down))))%nat
  /\ invoked (snd (generation model_down)) = [1; 2; 3]%nat
  /\ waits (snd (generation model_down)) = [2000; 4000].
Proof.
  split; [|split; vm_compute; reflexivity].
  apply (proj1 (proj2 (proj2 (generateWithRetry_effort parse_json ceil_millis_exact 3
                                model_down [])))).
  lia.
Defined.

Lemma exhausted_attempts_witness :
  snd (generation (model_throttled "2"))
  = [Invoke 1; Sleep 2500; Invoke 2; Sleep 2500; Invoke 3; Sleep 2500]
  /\ snd (generation model_down)
     = [Invoke 1; Sleep 2000; Invoke 2; Sleep 4000; Invoke 3].
Proof.
  split.
  - unfold generation.
    rewrite (proj1 (exhausted_attempts parse_json ceil_millis_exact 3
                      (model_throttled "2") [])).
    + vm_compute; reflexivity.
    + intros k _. exists (retry_in "2").
      split; [reflexivity | split; vm_compute; reflexivity].
  - unfold generation.
    rewrite (proj1 (proj2 (exhausted_attempts parse_json ceil_millis_exact 3
                             model_down []) ltac:(intros k _;
        exists (plain_error "fetch failed");
        split; [reflexivity | split; vm_compute; reflexivity]))).
    vm_compute; reflexivity.
Defined.

Lemma refused_requests_witness :
  status_of (fst (fst (generate_tests parse_json ceil_millis_exact
                         (Some (users_spec "users" "POST")) 0 5 model_down ∅))) = 400
  /\ snd (fst (generate_tests parse_json ceil_millis_exact
                 (Some (users_spec "users" "POST")) 0 5 model_down ∅)) = ∅
  /\ snd (generate_tests parse_json ceil_millis_exact
            (Some (users_spec "users" "POST")) 0 5 model_down ∅) = [].
Proof.
  assert (status_of (fst (fst (generate_tests parse_json ceil_millis_exact
                                 (Some (users_spec "users" "POST")) 0 5 model_down ∅)))
          = 400) as H by (vm_compute; reflexivity).
  split; [exact H|].
  exact (proj2 (refused_requests parse_json ceil_millis_exact
                  (Some (users_spec "users" "POST")) 0 5 model_down ∅) H).
Defined.

Lemma thrown_error_response_witness :
  store_run model_refuses
  = (failure 500
       [("error", JStr "API key not valid"); ("code", JStr "API_KEY_ERROR");
        ("suggestion", JStr "Try again or check your API configuration.")],
     ∅, [Invoke 1]).
Proof.
  unfold store_run.
  rewrite (thrown_error_response parse_json ceil_millis_exact users_validated 5
             model_refuses ∅ key_refused [Invoke 1]);
    vm_compute; reflexivity.
Defined.

Lemma cache_after_request_witness :
  snd (fst (users_run model_down)) !! cacheKey users_validated
  = Some {| entry_value := payload (fst (fst (users_run model_down)));
            entry_expires := 5 + stdTTL_ms |}.
Proof.
  assert (generate_tests parse_json ceil_millis_exact
            (Some (users_spec "/users" "POST")) 0 5 model_down ∅
          = (fst (fst (users_run model_down)), snd (fst (users_run model_down)),
             snd (users_run model_down))) as Hrun
    by (unfold users_run;
        destruct (generate_tests parse_json ceil_millis_exact
                    (Some (users_spec "/users" "POST")) 0 5 model_down ∅) as [[r c] t];
        reflexivity).
  destruct (cache_after_request parse_json ceil_millis_exact
              (users_spec "/users" "POST") users_validated 0 5 model_down ∅ _ _ _
              ltac:(left; eexists; reflexivity) ltac:(vm_compute; reflexivity) Hrun)
    as (_ & _ & _ & Hstored).
  destruct Hstored as (data & Hdata & Hentry);
    [vm_compute; reflexivity | vm_compute; discriminate |].
  rewrite Hentry. rewrite Hdata. reflexivity.
Defined.

Lemma fresh_answer_witness :
  exists js nv ni nb ns,
    payload (fst (fst (store_run model_four)))
    = JObj [("success", JBool true); ("testCases", JArr js);
            ("summary",
              JObj [("total", JNum 12); ("valid", JNum nv); ("invalid", JNum ni);
                    ("boundary", JNum nb); ("security", JNum ns)]);
            ("message", JStr "Generated 12 test cases")]
    /\ length js = 12%nat
    /\ 0 <= nv /\ 0 <= ni /\ 0 <= nb /\ 0 <= ns
    /\ nv + ni + nb + ns <= 12.
Proof.
  assert (fst (fst (store_run model_four))
          = Respond 200 (payload (fst (fst (store_run model_four))))) as Hres
    by (vm_compute; reflexivity).
  assert (generate_and_store parse_json ceil_millis_exact users_validated 5 model_four ∅
          = (Respond 200 (payload (fst (fst (store_run model_four)))),
             snd (fst (store_run model_four)), snd (store_run model_four))) as Hrun
    by (rewrite <- Hres; unfold store_run;
        destruct (generate_and_store parse_json ceil_millis_exact users_validated 5
                    model_four ∅) as [[r c] t]; reflexivity).
  exact (fresh_answer parse_json ceil_millis_exact users_validated 5 model_four ∅
           _ _ _ Hrun).
Defined.

Lemma test_verdict_witness :
  res_status (result_of (probed (probe_case 200) answers_ok)) = PASSED
  /\ res_status (result_of (probed (probe_case 404) answers_ok)) = FAILED
  /\ res_status (result_of (probed (probe_case 200) refused)) = ERROR.
Proof.
  assert (forall t n, probed t n <> None -> probed t n = Some (result_of (probed t n)))
    as Hres by (intros t n; destruct (probed t n); [reflexivity | congruence]).
  split; [|split].
  - apply (proj1 (test_verdict _ _ _ _
                    (Hres (probe_case 200) answers_ok ltac:(vm_compute; discriminate)))).
    eexists. split; [vm_compute; reflexivity|].
    split; [vm_compute; reflexivity|].
    split; intros text Hin; vm_compute in Hin; destruct Hin.
  - apply (proj1 (proj2 (test_verdict _ _ _ _
                           (Hres (probe_case 404) answers_ok
                              ltac:(vm_compute; discriminate))))).
    eexists. split; [vm_compute; reflexivity|].
    intros [Hst _]. vm_compute in Hst. discriminate Hst.
  - apply (proj1 (proj2 (proj2 (test_verdict _ _ _ _
                                  (Hres (probe_case 200) refused
                                     ltac:(vm_compute; discriminate)))))).
    vm_compute; reflexivity.
Defined.

Lemma probe_of_test_witness :
  (exists res, res_status res = ERROR /\ forall net, probed aimless_case net = Some res)
  /\ exists cfg,
       cfg_method cfg = "GET" /\ cfg_url cfg = "http://localhost:3000/users"
       /\ forall net net', net cfg = net' cfg ->
            probed (probe_case 200) net = probed (probe_case 200) net'.
Proof.
  split.
  - apply (proj1 (probe_of_test aimless_case "http://localhost:3000"
                    ltac:(discriminate))).
    intros ep m (rq & Hrq & Hep & _). vm_compute in Hrq. injection Hrq as <-.
    vm_compute in Hep. discriminate Hep.
  - destruct (proj2 (probe_of_test (probe_case 200) "http://localhost:3000"
                       ltac:(discriminate)) "/users" "GET")
      as (cfg & Hm & Hu & _ & Hnet).
    + eexists. split; [vm_compute; reflexivity|]. split; vm_compute; reflexivity.
    + exists cfg. split; [exact Hm|]. split; [rewrite Hu; vm_compute; reflexivity|].
      exact Hnet.
Defined.

Lemma results_in_order_witness :
  exists res test,
    results_of (probes_run second_refused) !! 1%nat = Some res
    /\ three_probes !! 1%nat = Some test
    /\ res_id res = prop test "id"
    /\ res_expected res = prop test "expected_response".
Proof.
  assert (results_of (probes_run second_refused) !! 1%nat
          = Some (result_of (results_of (probes_run second_refused) !! 1%nat))) as Hi
    by (vm_compute; reflexivity).
  destruct (results_in_order any_url None None None (Some (JNum 2)) three_probes
              second_refused (results_of (probes_run second_refused))
              (summary_of (probes_run second_refused))
              ltac:(vm_compute; reflexivity) 1%nat _ Hi)
    as (test & Ht & Hid & _ & _ & Hex & _).
  exists (result_of (results_of (probes_run second_refused) !! 1%nat)), test.
  auto.
Defined.

Lemma sanitizeString_accepted_witness :
  sanitizeString (Some (JStr "  John Doe ")) 100 = inr "John Doe"
  /\ sanitizeString (Some (JStr "John Doe")) 100 = inr "John Doe"
  /\ ~ occurs_in "--" "John Doe".
Proof.
  assert (sanitizeString (Some (JStr "  John Doe ")) 100 = inr "John Doe") as H
    by (vm_compute; reflexivity).
  destruct (ChecksFacts.sanitizeString_accepted _ _ _ H)
    as (_ & _ & _ & _ & Hsql & _ & _ & _ & Hidem).
  split; [exact H|]. split; [exact Hidem | exact Hsql].
Defined.

Lemma validateEmail_accepted_witness :
  validateEmail has_at (Some (JStr " ann@example.com ")) = inr "ann@example.com"
  /\ validateEmail has_at (Some (JStr "ann@example.com")) = inr "ann@example.com".
Proof.
  assert (validateEmail has_at (Some (JStr " ann@example.com ")) = inr "ann@example.com")
    as H by (vm_compute; reflexivity).
  split; [exact H|].
  exact (proj2 (proj2 (proj2 (proj2 (validateEmail_accepted has_at _ _ H))))).
Defined.

Lemma post_users_answer_witness :
  post_users has_at (Some new_user) "k3x9" "2026-01-01T00:00:00.000Z"
  = Respond 201
      (JObj [("success", JBool true);
             ("data", JObj [("id", JStr "k3x9"); ("name", JStr "Ann");
                            ("email", JStr "ann@example.com");
                            ("created_at", JStr "2026-01-01T00:00:00.000Z")])]).
Proof.
  apply (proj1 (proj2 (proj2 (post_users_answer has_at (Some new_user) "k3x9"
                                "2026-01-01T00:00:00.000Z"))) new_user);
    [reflexivity | left; eexists; reflexivity
    | vm_compute; reflexivity | vm_compute; reflexivity].
Defined.

Lemma get_user_answer_witness :
  status_of (get_user "1") = 200 /\ status_of (get_user "a b") = 400.
Proof.
  split.
  - apply (proj1 (proj2 (get_user_answer "1"))). reflexivity.
  - apply (proj1 (get_user_answer "a b")). right. vm_compute; reflexivity.
Defined.

Lemma stream_of_results_witness :
  exists results sent,
    length results = 3%nat
    /\ sent ≡ₚ results
    /\ events_of (stream_run [2; 0; 1]%nat)
       = List.map TestResult sent
         ++ [Done 3 (count_status PASSED results) (count_status FAILED results)]
    /\ (count_status PASSED results + count_status FAILED results
        + count_status ERROR results)%nat = 3%nat.
Proof.
  destruct (stream_of_results any_url None None (Some (JNum 2)) three_probes
              second_refused [2; 0; 1]%nat (events_of (stream_run [2; 0; 1]%nat)))
    as [H|(results & sent & Hlen & _ & Hperm & _ & Hev & Hsum)].
  - exact (Permutation_cons_append [0; 1]%nat 2%nat).
  - vm_compute; reflexivity.
  - vm_compute in H. discriminate H.
  - exists results, sent. auto.
Defined.

Lemma patched_targets_witness :
  let tcs := cases_of (fst (generation model_four_labelled)) in
  let h4 := patched_heap model_four_labelled (VStr "the body") in
  exists r,
    read h4 (default VUndef (tcs !! 1%nat)) "request" = VRef r
    /\ read h4 (VRef r) "method" = VStr "POST"
    /\ read h4 (VRef r) "endpoint" = VStr "/users"
    /\ read h4 (VRef r) "headers" = VNull.
Proof.
  intros tcs h4.
  assert (generateWithRetry parse_json ceil_millis_exact 3 model_four_labelled []
          = (Returned tcs (heap_of (fst (generation model_four_labelled))),
             snd (generation model_four_labelled))) as Hgen
    by (vm_compute; reflexivity).
  assert (patch_all "POST" "/users" VNull (VStr "the body") tcs
            (heap_of (fst (generation model_four_labelled))) = Some (tt, h4))
    as Hpatch by (vm_compute; reflexivity).
  apply (patched_targets parse_json ceil_millis_exact 3 model_four_labelled []
           "POST" "/users" VNull (VStr "the body") tcs _ h4 _ tt Hgen Hpatch 1%nat).
  vm_compute; reflexivity.
Defined.

Lemma patching_keeps_labels_witness :
  let tcs := cases_of (fst (generation model_four)) in
  let h3 := heap_of (fst (generation model_four)) in
  let h4 := patched_heap model_four (VStr "the body") in
  count_category h4 tcs "invalid" = count_category h3 tcs "invalid".
Proof.
  intros tcs h3 h4.
  assert (generateWithRetry parse_json ceil_millis_exact 3 model_four []
          = (Returned tcs h3, snd (generation model_four))) as Hgen
    by (vm_compute; reflexivity).
  assert (patch_all "POST" "/users" VNull (VStr "the body") tcs h3 = Some (tt, h4))
    as Hpatch by (vm_compute; reflexivity).
  exact (proj2 (proj2 (patching_keeps_labels parse_json ceil_millis_exact 3 model_four []
                         "POST" "/users" VNull (VStr "the body") tcs h3 h4 _ tt
                         Hgen Hpatch)) "invalid").
Defined.

Lemma fallback_answer_witness :
  prop (payload (fst (fst (store_run model_down)))) "summary"
  = Some (JObj [("total", JNum 12); ("valid", JNum 3); ("invalid", JNum 4);
                ("boundary", JNum 3); ("security", JNum 2)]).
Proof.
  assert (forall k, exists e,
            model model_down k = Failure e /\ (isQuota e = true \/ isAuth e = false))
    as Hall
    by (intros k; exists (plain_error "fetch failed");
        split; [reflexivity | right; vm_compute; reflexivity]).
  assert (fst (fst (store_run model_down))
          = Respond 200 (payload (fst (fst (store_run model_down))))) as Hres
    by (vm_compute; reflexivity).
  assert (generate_and_store parse_json ceil_millis_exact users_validated 5 model_down ∅
          = (Respond 200 (payload (fst (fst (store_run model_down)))),
             snd (fst (store_run model_down)), snd (store_run model_down))) as Hrun
    by (rewrite <- Hres; unfold store_run;
        destruct (generate_and_store parse_json ceil_millis_exact users_validated 5
                    model_down ∅) as [[r c] t]; reflexivity).
  exact (proj1 (fallback_answer parse_json ceil_millis_exact users_validated 5
                  model_down ∅ _ _ _ Hall Hrun)).
Defined.

Lemma filled_cases_share_request_witness :
  read (batch_heap reply_batch) (default VUndef (batch_cases reply_batch !! 11%nat))
    "request"
  = read (batch_heap reply_batch) (default VUndef (batch_cases reply_batch !! 0%nat))
      "request".
Proof.
  apply (filled_cases_share_request parse_json four_labelled []
           (batch_cases reply_batch) (batch_heap reply_batch)
           [own_case "TC_001" "valid"; own_case "TC_002" "valid";
            own_case "TC_003" "valid"; own_case "TC_004" "invalid"]
           (default VUndef (batch_cases reply_batch !! 0%nat))
           ltac:(vm_compute; reflexivity) ltac:(vm_compute; reflexivity)
           ltac:(vm_compute; reflexivity) ltac:(vm_compute; reflexivity)
           11%nat);
    [vm_compute; lia | vm_compute; reflexivity].
Defined.

Lemma first_case_body_overwritten_witness :
  let tcs := batch_cases reply_batch in
  let h4 := heap_after (patch_all "POST" "/users" VNull (VStr "the body") tcs
                          (batch_heap reply_batch)) in
  read h4 (default VUndef (tcs !! 0%nat)) "category" = VStr "valid"
  /\ exists b,
       read h4 (default VUndef (tcs !! 0%nat)) "request" = VRef 0%nat
       /\ read h4 (VRef 0%nat) "body" = VRef b
       /\ security_body h4 (VRef b).
Proof.
  intros tcs h4. split; [vm_compute; reflexivity|].
  apply (first_case_body_overwritten parse_json four_labelled [] tcs
           (batch_heap reply_batch) h4
           [own_case "TC_001" "valid"; own_case "TC_002" "valid";
            own_case "TC_003" "valid"; own_case "TC_004" "invalid"]
           (default VUndef (tcs !! 0%nat)) 0%nat "POST" "/users" VNull
           (VStr "the body") tt);
    first [vm_compute; reflexivity | vm_compute; lia].
Defined.
